(** * librapid: the array value, its reference count and the element-wise dispatcher

    A shallow embedding of

    - [src/librapid/array/multiarray.hpp]        (module [Src]),
    - [LEGACY/src/librapid/array/multiarray.hpp] (module [Legacy]),
    - [src/librapid/array/traits.hpp]            (module [internal]),
    - [src/librapid/array/cwisemap.hpp]          (module [mapping]),
    - [src/librapid/array/valueReference.hpp]    (modules [memory] and
                                                  [ValueReferenceOps]),
    - [LEGACY/src/librapid/math/core_math.cpp]   (module [core_math]),
    - [librapid/src/multiprecToString.cpp]       (module [multiprec]),

    (more of the legacy header is in the modules [utils] and [LegacyArray],
    and the traits of a [CWiseMap] are in [CWiseMapTraits]), together with
    the properties of the specification that these files decide, and further
    properties of the same code.

    Conventions.  A member function that mutates [*this] or a reference
    argument returns the updated record.  Every effect on storage that the
    headers delegate to code outside of them (allocation, free, copies, the
    element-wise kernels) is appended to the [trace] of the machine, in program
    order, with the arguments of the call.  The reference counters, which the
    headers manipulate themselves, are kept in the machine as a finite map. *)

From Stdlib Require Import ZArith List Bool String Lia Permutation.
From Stdlib Require PrimFloat.
From stdpp Require Import base option list gmap.
Import ListNotations.
Local Open Scope Z_scope.

(** ** Machine integers *)

(** Reduction of a mathematical integer to [uint64_t]. *)
Definition wrap_uint64 (z : Z) : Z := z mod 2 ^ 64.

(** Reduction of a mathematical integer to [int64_t] (two's complement). *)
Definition wrap_int64 (z : Z) : Z := (z + 2 ^ 63) mod 2 ^ 64 - 2 ^ 63.


(** [(uint64_t) -1], the default [seed] argument. *)
Definition UINT64_MAX : Z := 2 ^ 64 - 1.

(** ** Element types and devices *)

Module Datatype.
(** Modelled from the spec: the declaration of [enum class Datatype] is not
    part of the headers at hand; the enumerators and their order are those of
    the data model (and of the [switch] in [Array::operator T]). *)
Inductive t := NONE | VALIDNONE | INT32 | INT64 | FLOAT32 | FLOAT64 | CFLOAT32 | CFLOAT64.

Definition ordinal (d : t) : Z :=
  match d with
  | NONE => 0 | VALIDNONE => 1 | INT32 => 2 | INT64 => 3
  | FLOAT32 => 4 | FLOAT64 => 5 | CFLOAT32 => 6 | CFLOAT64 => 7
  end.

(** [max(a, b)] on enumerators (the template is not at hand): the one with
    the larger ordinal. *)
Definition max (a b : t) : t := if ordinal a <? ordinal b then b else a.

#[global] Instance eq_dec : EqDecision t.
Proof. solve_decision. Defined.
End Datatype.

Module Accelerator.
(** Modelled from the spec: the declaration of [enum class Accelerator] is
    not part of the headers at hand.  [NONE] is the "keep the source's
    device" default of [Array::copy] and [Array::clone]; [CPU] and [GPU] are
    the two devices of the data model, in that order. *)
Inductive t := NONE | CPU | GPU.

Definition ordinal (l : t) : Z :=
  match l with NONE => 0 | CPU => 1 | GPU => 2 end.

Definition max (a b : t) : t := if ordinal a <? ordinal b then b else a.

#[global] Instance eq_dec : EqDecision t.
Proof. solve_decision. Defined.
End Accelerator.

(** ** Shape descriptors *)

(** Modelled from the spec: [extent.hpp] is not at hand.  An extent is its
    dimension vector; equality is structural. *)
Definition Extent := list Z.

Module Extent_.
(** [Extent(dims)]: [dims] dimensions, each of length one. *)
Definition ofDims (dims : nat) : Extent := repeat 1 dims.

(** [size()]: the product of the dimensions; 1 when there is none. *)
Definition size (e : Extent) : Z := fold_right Z.mul 1 e.

(** [operator!=] *)
Definition neqb (a b : Extent) : bool := negb (bool_decide (a = b)).
End Extent_.

(** Modelled from the spec: [stride.hpp] is not at hand.  A stride is the
    element-stride vector with the two cached flags; [operator==] compares the
    vectors. *)
Record Stride := mkStride {
  strides : list Z;
  isTrivial : bool;
  isContiguous : bool
}.

Module Stride_.
(** The row-major strides of an extent. *)
Fixpoint rowMajor (e : list Z) : list Z :=
  match e with
  | [] => []
  | _ :: rest => fold_right Z.mul 1 rest :: rowMajor rest
  end.

Definition fromExtent (e : Extent) : Stride :=
  {| strides := rowMajor e; isTrivial := true; isContiguous := true |}.

(** [Stride(dims)] *)
Definition ofDims (dims : nat) : Stride :=
  {| strides := repeat 1 dims; isTrivial := true; isContiguous := true |}.

(** [operator==] *)
Definition eqb (a b : Stride) : bool := bool_decide (strides a = strides b).

Definition trivialContiguous (s : Stride) : bool := isTrivial s && isContiguous s.
End Stride_.

(** ** Scalars, operators, exceptions *)

(** A C++ scalar passed to the library: a value of an integral type, a finite
    binary floating point value [m * 2^e], or a complex number. *)
Inductive Scalar :=
| integral (z : Z)
| floating (m e : Z)
| complex (re im : Z * Z).

(** What is stored in one element of a buffer.  Conversions that round are
    kept symbolic: [cast d v] is [v] converted to the element type of [d]. *)
Inductive Element :=
| int32_t (z : Z)
| int64_t (z : Z)
| cast (d : Datatype.t) (v : Scalar).

(** The operator objects handed to the kernels ([ops.hpp] is not at hand; the
    dispatcher only passes them on). *)
Inductive FUNC :=
| ops_Add | ops_Sub | ops_Mul | ops_Div
| ops_FillRandom (min max : Scalar) (seed : Z)
| user_kernel (name : string).

(** One piece of an exception message. *)
Inductive fragment :=
| text (s : string)
| extent_str (e : Extent)
| number (z : Z).

Arguments text s%_string.
Arguments user_kernel name%_string.

Inductive exception :=
| invalid_argument (what : list fragment)
| runtime_error (what : list fragment)
| assertion_failed (what : list fragment).

(** ** Machines and computations *)

Inductive Result (A : Type) :=
| Ok (a : A)
| Throw (e : exception)
| Undefined.
Arguments Ok {A} a.
Arguments Throw {A} e.
Arguments Undefined {A}.

Section Machine.
(** The calls into storage and kernels, one type per header. *)
Context {Event : Type}.

Record Machine := mkMachine {
  counters : gmap Z Z;   (* the live [std::atomic] reference counters *)
  brk : Z;               (* the next fresh address *)
  trace : list Event     (* storage and kernel calls so far, oldest first *)
}.

Definition M (A : Type) : Type := Machine -> Result A * Machine.

Definition ret {A} (a : A) : M A := fun m => (Ok a, m).

Definition bind {A B} (c : M A) (k : A -> M B) : M B :=
  fun m =>
    match c m with
    | (Ok a, m') => k a m'
    | (Throw e, m') => (Throw e, m')
    | (Undefined, m') => (Undefined, m')
    end.

Definition throw {A} (e : exception) : M A := fun m => (Throw e, m).


(** A call that leaves the headers: logged. *)
Definition call (ev : Event) : M unit :=
  fun m => (Ok tt, {| counters := counters m; brk := brk m; trace := trace m ++ [ev] |}).

(** A fresh, non-null address. *)
Definition fresh : M Z :=
  fun m => (Ok (brk m), {| counters := counters m; brk := brk m + 1; trace := trace m |}).

(** [new std::atomic<..>(v)] at address [r]. *)
Definition new_counter (r v : Z) : M unit :=
  fun m => (Ok tt, {| counters := <[r := v]> (counters m); brk := brk m; trace := trace m |}).

(** [*r], undefined once the counter has been deleted. *)
Definition load_counter (r : Z) : M Z :=
  fun m => match counters m !! r with
           | Some c => (Ok c, m)
           | None => (Undefined, m)
           end.

Definition store_counter (r v : Z) : M unit :=
  fun m => match counters m !! r with
           | Some _ => (Ok tt, {| counters := <[r := v]> (counters m); brk := brk m; trace := trace m |})
           | None => (Undefined, m)
           end.

(** [delete r] *)
Definition delete_counter (r : Z) : M unit :=
  fun m => match counters m !! r with
           | Some _ => (Ok tt, {| counters := delete r (counters m); brk := brk m; trace := trace m |})
           | None => (Undefined, m)
           end.

(** Run a list of computations in order. *)
Fixpoint sequence_ (cs : list (M unit)) : M unit :=
  match cs with
  | [] => ret tt
  | c :: rest => bind c (fun _ => sequence_ rest)
  end.

(** What a computation returns, and the calls it makes, from a machine. *)
Definition outcome {A} (c : M A) (m : Machine) : Result A := fst (c m).

Definition calls {A} (c : M A) (m : Machine) : list Event :=
  drop (length (trace m)) (trace (snd (c m))).
End Machine.
Arguments Machine Event : clear implicits.
Arguments M Event A : clear implicits.

(** The two traversals of the dispatcher. *)
Inductive Path := TrivialPath | StridedPath.

Declare Scope comp_scope.
Delimit Scope comp_scope with comp.
Notation "'let*' x := c 'in' k" := (bind c (fun x => k))
  (at level 10, x name, c at level 100, k at level 200, only parsing) : comp_scope.
Local Open Scope comp_scope.

(** [nullptr] *)
Definition nullptr : Z := 0.

(** A typed, device-tagged pointer: [VoidPtr] / [RawArray]. *)
Record RawArray := mkRaw {
  data : Z;
  dtype : Datatype.t;
  location : Accelerator.t
}.

(** The members of [class Array], with their default member initialisers. *)
Record Array := mkArray {
  m_location : Accelerator.t;
  m_dtype : Datatype.t;
  m_dataStart : Z;
  m_dataOrigin : Z;
  m_references : Z;
  m_extent : Extent;
  m_stride : Stride;
  m_isScalar : bool;
  m_isChild : bool
}.

(** [Array()] *)
Definition Array_default : Array :=
  {| m_location := Accelerator.CPU; m_dtype := Datatype.NONE;
     m_dataStart := nullptr; m_dataOrigin := nullptr; m_references := nullptr;
     m_extent := []; m_stride := mkStride [] false false;
     m_isScalar := false; m_isChild := false |}.

Definition set_stride (a : Array) (s : Stride) : Array :=
  {| m_location := m_location a; m_dtype := m_dtype a;
     m_dataStart := m_dataStart a; m_dataOrigin := m_dataOrigin a;
     m_references := m_references a; m_extent := m_extent a;
     m_stride := s; m_isScalar := m_isScalar a; m_isChild := m_isChild a |}.

Definition set_isScalar (a : Array) (v : bool) : Array :=
  {| m_location := m_location a; m_dtype := m_dtype a;
     m_dataStart := m_dataStart a; m_dataOrigin := m_dataOrigin a;
     m_references := m_references a; m_extent := m_extent a;
     m_stride := m_stride a; m_isScalar := v; m_isChild := m_isChild a |}.


Definition trivialContiguous (a : Array) : bool :=
  Stride_.trivialContiguous (m_stride a).

(** The test of the binary dispatchers: both operands trivial and contiguous,
    or of equal stride. *)
Definition binaryTrivial (a b : Array) : bool :=
  (a.(m_stride).(isTrivial) && a.(m_stride).(isContiguous) &&
   b.(m_stride).(isTrivial) && b.(m_stride).(isContiguous))
  || Stride_.eqb a.(m_stride) b.(m_stride).

(** Two arrays name the same storage: same counter, same buffer base, same
    element type and device.  Reference copy, assignment and subscript
    produce such arrays; a subscript differs in [m_dataStart] only. *)
Definition sharesStorage (a b : Array) : Prop :=
  m_references b = m_references a /\ m_dataOrigin b = m_dataOrigin a /\
  m_dtype b = m_dtype a /\ m_location b = m_location a.

(** ** [src/librapid/array/multiarray.hpp] *)

Module Src.
(** The calls that leave the header: the [AUTOCAST_*] macros with the kernel
    of [multiarray_operations.hpp] they dispatch to. *)
Inductive Event :=
| AUTOCAST_ALLOC (ptr : RawArray) (elems : Z)
| AUTOCAST_FREE (ptr : RawArray)
| multiarrayUnaryOpTrivial (ptrA ptrC : RawArray) (size : Z) (operation : FUNC)
| multiarrayUnaryOpComplex (ptrA ptrC : RawArray) (size : Z) (extent : Extent)
    (strideA strideC : Stride) (operation : FUNC)
| multiarrayBinaryOpTrivial (ptrA ptrB ptrC : RawArray) (aScalar bScalar : bool)
    (size : Z) (operation : FUNC)
| multiarrayBinaryOpComplex (ptrA ptrB ptrC : RawArray) (aScalar bScalar : bool)
    (size : Z) (extent : Extent) (strideA strideB strideC : Stride) (operation : FUNC).

Abbreviation M := (M Event).

(** Modelled from the spec: the body of [makeVoidPtr] is in [multiarray.cpp],
    which is not at hand; the pointer handed to a kernel is the view base
    [start], tagged with the array's element type and device. *)
Definition makeVoidPtr (a : Array) : RawArray :=
  {| data := m_dataStart a; dtype := m_dtype a; location := m_location a |}.

Definition increment (a : Array) : M unit :=
  if m_references a =? nullptr then ret tt
  else
    let* c := load_counter (m_references a) in
    store_counter (m_references a) (wrap_uint64 (c + 1)).

Definition decrement (a : Array) : M unit :=
  if m_references a =? nullptr then ret tt
  else
    let* c := load_counter (m_references a) in
    let* _ := store_counter (m_references a) (wrap_uint64 (c - 1)) in
    let* c' := load_counter (m_references a) in
    if c' =? 0 then
      (* Delete data *)
      let* _ := call (AUTOCAST_FREE {| data := m_dataOrigin a; dtype := m_dtype a;
                                       location := m_location a |}) in
      delete_counter (m_references a)
    else ret tt.

(** Modelled from the spec: the body of [constructNew] is in
    [multiarray.cpp], which is not at hand.  It allocates a fresh storage of
    [e.size()] elements on the device, with [origin = start], and a fresh
    counter holding 1.  A failing allocation (an element type that is [NONE]
    or [VALIDNONE], a device that is not compiled in, exhausted memory) is
    decided by that body and is not modelled: what is proved through this
    definition holds for the calls in which the allocation succeeds. *)
Definition constructNew (self : Array) (e : Extent) (s : Stride)
    (dt : Datatype.t) (loc : Accelerator.t) : M Array :=
  let* p := fresh in
  let* _ := call (AUTOCAST_ALLOC {| data := p; dtype := dt; location := loc |} (Extent_.size e)) in
  let* r := fresh in
  let* _ := new_counter r 1 in
  ret {| m_location := loc; m_dtype := dt; m_dataStart := p; m_dataOrigin := p;
         m_references := r; m_extent := e; m_stride := s;
         m_isScalar := m_isScalar self; m_isChild := m_isChild self |}.

(** Modelled from the spec: [Array(extent, dtype, location)], whose body is
    in [multiarray.cpp]: a fresh storage with the trivial stride of the
    extent. *)
Definition Array_ (e : Extent) (dt : Datatype.t) (loc : Accelerator.t) : M Array :=
  constructNew Array_default e (Stride_.fromExtent e) dt loc.

(** [applyUnaryOp(a, res, operation)] *)
Definition applyUnaryOp (a res : Array) (operation : FUNC) : M Array :=
  (* Operate on one array and store the result in another array *)
  if (res.(m_references) =? nullptr) || Extent_.neqb res.(m_extent) a.(m_extent) then
    throw (invalid_argument [text "Cannot operate on array with "; extent_str a.(m_extent);
                             text " and store the result in "; extent_str res.(m_extent)])
  else
    let ptrA := makeVoidPtr a in
    let ptrC := makeVoidPtr res in
    let size := Extent_.size a.(m_extent) in
    let* _ :=
      if a.(m_stride).(isTrivial) && a.(m_stride).(isContiguous) then
        (* Trivial *)
        call (multiarrayUnaryOpTrivial ptrA ptrC size operation)
      else
        (* Not trivial, so use advanced method *)
        call (multiarrayUnaryOpComplex ptrA ptrC size a.(m_extent) a.(m_stride)
                res.(m_stride) operation) in
    ret (set_isScalar res a.(m_isScalar)).

(** [applyBinaryOp(a, b, res, operation)] *)
Definition applyBinaryOp_into (a b res : Array) (operation : FUNC) : M Array :=
  (* Operate on two arrays and store the result in another array *)
  if Extent_.neqb a.(m_extent) b.(m_extent) then
    throw (invalid_argument [text "Cannot operate on two arrays with "; extent_str a.(m_extent);
                             text " and "; extent_str b.(m_extent)])
  else if (res.(m_references) =? nullptr) || Extent_.neqb res.(m_extent) a.(m_extent) then
    throw (invalid_argument [text "Cannot operate on two arrays with "; extent_str a.(m_extent);
                             text " and store the result in "; extent_str b.(m_extent)])
  else
    let ptrA := makeVoidPtr a in
    let ptrB := makeVoidPtr b in
    let ptrC := makeVoidPtr res in
    let size := Extent_.size a.(m_extent) in
    let* res :=
      if (a.(m_stride).(isTrivial) && a.(m_stride).(isContiguous) &&
          b.(m_stride).(isTrivial) && b.(m_stride).(isContiguous))
         || Stride_.eqb a.(m_stride) b.(m_stride) then
        (* Trivial *)
        let* _ := call (multiarrayBinaryOpTrivial ptrA ptrB ptrC a.(m_isScalar)
                          b.(m_isScalar) size operation) in
        (* Update the result stride too *)
        ret (set_stride res a.(m_stride))
      else
        (* Not trivial, so use advanced method *)
        let* _ := call (multiarrayBinaryOpComplex ptrA ptrB ptrC a.(m_isScalar)
                          b.(m_isScalar) size a.(m_extent) a.(m_stride) b.(m_stride)
                          res.(m_stride) operation) in
        ret res in
    if a.(m_isScalar) && b.(m_isScalar) then ret (set_isScalar res true) else ret res.

(** [applyBinaryOp(a, b, operation)] *)
Definition applyBinaryOp (a b : Array) (operation : FUNC) : M Array :=
  (* Operate on two arrays and return the result *)
  if negb (a.(m_isScalar) || b.(m_isScalar)) && Extent_.neqb a.(m_extent) b.(m_extent) then
    throw (invalid_argument [text "Cannot operate on two arrays with "; extent_str a.(m_extent);
                             text " and "; extent_str b.(m_extent)])
  else
    let newLoc := Accelerator.max a.(m_location) b.(m_location) in
    let newType := Datatype.max a.(m_dtype) b.(m_dtype) in
    let* res := Array_ a.(m_extent) newType newLoc in
    let ptrA := makeVoidPtr a in
    let ptrB := makeVoidPtr b in
    let ptrC := makeVoidPtr res in
    let size := Extent_.size a.(m_extent) in
    let* res :=
      if (a.(m_stride).(isTrivial) && a.(m_stride).(isContiguous) &&
          b.(m_stride).(isTrivial) && b.(m_stride).(isContiguous))
         || Stride_.eqb a.(m_stride) b.(m_stride) then
        (* Trivial *)
        let* _ := call (multiarrayBinaryOpTrivial ptrA ptrB ptrC a.(m_isScalar)
                          b.(m_isScalar) size operation) in
        (* Update the result stride too *)
        ret (set_stride res a.(m_stride))
      else
        (* Not trivial, so use advanced method *)
        let* _ := call (multiarrayBinaryOpComplex ptrA ptrB ptrC a.(m_isScalar)
                          b.(m_isScalar) size a.(m_extent) a.(m_stride) b.(m_stride)
                          res.(m_stride) operation) in
        ret res in
    if a.(m_isScalar) && b.(m_isScalar) then ret (set_isScalar res true) else ret res.

(** The traversal a kernel call stands for. *)
Definition path (ev : Event) : option Path :=
  match ev with
  | multiarrayUnaryOpTrivial _ _ _ _ => Some TrivialPath
  | multiarrayBinaryOpTrivial _ _ _ _ _ _ _ => Some TrivialPath
  | multiarrayUnaryOpComplex _ _ _ _ _ _ _ => Some StridedPath
  | multiarrayBinaryOpComplex _ _ _ _ _ _ _ _ _ _ _ => Some StridedPath
  | _ => None
  end.
End Src.

(** ** [LEGACY/src/librapid/array/multiarray.hpp] *)

Module Legacy.
(** The calls that leave the header: raw storage ([rawArrayMalloc],
    [rawArrayFree], [rawArrayMemcpy]), the assignment of a scalar to the
    object behind a pointer ([store]), and the kernels of
    [multiarray_operations.hpp]. *)
Inductive Event :=
| rawArrayMalloc (raw : RawArray) (elems : Z)
| rawArrayFree (raw : RawArray)
| rawArrayMemcpy (dst src : RawArray) (elems : Z)
| store (raw : RawArray) (val : Element)
| multiarrayUnaryOpTrivial (dstPtr srcPtr : RawArray) (size : Z) (operation : FUNC)
| multiarrayUnaryOpComplex (dstPtr srcPtr : RawArray) (size : Z) (extent : Extent)
    (dstStride srcStride : Stride) (operation : FUNC) (dstTrivial : bool)
| multiarrayBinaryOpTrivial (ptrDst ptrSrcA ptrSrcB : RawArray) (aScalar bScalar : bool)
    (size : Z) (operation : FUNC) (permitVectorize : bool)
| multiarrayBinaryOpComplex (ptrDst ptrSrcA ptrSrcB : RawArray) (aScalar bScalar : bool)
    (size : Z) (extent : Extent) (dstStride aStride bStride : Stride) (operation : FUNC).

Abbreviation M := (M Event).

(** Modelled from the spec: the body of [createRaw] is in [multiarray.cpp],
    which is not at hand; the handle names the view base [start], tagged
    with the array's element type and device.  The header uses the handle
    as the place of the array's own elements: the kernels read and write
    through it, and [operator=(T)] copies the value of a scalar child
    through it. *)
Definition createRaw (a : Array) : RawArray :=
  {| data := m_dataStart a; dtype := m_dtype a; location := m_location a |}.

Definition increment (a : Array) : M unit :=
  if m_references a =? nullptr then ret tt
  else
    let* c := load_counter (m_references a) in
    store_counter (m_references a) (wrap_int64 (c + 1)).

Definition decrement (a : Array) : M unit :=
  if m_references a =? nullptr then ret tt
  else
    let* c := load_counter (m_references a) in
    let* _ := store_counter (m_references a) (wrap_int64 (c - 1)) in
    let* c' := load_counter (m_references a) in
    if c' =? 0 then
      (* Delete data *)
      let* _ := call (rawArrayFree (createRaw a)) in
      delete_counter (m_references a)
    else ret tt.

(** Modelled from the spec: the body of [constructNew] is in
    [multiarray.cpp], which is not at hand.  It allocates a fresh storage of
    [e.size()] elements on the device, with [origin = start], and a fresh
    counter holding 1.  A failing allocation (an element type that is [NONE]
    or [VALIDNONE], a device that is not compiled in, exhausted memory) is
    decided by that body and is not modelled: what is proved through this
    definition holds for the calls in which the allocation succeeds. *)
Definition constructNew (self : Array) (e : Extent) (s : Stride)
    (dt : Datatype.t) (loc : Accelerator.t) : M Array :=
  let* p := fresh in
  let* _ := call (rawArrayMalloc {| data := p; dtype := dt; location := loc |} (Extent_.size e)) in
  let* r := fresh in
  let* _ := new_counter r 1 in
  ret {| m_location := loc; m_dtype := dt; m_dataStart := p; m_dataOrigin := p;
         m_references := r; m_extent := e; m_stride := s;
         m_isScalar := m_isScalar self; m_isChild := m_isChild self |}.

(** Modelled from the spec: [Array(extent, dtype, location)], whose body is
    in [multiarray.cpp]: a fresh storage with the trivial stride of the
    extent. *)
Definition Array_ (e : Extent) (dt : Datatype.t) (loc : Accelerator.t) : M Array :=
  constructNew Array_default e (Stride_.fromExtent e) dt loc.

(** [dstPtr.data + dstOffset] when [dstOffset] is not zero. *)
Definition offsetRaw (p : RawArray) (dstOffset : Z) : RawArray :=
  if dstOffset =? 0 then p
  else {| data := data p + dstOffset; dtype := dtype p; location := location p |}.

(** [applyUnaryOp(dst, src, operation, permitInvalid, dstOffset)] *)
Definition applyUnaryOp_into (dst src : Array) (operation : FUNC)
    (permitInvalid : bool) (dstOffset : Z) : M Array :=
  (* Operate on one array and store the result in another array *)
  if negb permitInvalid &&
     ((dst.(m_references) =? nullptr) || Extent_.neqb dst.(m_extent) src.(m_extent)) then
    throw (invalid_argument [text "Cannot operate on array with "; extent_str src.(m_extent);
                             text " and store the result in "; extent_str dst.(m_extent)])
  else
    let dstPtr := offsetRaw (createRaw dst) dstOffset in
    let srcPtr := createRaw src in
    let size := Extent_.size src.(m_extent) in
    let* _ :=
      if negb permitInvalid && dst.(m_stride).(isTrivial) && dst.(m_stride).(isContiguous) &&
         src.(m_stride).(isTrivial) && src.(m_stride).(isContiguous) then
        (* Trivial *)
        call (multiarrayUnaryOpTrivial dstPtr srcPtr size operation)
      else
        (* Not trivial, so use advanced method *)
        call (multiarrayUnaryOpComplex dstPtr srcPtr size src.(m_extent) dst.(m_stride)
                src.(m_stride) operation
                (dst.(m_stride).(isTrivial) && dst.(m_stride).(isContiguous))) in
    ret (set_isScalar dst src.(m_isScalar)).

(** [applyUnaryOp(src, operation, permitInvalid, dstOffset)] *)
Definition applyUnaryOp (src : Array) (operation : FUNC)
    (permitInvalid : bool) (dstOffset : Z) : M Array :=
  (* Operate on a single array and return a new array *)
  let* dst := Array_ src.(m_extent) src.(m_dtype) src.(m_location) in
  let dstPtr := offsetRaw (createRaw dst) dstOffset in
  let srcPtr := createRaw src in
  let size := Extent_.size src.(m_extent) in
  let* _ :=
    if negb permitInvalid && dst.(m_stride).(isTrivial) && dst.(m_stride).(isContiguous) &&
       src.(m_stride).(isTrivial) && src.(m_stride).(isContiguous) then
      (* Trivial *)
      call (multiarrayUnaryOpTrivial dstPtr srcPtr size operation)
    else
      (* Not trivial, so use advanced method *)
      call (multiarrayUnaryOpComplex dstPtr srcPtr size src.(m_extent) dst.(m_stride)
              src.(m_stride) operation
              (dst.(m_stride).(isTrivial) && dst.(m_stride).(isContiguous))) in
  ret (set_isScalar dst src.(m_isScalar)).

(** [applyUnaryOp(Array &src, operation)] *)
Definition applyUnaryOp_ref (src : Array) (operation : FUNC) : M Array :=
  if src.(m_references) =? nullptr then
    throw (invalid_argument [text "Cannot operate on an "; text "uninitialized array"])
  else
    let* dst := Array_ src.(m_extent) src.(m_dtype) src.(m_location) in
    let srcPtr := createRaw src in
    let dstPtr := createRaw dst in
    let size := Extent_.size src.(m_extent) in
    let* _ :=
      if src.(m_stride).(isTrivial) && src.(m_stride).(isContiguous) then
        (* Trivial *)
        call (multiarrayUnaryOpTrivial dstPtr srcPtr size operation)
      else
        (* Not trivial, so use advanced method *)
        call (multiarrayUnaryOpComplex dstPtr srcPtr size dst.(m_extent) dst.(m_stride)
                src.(m_stride) operation true) in
    ret (set_isScalar dst src.(m_isScalar)).

(** [applyBinaryOp(dst, srcA, srcB, operation, permitInvalid, permitVectorize)] *)
Definition applyBinaryOp_into (dst srcA srcB : Array) (operation : FUNC)
    (permitInvalid permitVectorize : bool) : M Array :=
  (* Operate on two arrays and store the result in another array *)
  if negb permitInvalid &&
     (negb srcA.(m_isScalar) && negb srcB.(m_isScalar) &&
      Extent_.neqb srcA.(m_extent) srcB.(m_extent)) then
    throw (invalid_argument [text "Cannot operate on two arrays with "; extent_str srcA.(m_extent);
                             text " and "; extent_str srcA.(m_extent)])
  else if negb permitInvalid &&
          ((dst.(m_references) =? nullptr) || Extent_.neqb dst.(m_extent) srcA.(m_extent)) then
    throw (invalid_argument [text "Cannot operate on two arrays with "; extent_str srcA.(m_extent);
                             text " and store the result in "; extent_str dst.(m_extent)])
  else
    let ptrSrcA := createRaw srcA in
    let ptrSrcB := createRaw srcB in
    let ptrDst := createRaw dst in
    let size := Extent_.size dst.(m_extent) in
    let* dst :=
      if (srcA.(m_stride).(isTrivial) && srcA.(m_stride).(isContiguous) &&
          srcB.(m_stride).(isTrivial) && srcB.(m_stride).(isContiguous))
         || Stride_.eqb srcA.(m_stride) srcB.(m_stride) then
        (* Trivial *)
        let* _ := call (multiarrayBinaryOpTrivial ptrDst ptrSrcA ptrSrcB srcA.(m_isScalar)
                          srcB.(m_isScalar) size operation permitVectorize) in
        (* Update the result stride too *)
        ret (set_stride dst (if srcA.(m_isScalar) then srcB.(m_stride) else srcA.(m_stride)))
      else
        (* Not trivial, so use advanced method *)
        let* _ := call (multiarrayBinaryOpComplex ptrDst ptrSrcA ptrSrcB srcA.(m_isScalar)
                          srcB.(m_isScalar) size dst.(m_extent) dst.(m_stride)
                          srcA.(m_stride) srcB.(m_stride) operation) in
        ret dst in
    if srcA.(m_isScalar) && srcB.(m_isScalar) then ret (set_isScalar dst true) else ret dst.

(** [applyBinaryOp(srcA, srcB, operation, permitInvalid, permitVectorize)] *)
Definition applyBinaryOp (srcA srcB : Array) (operation : FUNC)
    (permitInvalid permitVectorize : bool) : M Array :=
  (* Operate on two arrays and store the result in another array *)
  if negb permitInvalid && negb (srcA.(m_isScalar) || srcB.(m_isScalar)) &&
     Extent_.neqb srcA.(m_extent) srcB.(m_extent) then
    throw (invalid_argument [text "Cannot operate on two arrays with "; extent_str srcA.(m_extent);
                             text " and "; extent_str srcB.(m_extent)])
  else
    let newLoc := Accelerator.max srcA.(m_location) srcB.(m_location) in
    let newType := Datatype.max srcA.(m_dtype) srcB.(m_dtype) in
    let* dst := Array_ (if srcA.(m_isScalar) then srcB.(m_extent) else srcA.(m_extent))
                  newType newLoc in
    let ptrSrcA := createRaw srcA in
    let ptrSrcB := createRaw srcB in
    let ptrDst := createRaw dst in
    let size := Extent_.size dst.(m_extent) in
    let* dst :=
      if (srcA.(m_stride).(isTrivial) && srcA.(m_stride).(isContiguous) &&
          srcB.(m_stride).(isTrivial) && srcB.(m_stride).(isContiguous))
         || Stride_.eqb srcA.(m_stride) srcB.(m_stride) then
        (* Trivial *)
        let* _ := call (multiarrayBinaryOpTrivial ptrDst ptrSrcA ptrSrcB srcA.(m_isScalar)
                          srcB.(m_isScalar) size operation permitVectorize) in
        (* Update the result stride too *)
        ret (set_stride dst (if srcA.(m_isScalar) then srcB.(m_stride) else srcA.(m_stride)))
      else
        (* Not trivial, so use advanced method *)
        let* _ := call (multiarrayBinaryOpComplex ptrDst ptrSrcA ptrSrcB srcA.(m_isScalar)
                          srcB.(m_isScalar) size dst.(m_extent) dst.(m_stride)
                          srcA.(m_stride) srcB.(m_stride) operation) in
        ret dst in
    if srcA.(m_isScalar) && srcB.(m_isScalar) then ret (set_isScalar dst true) else ret dst.


(** The function-local statics of one instantiation of [fillRandom]. *)
Record FillRandomStatics := mkStatics {
  statSeed : Z;
  prevSeed : Z;
  statSeedSet : bool
}.

Definition fillRandom_statics : FillRandomStatics :=
  {| statSeed := 0; prevSeed := UINT64_MAX; statSeedSet := false |}.

(** The seed bookkeeping at the head of [fillRandom]; [now] is the value of
    [(uint64_t)(seconds() * 10)] at the call. *)
Definition fillRandom_seed (seed now : Z) (st : FillRandomStatics) : FillRandomStatics :=
  if negb (prevSeed st =? seed) || negb (statSeedSet st) || negb (seed =? UINT64_MAX) then
    {| prevSeed := seed;
       statSeed := if seed =? UINT64_MAX then now else seed;
       statSeedSet := true |}
  else st.

(** [fillRandom(min, max, seed)] *)
Definition fillRandom (self : Array) (min max : Scalar) (seed now : Z)
    (st : FillRandomStatics) : M (Array * FillRandomStatics) :=
  let st := fillRandom_seed seed now st in
  let* self := applyUnaryOp_into self self (ops_FillRandom min max (statSeed st)) false 0 in
  ret (self, st).

(** The statics of the instantiations [fillRandom<T>]: the function is a
    template, and each instantiation has statics of its own. *)
Definition Instantiations (T : Type) : Type := T -> FillRandomStatics.

(** The statics before the first call of any instantiation. *)
Definition programStart {T : Type} : Instantiations T := fun _ => fillRandom_statics.

(** The seed bookkeeping of one call of [fillRandom<t>]: the statics of the
    other instantiations are not touched. *)
Definition fillRandom_seed_of {T : Type} `{EqDecision T} (t : T) (seed now : Z)
    (sts : Instantiations T) : Instantiations T :=
  fun t' => if decide (t' = t) then fillRandom_seed seed now (sts t') else sts t'.

(** The statics after a sequence of calls, each given by its instantiation,
    its [seed] argument and the clock reading at the call. *)
Definition afterCalls {T : Type} `{EqDecision T} (history : list (T * Z * Z))
    (sts : Instantiations T) : Instantiations T :=
  fold_left (fun sts c => fillRandom_seed_of (fst (fst c)) (snd (fst c)) (snd c) sts)
    history sts.

(** The seeds handed to [ops::FillRandom] by a sequence of calls. *)
Fixpoint seedsUsed {T : Type} `{EqDecision T} (calls : list (T * Z * Z))
    (sts : Instantiations T) : list Z :=
  match calls with
  | [] => []
  | (t, seed, now) :: rest =>
      let sts' := fillRandom_seed_of t seed now sts in
      statSeed (sts' t) :: seedsUsed rest sts'
  end.

Definition runtime_error_mapKernel : exception :=
  runtime_error [text "Please read the documentation for valid inputs to the ";
                 text "mapKernel function"].

(** [mapKernelGetPointers(ptrVals, e, d, first, arrayPack...)]; [PTR] is
    given by the element type it points to, and the pointers written to
    [ptrVals] are returned. *)
Fixpoint mapKernelGetPointers (PTR : Datatype.t) (e : Extent) (d : Datatype.t)
    (first : Array) (arrayPack : list Array) : Result (list Z) :=
  match arrayPack with
  | [] => Ok [data (createRaw first)]
  | next :: rest =>
      (* Ensure all the arrays are on the CPU, have the same stride, are
         contiguous in memory, have the same extent and the same datatype *)
      if negb (bool_decide (PTR = first.(m_dtype))) ||
         negb first.(m_stride).(isContiguous) ||
         Extent_.neqb first.(m_extent) e ||
         negb (bool_decide (first.(m_dtype) = d)) then
        Throw runtime_error_mapKernel
      else
        match mapKernelGetPointers PTR e d next rest with
        | Ok ptrs => Ok (data (createRaw first) :: ptrs)
        | Throw ex => Throw ex
        | Undefined => Undefined
        end
  end.

(** The operator object a kernel call receives. *)
Definition operationOf (ev : Event) : option FUNC :=
  match ev with
  | multiarrayUnaryOpTrivial _ _ _ op => Some op
  | multiarrayUnaryOpComplex _ _ _ _ _ _ op _ => Some op
  | multiarrayBinaryOpTrivial _ _ _ _ _ _ op _ => Some op
  | multiarrayBinaryOpComplex _ _ _ _ _ _ _ _ _ _ op => Some op
  | _ => None
  end.

(** The traversal a kernel call stands for. *)
Definition path (ev : Event) : option Path :=
  match ev with
  | multiarrayUnaryOpTrivial _ _ _ _ => Some TrivialPath
  | multiarrayBinaryOpTrivial _ _ _ _ _ _ _ _ => Some TrivialPath
  | multiarrayUnaryOpComplex _ _ _ _ _ _ _ _ => Some StridedPath
  | multiarrayBinaryOpComplex _ _ _ _ _ _ _ _ _ _ _ => Some StridedPath
  | _ => None
  end.
End Legacy.

(** ** [src/librapid/array/cwisemap.hpp] *)

(** Modelled from the spec: [LR_ASSERT(cond, msg, ...)] is defined in
    [config.hpp], which is not at hand; a false condition fails the operation
    with the message. *)
Definition LR_ASSERT (cond : bool) (msg : list fragment) : Result unit :=
  if cond then Ok tt else Throw (assertion_failed msg).

(** ** [src/librapid/array/traits.hpp] *)

Module internal.
(** The scalar types that have a [traits] specialisation. *)
Inductive CType :=
| char_t | bool_t | int8 | uint8 | int16 | uint16 | int32 | uint32 | int64 | uint64
| float_t | double_t.

#[global] Instance CType_eq_dec : EqDecision CType.
Proof. solve_decision. Defined.

(** The integral promotion of a type, where [int] has 32 bits. *)
Definition promoted (t : CType) : CType :=
  match t with
  | char_t | bool_t | int8 | uint8 | int16 | uint16 => int32
  | _ => t
  end.

(** [std::common_type<L, R>::type]: the type itself when both are the same,
    otherwise the result of the usual arithmetic conversions, where [int]
    has 32 bits and [long] has 64. *)
Definition common_type (l r : CType) : CType :=
  if decide (l = r) then l
  else
    match l, r with
    | double_t, _ | _, double_t => double_t
    | float_t, _ | _, float_t => float_t
    | _, _ =>
        match promoted l, promoted r with
        | uint64, _ | _, uint64 => uint64
        | int64, _ | _, int64 => int64
        | uint32, _ | _, uint32 => uint32
        | _, _ => int32
        end
    end.

(** [ReturnType<LHS, RHS>::RetType] *)
Definition ReturnType (LHS RHS : CType) : CType := common_type LHS RHS.

(** The element type that stands for a scalar type, if any
    ([typeToDatatype]). *)
Definition typeToDatatype (t : CType) : option Datatype.t :=
  match t with
  | int32 => Some Datatype.INT32
  | int64 => Some Datatype.INT64
  | float_t => Some Datatype.FLOAT32
  | double_t => Some Datatype.FLOAT64
  | _ => None
  end.
End internal.

Module mapping.
Import internal.

(** An operand of a [CWiseMap]: a C++ scalar ([traits<T>::IsScalar]) or an
    array-like value with an [extent()]. *)
Inductive Operand :=
| scalarOperand (ty : CType) (v : Scalar)
| arrayOperand (ty : CType) (extent : Extent) (stride : Stride).

Definition IsScalar (o : Operand) : bool :=
  match o with scalarOperand _ _ => true | arrayOperand _ _ _ => false end.

(** What [extractAndCheckExtent] returns: an extent, or the scalar itself. *)
Inductive Extracted :=
| anExtent (e : Extent)
| aScalar (ty : CType) (v : Scalar).

Fixpoint extractAndCheckExtent (first : Operand) (rest : list Operand) : Result Extracted :=
  match rest with
  | [] =>
      match first with
      | scalarOperand ty v => Ok (aScalar ty v)
      | arrayOperand _ e _ => Ok (anExtent e)
      end
  | next :: rest' =>
      match first with
      | scalarOperand _ _ => extractAndCheckExtent next rest'
      | arrayOperand _ e _ =>
          if forallb IsScalar rest then Ok (anExtent e)
          else
            match extractAndCheckExtent next rest' with
            | Ok (anExtent e') =>
                match LR_ASSERT (bool_decide (e = e'))
                        [text "All arrays must have the same extent"] with
                | Ok _ => Ok (anExtent e)
                | Throw ex => Throw ex
                | Undefined => Undefined
                end
            | Ok (aScalar _ _) => Undefined
            | Throw ex => Throw ex
            | Undefined => Undefined
            end
      end
  end.
End mapping.

(** ** [src/librapid/array/valueReference.hpp] *)

Module memory.
Inductive device := CPU | GPU.

(** [ValueReference<bool, d>]: the address of a 64-bit block and a bit index. *)
Record ValueReference_bool := mkRef {
  m_value : Z;
  m_bit : Z
}.

(** The 64-bit blocks, by address. *)
Definition Blocks := gmap Z Z.

Definition out_of_range (bit : Z) : list fragment :=
  [text "Bit "; number bit;
   text " is out of range for ValueReference<bool>. Bit index must be in the ";
   text "range [0, 64)"].

(** [ValueReference(uint64_t *val, uint16_t bit)] *)
Definition ValueReference (val : Z) (bit : Z) : Result ValueReference_bool :=
  match LR_ASSERT ((0 <=? bit) && (bit <? 512)) (out_of_range bit) with
  | Ok _ => Ok {| m_value := val; m_bit := bit |}
  | Throw ex => Throw ex
  | Undefined => Undefined
  end.

(** [1ull << bit]: undefined from 64 on. *)
Definition shl1 (bit : Z) : option Z :=
  if (0 <=? bit) && (bit <? 64) then Some (wrap_uint64 (Z.shiftl 1 bit)) else None.

(** [~x] on [uint64_t] *)
Definition not64 (x : Z) : Z := wrap_uint64 (Z.lnot x).

(** [get()]: on the host the block is read in place, otherwise it is
    copied to the host first. *)
Definition get (d : device) (r : ValueReference_bool) (mem : Blocks) : Result bool :=
  match mem !! r.(m_value), shl1 r.(m_bit) with
  | Some block, Some mask =>
      match d with
      | CPU => Ok (negb (Z.land block mask =? 0))
      | GPU => let tmp := block in Ok (negb (Z.land tmp mask =? 0))
      end
  | _, _ => Undefined
  end.

(** [set(value)]: on the host the block is updated in place, otherwise by
    the [bitSetKernel] whose text is in the header. *)
Definition set (d : device) (r : ValueReference_bool) (value : bool) (mem : Blocks)
    : Result Blocks :=
  match mem !! r.(m_value), shl1 r.(m_bit) with
  | Some block, Some mask =>
      match d with
      | CPU =>
          if value then Ok (<[r.(m_value) := Z.lor block mask]> mem)
          else Ok (<[r.(m_value) := Z.land block (not64 mask)]> mem)
      | GPU =>
          if value then Ok (<[r.(m_value) := Z.lor block mask]> mem)
          else Ok (<[r.(m_value) := Z.land block (not64 mask)]> mem)
      end
  | _, _ => Undefined
  end.
End memory.

(** ** Sample arrays and machines *)

Module Examples.
(** A 2x3 matrix of doubles on the host, in row-major layout. *)
Definition matrix23 : Array :=
  {| m_location := Accelerator.CPU; m_dtype := Datatype.FLOAT64;
     m_dataStart := 16; m_dataOrigin := 16; m_references := 17;
     m_extent := [2; 3]; m_stride := Stride_.fromExtent [2; 3];
     m_isScalar := false; m_isChild := false |}.

(** A 3x2 matrix of 64-bit integers on the host. *)
Definition matrix32 : Array :=
  {| m_location := Accelerator.CPU; m_dtype := Datatype.INT64;
     m_dataStart := 18; m_dataOrigin := 18; m_references := 19;
     m_extent := [3; 2]; m_stride := Stride_.fromExtent [3; 2];
     m_isScalar := false; m_isChild := false |}.

(** The scalar array [Array(5)]. *)
Definition scalar5 : Array :=
  {| m_location := Accelerator.CPU; m_dtype := Datatype.INT64;
     m_dataStart := 20; m_dataOrigin := 20; m_references := 21;
     m_extent := [1]; m_stride := Stride_.ofDims 1;
     m_isScalar := true; m_isChild := false |}.

(** A 2x3 view with the strides of a transposed 3x2 matrix. *)
Definition transposed23 : Array :=
  {| m_location := Accelerator.CPU; m_dtype := Datatype.FLOAT64;
     m_dataStart := 22; m_dataOrigin := 22; m_references := 23;
     m_extent := [2; 3]; m_stride := mkStride [1; 2] false true;
     m_isScalar := false; m_isChild := false |}.

(** A vector of length one, which is not a scalar. *)
Definition vector1 : Array :=
  {| m_location := Accelerator.CPU; m_dtype := Datatype.INT64;
     m_dataStart := 24; m_dataOrigin := 24; m_references := 25;
     m_extent := [1]; m_stride := Stride_.fromExtent [1];
     m_isScalar := false; m_isChild := false |}.

(** The second row of [matrix23], as its subscript [matrix23[1]]. *)
Definition row1 : Array :=
  {| m_location := Accelerator.CPU; m_dtype := Datatype.FLOAT64;
     m_dataStart := 19; m_dataOrigin := 16; m_references := 17;
     m_extent := [3]; m_stride := mkStride [1] false false;
     m_isScalar := false; m_isChild := true |}.

Definition some_counters : gmap Z Z :=
  list_to_map [(17, 1); (19, 1); (21, 1); (23, 1); (25, 1)].

Definition legacy0 : Machine Legacy.Event :=
  {| counters := some_counters; brk := 32; trace := [] |}.

Definition src0 : Machine Src.Event :=
  {| counters := some_counters; brk := 32; trace := [] |}.
End Examples.

(** The exception of the operand shape check. *)
Definition shape_mismatch (a b : Array) : exception :=
  invalid_argument [text "Cannot operate on two arrays with "; extent_str a.(m_extent);
                    text " and "; extent_str b.(m_extent)].

(** The promotion rules in the words of the specification: the element type
    with the larger ordinal; [GPU] if either device is [GPU], otherwise
    [CPU]. *)
Definition promoteDtype (x y : Datatype.t) : Datatype.t :=
  if Datatype.ordinal y <=? Datatype.ordinal x then x else y.

Definition promoteDevice (x y : Accelerator.t) : Accelerator.t :=
  if bool_decide (x = Accelerator.GPU) || bool_decide (y = Accelerator.GPU)
  then Accelerator.GPU else Accelerator.CPU.

(** The test of the legacy unary dispatchers. *)
Definition unaryTrivial (permitInvalid : bool) (dst src : Array) : bool :=
  negb permitInvalid && dst.(m_stride).(isTrivial) && dst.(m_stride).(isContiguous) &&
  src.(m_stride).(isTrivial) && src.(m_stride).(isContiguous).

Definition pathOf (trivial : bool) : Path :=
  if trivial then TrivialPath else StridedPath.

(** The extents of the array operands of a [CWiseMap], in order. *)
Definition arrayExtents (ops : list mapping.Operand) : list Extent :=
  omap (fun o => match o with
                 | mapping.arrayOperand _ e _ => Some e
                 | mapping.scalarOperand _ _ => None
                 end) ops.

(** All non-scalar operands share one extent. *)
Definition shareExtent (ops : list mapping.Operand) : Prop :=
  forall e e', e ∈ arrayExtents ops -> e' ∈ arrayExtents ops -> e = e'.

Definition extent_mismatch : exception :=
  assertion_failed [text "All arrays must have the same extent"].

(** The source operands of a legacy map kernel: every array of the pack but
    the last one, which is the destination. *)
Definition sources (first : Array) (arrayPack : list Array) : list Array :=
  removelast (first :: arrayPack).

Module MapExamples.
Definition ints23 : mapping.Operand :=
  mapping.arrayOperand internal.int32 [2; 3] (Stride_.fromExtent [2; 3]).

Definition floats23_transposed : mapping.Operand :=
  mapping.arrayOperand internal.float_t [2; 3] (mkStride [1; 2] false true).

Definition floats32 : mapping.Operand :=
  mapping.arrayOperand internal.float_t [3; 2] (Stride_.fromExtent [3; 2]).
End MapExamples.

(** ** Tactics *)

(** Unfold the plumbing of a computation. *)
Ltac run :=
  unfold bind, ret, throw, call, fresh, new_counter; cbn [counters brk trace fst snd].

(** Split on every test in the goal. *)
Ltac branches :=
  repeat match goal with
         | |- context [if ?c then _ else _] => destruct c eqn:?
         end.

(** Settle the traversal of one entry point. *)
Ltac dispatch :=
  intros ? ? H; unfold calls; revert H;
  unfold Src.applyUnaryOp, Src.applyBinaryOp_into, Src.applyBinaryOp,
    Legacy.applyUnaryOp_into, Legacy.applyUnaryOp, Legacy.applyUnaryOp_ref,
    Legacy.applyBinaryOp_into, Legacy.applyBinaryOp,
    Legacy.Array_, Legacy.constructNew, Src.Array_, Src.constructNew,
    pathOf, binaryTrivial, unaryTrivial, trivialContiguous, Stride_.trivialContiguous;
  run; cbn [m_stride Stride_.fromExtent isTrivial isContiguous];
  rewrite ?andb_true_r, ?andb_assoc;
  branches; run; intros H; try discriminate H;
  rewrite <- ?app_assoc, drop_app_length; reflexivity.

(** ** Outcomes of the free functions *)

(** The standard exceptions thrown outside of [class Array]. *)
Inductive std_exception :=
| overflow_error (what : string)
| length_error (what : string)
| std_invalid_argument (what : list fragment)
| string_out_of_range.
Arguments overflow_error what%_string.
Arguments length_error what%_string.

(** What a call of a free function comes to: a value, an exception, the end
    of the process through [std::exit] after some output, or undefined
    behaviour. *)
Inductive Outcome (A : Type) :=
| Returns (a : A)
| Throws (e : std_exception)
| Exits (status : Z) (printed : string)
| UndefinedBehaviour.
Arguments Returns {A} a.
Arguments Throws {A} e.
Arguments Exits {A} status printed%_string.
Arguments UndefinedBehaviour {A}.

(** ** [LEGACY/src/librapid/math/core_math.cpp] *)

Module core_math.
(** The values of [int64_t] and of [int]. *)
Definition in_int64 (z : Z) : bool := (- 2 ^ 63 <=? z) && (z <? 2 ^ 63).

Definition in_int (z : Z) : bool := (- 2 ^ 31 <=? z) && (z <? 2 ^ 31).

(** The loop of [product(const std::vector<int64_t> &)], from the value of
    [res] so far; a signed overflow of [res *= val] is undefined. *)
Fixpoint product_from (res : Z) (vals : list Z) : Outcome Z :=
  match vals with
  | [] => Returns res
  | val :: rest =>
      if in_int64 (res * val) then product_from (res * val) rest
      else UndefinedBehaviour
  end.

(** [product(const std::vector<int64_t> &vals)] *)
Definition product (vals : list Z) : Outcome Z := product_from 1 vals.

(** The loop of [product(const int64_t *vals, int64_t num)] from index [i],
    with [n] iterations left; [vals] is the array behind the pointer, and a
    read past its end is undefined. *)
Fixpoint product_ptr_from (res : Z) (vals : list Z) (i n : nat) : Outcome Z :=
  match n with
  | O => Returns res
  | S n' =>
      match vals !! i with
      | Some val =>
          if in_int64 (res * val) then product_ptr_from (res * val) vals (S i) n'
          else UndefinedBehaviour
      | None => UndefinedBehaviour
      end
  end.

(** [product(const int64_t *vals, int64_t num)] *)
Definition product_ptr (vals : list Z) (num : Z) : Outcome Z :=
  product_ptr_from 1 vals 0 (Z.to_nat num).

(** [anyBelow(const std::vector<int64_t> &vals, int64_t bound)] *)
Fixpoint anyBelow (vals : list Z) (bound : Z) : bool :=
  match vals with
  | [] => false
  | val :: rest => if val <? bound then true else anyBelow rest bound
  end.

(** The loop of [anyBelow(const int64_t *vals, int64_t dims, int64_t bound)]
    from index [i], with [n] iterations left. *)
Fixpoint anyBelow_ptr_from (vals : list Z) (bound : Z) (i n : nat) : Outcome bool :=
  match n with
  | O => Returns false
  | S n' =>
      match vals !! i with
      | Some val => if val <? bound then Returns true
                    else anyBelow_ptr_from vals bound (S i) n'
      | None => UndefinedBehaviour
      end
  end.

(** [anyBelow(const int64_t *vals, int64_t dims, int64_t bound)] *)
Definition anyBelow_ptr (vals : list Z) (dims bound : Z) : Outcome bool :=
  anyBelow_ptr_from vals bound 0 (Z.to_nat dims).

(** What [nthFibonacci] returns: up to 75 the value of a floating point
    expression, which is kept symbolic, above it the value of [b] after the
    integer loop. *)
Inductive Fibonacci :=
| closedForm (n : Z)
| iterated (b : Z).

(** The loop [for (i = 2; i <= n; i++) { c = a + b; a = b; b = c; }] on
    [int], with [steps] iterations left; an overflow of [a + b] is
    undefined. *)
Fixpoint fibonacci_loop (a b : Z) (steps : nat) : Outcome Z :=
  match steps with
  | O => Returns b
  | S k => let c := a + b in
           if in_int c then fibonacci_loop b c k else UndefinedBehaviour
  end.

(** [nthFibonacci(uint8_t n)] *)
Definition nthFibonacci (n : Z) : Outcome Fibonacci :=
  if 100 <=? n then
    Throws (overflow_error "Numbers above 100 are not allowed as argument.")
  else if n <=? 75 then Returns (closedForm n)
  else
    match fibonacci_loop 0 1 (Z.to_nat (n - 1)) with
    | Returns b => Returns (iterated (wrap_uint64 b))
    | Throws e => Throws e
    | Exits status printed => Exits status printed
    | UndefinedBehaviour => UndefinedBehaviour
    end.

(** [betterFcknBeEven(int64_t n)] *)
Definition betterFcknBeEven (n : Z) : Outcome unit :=
  if Z.land n 1 =? 0 then Returns tt
  else Exits 69 "[ ERROR ] Number was not even
".

Import PrimFloat.

(** The [double] 10. *)
Definition ten : float := 10%float.

(** [while (tmp > 10) { tmp /= 10; ++n; }] on a [double] and an [int64_t],
    with [fuel] tests of the condition left; [None] when they do not
    suffice.  An overflow of [++n] is undefined. *)
Fixpoint scaleDown (fuel : nat) (tmp : float) (n : Z) : option (Outcome (float * Z)) :=
  match fuel with
  | O => None
  | S fuel' =>
      if ltb ten tmp then
        if in_int64 (n + 1) then scaleDown fuel' (div tmp ten) (n + 1)
        else Some UndefinedBehaviour
      else Some (Returns (tmp, n))
  end.

(** [while (tmp < 1) { tmp *= 10; --n; }] *)
Fixpoint scaleUp (fuel : nat) (tmp : float) (n : Z) : option (Outcome (float * Z)) :=
  match fuel with
  | O => None
  | S fuel' =>
      if ltb tmp one then
        if in_int64 (n - 1) then scaleUp fuel' (mul tmp ten) (n - 1)
        else Some UndefinedBehaviour
      else Some (Returns (tmp, n))
  end.

(** [roundSigFig(num, figs)] up to its [return] statement: the values of
    [tmp] and [n] that the statement is reached with.  Each loop may test its
    condition [fuel] times. *)
Definition roundSigFig_scale (fuel : nat) (num : float) (figs : Z)
    : option (Outcome (float * Z)) :=
  if figs <=? 0 then
    Some (Throws (std_invalid_argument
                    [text "Cannot round to "; number figs;
                     text " significant figures. Must be greater than 0"]))
  else
    let tmp := if ltb zero num then num else opp num in
    match scaleDown fuel tmp 0 with
    | Some (Returns (tmp, n)) => scaleUp fuel tmp n
    | other => other
    end.
End core_math.

(** ** [librapid/src/multiprecToString.cpp] *)

Module multiprec.
Import Ascii.

(** The characters ['0'] and ['.']. *)
Definition zero : ascii := "0"%char.



(** The character ['-'] that [get_str] puts before the digits of a negative
    value. *)
Definition minus : ascii := "-"%char.


(** The value of a digit, for bases up to 36. *)
Definition digitValue (c : ascii) : option Z :=
  let n := Z.of_nat (nat_of_ascii c) in
  if (48 <=? n) && (n <=? 57) then Some (n - 48)
  else if (97 <=? n) && (n <=? 122) then Some (n - 87)
  else None.

(** The number a string of digits denotes in a base, read onto [acc]. *)
Fixpoint number_from (base acc : Z) (s : list ascii) : option Z :=
  match s with
  | [] => Some acc
  | c :: rest =>
      match digitValue c with
      | Some d => number_from base (acc * base + d) rest
      | None => None
      end
  end.

Definition number (base : Z) (s : list ascii) : option Z := number_from base 0 s.
End multiprec.

(** ** More of [LEGACY/src/librapid/array/multiarray.hpp] *)

Module utils.
(** A [std::vector] of scalars, or of vectors of one type. *)
#[warnings="-register-all"]
Inductive NestedVector :=
| scalars (elems : list Scalar)
| vectors (subs : list NestedVector).

(** [vec.size()] *)
Definition size (vec : NestedVector) : Z :=
  match vec with
  | scalars elems => Z.of_nat (length elems)
  | vectors subs => Z.of_nat (length subs)
  end.

Definition not_same_length : std_exception :=
  length_error "Not all vectors passed were the same length. Please ensure that all sub-vectors have the same length".

(** [extractSize(vec)], both overloads; [vec[0]] of an empty vector is
    undefined. *)
Fixpoint extractSize (vec : NestedVector) : Outcome (list Z) :=
  match vec with
  | scalars elems => Returns [Z.of_nat (length elems)]
  | vectors subs =>
      match subs with
      | [] => UndefinedBehaviour
      | first :: _ =>
          if forallb (fun subVec => size subVec =? size first) subs then
            match extractSize first with
            | Returns subSize => Returns (Z.of_nat (length subs) :: subSize)
            | Throws e => Throws e
            | Exits status printed => Exits status printed
            | UndefinedBehaviour => UndefinedBehaviour
            end
          else Throws not_same_length
      end
  end.

(** A nested vector is regular, of the given dimensions: at every level all
    the vectors have the length the dimension says, down to the scalars. *)
Fixpoint regular (dims : list Z) (vec : NestedVector) : Prop :=
  match dims with
  | [] => False
  | n :: rest =>
      match vec with
      | scalars elems => rest = [] /\ n = Z.of_nat (length elems)
      | vectors subs =>
          n = Z.of_nat (length subs) /\ subs <> [] /\ Forall (regular rest) subs
      end
  end.
End utils.

Module LegacyArray.
Import Legacy.

Definition scalar_to_array : exception :=
  invalid_argument [text "Cannot set an array with more than zero";
                    text " dimensions to a scalar value. Array must";
                    text " have zero dimensions (i.e. scalar)"].

(** [operator=(T val)] for an integral [T] *)
Definition assign_integral (self : Array) (val : Z) : M Array :=
  if self.(m_isChild) && negb self.(m_isScalar) then throw scalar_to_array
  else
    let* self :=
      if negb self.(m_isChild) then
        let* _ := if negb (self.(m_references) =? nullptr) then decrement self else ret tt in
        constructNew self (Extent_.ofDims 1) (Stride_.ofDims 1) Datatype.INT64 Accelerator.CPU
      else ret self in
    let raw := createRaw self in
    let* tmp := fresh in
    let tmpRaw := {| data := tmp; dtype := Datatype.INT64; location := Accelerator.CPU |} in
    let* _ := call (store tmpRaw (int64_t (wrap_int64 val))) in
    let* _ := call (rawArrayMemcpy raw tmpRaw 1) in
    ret (set_isScalar self true).

(** The array that [operator=(T)] leaves when it rebinds: a scalar of extent
    [1] on fresh [INT64] storage at [p] on the host, with its counter next
    to it. *)
Definition rebound (p : Z) : Array :=
  {| m_location := Accelerator.CPU; m_dtype := Datatype.INT64;
     m_dataStart := p; m_dataOrigin := p;
     m_references := p + 1; m_extent := Extent_.ofDims 1;
     m_stride := Stride_.ofDims 1; m_isScalar := true; m_isChild := false |}.

(** The calls of [operator=(T)] that allocate the storage at [p] and copy
    the value into it through the local [tmp]. *)
Definition copied (val p : Z) : list Event :=
  let raw := {| data := p; dtype := Datatype.INT64; location := Accelerator.CPU |} in
  let tmp := {| data := p + 1 + 1; dtype := Datatype.INT64; location := Accelerator.CPU |} in
  [rawArrayMalloc raw 1; store tmp (int64_t (wrap_int64 val)); rawArrayMemcpy raw tmp 1].

(** [m_stride.setTrivial(t); m_stride.setContiguity(c)] *)
Definition setFlags (s : Stride) (t c : bool) : Stride :=
  {| strides := strides s; isTrivial := t; isContiguous := c |}.

Definition set_start (a : Array) (p : Z) (s : Stride) : Array :=
  {| m_location := m_location a; m_dtype := m_dtype a;
     m_dataStart := p; m_dataOrigin := m_dataOrigin a;
     m_references := m_references a; m_extent := m_extent a;
     m_stride := s; m_isScalar := m_isScalar a; m_isChild := m_isChild a |}.

(** [_offsetData(elems)] *)
Definition _offsetData (self : Array) (elems : Z) : Array :=
  set_start self (self.(m_dataStart) + elems) (setFlags self.(m_stride) false false).

(** [_resetOffset(elems)] *)
Definition _resetOffset (self : Array) (elems : Z) : Array :=
  set_start self (self.(m_dataStart) - elems) (setFlags self.(m_stride) true true).

Definition not_a_scalar (self : Array) : exception :=
  invalid_argument [text "Cannot convert Array with "; extent_str self.(m_extent);
                    text " to scalar value"].

Definition uninitialized_scalar : exception :=
  invalid_argument [text "Cannot convert uninitialized array to scalar value"].

Definition invalid_accelerator : exception :=
  runtime_error [text "Invalid accelerator used in Array cast"].

(** [operator T()]: the conversion reads one element, and what is returned
    is the handle it is read through; [resType] is [typeToDatatype<T>()].
    The pointer variant [m_dataStart] is taken to hold the alternative of
    [m_dtype], so that [std::get] does not throw. *)
Definition cast_to (resType : Datatype.t) (self : Array) : M RawArray :=
  if negb self.(m_isScalar) then throw (not_a_scalar self)
  else if bool_decide (self.(m_location) = Accelerator.CPU) then
    match self.(m_dtype) with
    | Datatype.NONE | Datatype.VALIDNONE => throw uninitialized_scalar
    | _ => ret {| data := self.(m_dataStart); dtype := self.(m_dtype);
                  location := Accelerator.CPU |}
    end
  else if bool_decide (self.(m_location) = Accelerator.GPU) then
    let* raw := fresh in
    let tmp := {| data := raw; dtype := resType; location := Accelerator.CPU |} in
    let* _ := call (rawArrayMalloc tmp 1) in
    let* _ := call (rawArrayMemcpy tmp (createRaw self) 1) in
    match resType with
    | Datatype.NONE | Datatype.VALIDNONE =>
        let* _ := call (rawArrayFree tmp) in
        throw uninitialized_scalar
    | _ =>
        let* _ := call (rawArrayFree tmp) in
        ret tmp
    end
  else throw invalid_accelerator.

(** The temporary of [operator T()] on the device path, at the address [p]. *)
Definition temporary (resType : Datatype.t) (p : Z) : RawArray :=
  {| data := p; dtype := resType; location := Accelerator.CPU |}.

(** [filledRandom(min, max, seed)]; [seed] is an [int64_t], converted to the
    [uint64_t] parameter of [fillRandom]. *)
Definition filledRandom (self : Array) (min max : Scalar) (seed now : Z)
    (st : FillRandomStatics) : M (Array * FillRandomStatics) :=
  let* res := Array_ self.(m_extent) self.(m_dtype) self.(m_location) in
  fillRandom res min max (wrap_uint64 seed) now st.

(** [map(kernel)] *)
Definition map (self : Array) (kernel : FUNC) : M Array :=
  applyUnaryOp_into self self kernel false 0.

(** [mapped(kernel)] *)
Definition mapped (self : Array) (kernel : FUNC) : M Array :=
  let* res := Array_ self.(m_extent) self.(m_dtype) self.(m_location) in
  applyUnaryOp_into res self kernel false 0.

(** The array [Array(m_extent, m_dtype, m_location)] made for the result of
    [mapped] and [filledRandom], with its storage at [p] and its counter
    next to it, and the scalar flag [sc]. *)
Definition like (self : Array) (p : Z) (sc : bool) : Array :=
  {| m_location := self.(m_location); m_dtype := self.(m_dtype);
     m_dataStart := p; m_dataOrigin := p; m_references := p + 1;
     m_extent := self.(m_extent); m_stride := Stride_.fromExtent self.(m_extent);
     m_isScalar := sc; m_isChild := false |}.

(** The kernel call of a unary operation from [src] into [dst]. *)
Definition unaryKernel (dst src : Array) (operation : FUNC) : Event :=
  if trivialContiguous dst && trivialContiguous src then
    multiarrayUnaryOpTrivial (createRaw dst) (createRaw src)
      (Extent_.size src.(m_extent)) operation
  else
    multiarrayUnaryOpComplex (createRaw dst) (createRaw src)
      (Extent_.size src.(m_extent)) src.(m_extent) dst.(m_stride) src.(m_stride)
      operation (trivialContiguous dst).

(** The launch configuration of [mapKernel] on the device, threads per block
    and blocks per grid, for [end] elements.  [ceil(double(end) /
    double(threadsPerBlock))] is exact while [end] is below [2^53]; beyond
    that the conversion to [double] rounds, which is not modelled. *)
Definition launchConfiguration (end_ : Z) : option (Z * Z) :=
  (* Use 1 to 512 threads per block *)
  if end_ <? 512 then Some (end_, 1)
  else if end_ <? 2 ^ 53 then Some (512, - ((- end_) / 512))
  else None.
End LegacyArray.

(** ** [traits<CWiseMap<Map, DerivedTypes...>>] of [src/librapid/array/cwisemap.hpp] *)

Module CWiseMapTraits.
Import internal.

(** A type of the pack [DerivedTypes...], by what its [traits] give: the
    scalar type and the device. *)
Definition DerivedType : Type := CType * memory.device.

(** [std::is_same_v] of two devices *)
Definition is_same_v (l r : memory.device) : bool :=
  match l, r with
  | memory.CPU, memory.CPU | memory.GPU, memory.GPU => true
  | _, _ => false
  end.

(** [mapping::allSameDevice<DerivedTypes...>()], [None] where it is
    ill-formed: with fewer than two types the answer is [true]; otherwise
    the whole pack of devices is handed to [std::is_same_v], which takes
    exactly two arguments. *)
Definition allSameDevice (types : list DerivedType) : option bool :=
  match types with
  | [] | [_] => Some true
  | [l; r] => Some (is_same_v (snd l) (snd r))
  | _ => None
  end.

(** [std::common_type_t<T, Ts...>], folded from the left. *)
Definition common_type_t (first : CType) (rest : list CType) : CType :=
  fold_left common_type rest first.

(** [traits<CWiseMap<Map, DerivedTypes...>>::Scalar], [None] where the
    specialisation does not compile: where [allSameDevice] is ill-formed,
    where its [static_assert] fails, and for an empty pack, of which there
    is no common type. *)
Definition Scalar (types : list DerivedType) : option CType :=
  match allSameDevice types, types with
  | Some true, first :: rest => Some (common_type_t (fst first) (map fst rest))
  | _, _ => None
  end.
End CWiseMapTraits.

(** ** More of [src/librapid/array/valueReference.hpp] *)

Module ValueReferenceOps.
Import memory.

(** The operators that [IMPL_BINOP] is instantiated with in
    [ValueReference<bool, d>]. *)
Inductive OP := op_eq | op_add | op_sub | op_mul | op_div | op_or | op_and | op_xor.

(** [lhs OP rhs] on two [bool], both promoted to [int]; a division by zero
    is undefined. *)
Definition apply (op : OP) (lhs rhs : bool) : option Z :=
  let l := Z.b2z lhs in
  let r := Z.b2z rhs in
  match op with
  | op_eq => Some (Z.b2z (l =? r))
  | op_add => Some (l + r)
  | op_sub => Some (l - r)
  | op_mul => Some (l * r)
  | op_div => if r =? 0 then None else Some (Z.quot l r)
  | op_or => Some (Z.lor l r)
  | op_and => Some (Z.land l r)
  | op_xor => Some (Z.lxor l r)
  end.

(** [(bool) z] *)
Definition to_bool (z : Z) : bool := negb (z =? 0).

(** The [ASSIGN] member of [IMPL_BINOP]: [set(get() OP (T) other)], with
    [T = bool] and [other] an integral value. *)
Definition assign (op : OP) (d : device) (r : ValueReference_bool) (other : Z)
    (mem : Blocks) : Result Blocks :=
  match get d r mem with
  | Ok current =>
      match apply op current (to_bool other) with
      | Some z => set d r (to_bool z) mem
      | None => Undefined
      end
  | Throw ex => Throw ex
  | Undefined => Undefined
  end.
End ValueReferenceOps.

(** ** Basic facts *)

Lemma neqb_true (a b : Extent) : Extent_.neqb a b = true <-> a <> b.
Proof.
  unfold Extent_.neqb. rewrite negb_true_iff, bool_decide_eq_false. reflexivity.
Qed.

Lemma neqb_false (a b : Extent) : Extent_.neqb a b = false <-> a = b.
Proof.
  unfold Extent_.neqb. rewrite negb_false_iff, bool_decide_eq_true. reflexivity.
Qed.

Lemma wrap_int64_id z : - 2 ^ 63 <= z < 2 ^ 63 -> wrap_int64 z = z.
Proof. intros H. unfold wrap_int64. rewrite Z.mod_small; lia. Qed.

Lemma wrap_uint64_id z : 0 <= z < 2 ^ 64 -> wrap_uint64 z = z.
Proof. intros H. unfold wrap_uint64. rewrite Z.mod_small; lia. Qed.

Lemma sequence_app {E : Type} (xs ys : list (M E unit)) (m : Machine E) :
  sequence_ (xs ++ ys) m = bind (sequence_ xs) (fun _ => sequence_ ys) m.
Proof.
  revert m. induction xs as [|x xs IH]; intros m.
  - reflexivity.
  - cbn [app sequence_]. unfold bind.
    destruct (x m) as [[[] | e |] m']; try reflexivity.
    rewrite IH. reflexivity.
Qed.

(** ** The operand shape check of the binary entry points *)

(** C1, as amended.  When neither operand is a scalar and the extents differ,
    each [applyBinaryOp] entry point (the legacy ones called without
    [permitInvalid]) throws [std::invalid_argument] and leaves the machine as
    it was: nothing is allocated and no kernel runs.  When the extents are
    equal or an operand is a scalar, the operand check of the entry points
    that return a fresh array and of the legacy in-place entry point passes;
    the in-place entry point of [src/] passes it when the extents are equal. *)
Theorem applyBinaryOp_shape_check (a b dst : Array) (op : FUNC) (pI pV : bool)
    (mS : Machine Src.Event) (mL : Machine Legacy.Event) :
  (m_isScalar a = false -> m_isScalar b = false -> m_extent a <> m_extent b ->
     Src.applyBinaryOp_into a b dst op mS = (Throw (shape_mismatch a b), mS) /\
     Src.applyBinaryOp a b op mS = (Throw (shape_mismatch a b), mS) /\
     Legacy.applyBinaryOp_into dst a b op false pV mL = (Throw (shape_mismatch a a), mL) /\
     Legacy.applyBinaryOp a b op false pV mL = (Throw (shape_mismatch a b), mL))
  /\
  (m_extent a = m_extent b \/ m_isScalar a = true \/ m_isScalar b = true ->
     (exists res m', Src.applyBinaryOp a b op mS = (Ok res, m')) /\
     (exists res m', Legacy.applyBinaryOp a b op pI pV mL = (Ok res, m')) /\
     (m_references dst <> nullptr -> m_extent dst = m_extent a ->
        exists res m', Legacy.applyBinaryOp_into dst a b op pI pV mL = (Ok res, m')) /\
     (m_references dst <> nullptr -> m_extent dst = m_extent a -> m_extent a = m_extent b ->
        exists res m', Src.applyBinaryOp_into a b dst op mS = (Ok res, m'))).
Proof.
  split.
  - intros Ha Hb Hne. apply neqb_true in Hne.
    unfold Src.applyBinaryOp_into, Src.applyBinaryOp, Legacy.applyBinaryOp_into,
      Legacy.applyBinaryOp, shape_mismatch.
    rewrite Ha, Hb, Hne. cbn [negb orb andb]. repeat split; reflexivity.
  - intros Hok.
    assert (Hguard : negb (m_isScalar a || m_isScalar b) &&
                     Extent_.neqb (m_extent a) (m_extent b) = false).
    { destruct Hok as [He | [Hs | Hs]].
      - apply neqb_false in He. rewrite He. apply andb_false_r.
      - rewrite Hs. reflexivity.
      - rewrite Hs, orb_true_r. reflexivity. }
    split; [|split; [|split]].
    + unfold Src.applyBinaryOp. rewrite Hguard.
      unfold Src.Array_, Src.constructNew. run. branches; run; eauto.
    + unfold Legacy.applyBinaryOp. rewrite <- andb_assoc, Hguard, andb_false_r.
      unfold Legacy.Array_, Legacy.constructNew. run. branches; run; eauto.
    + intros Hr He. unfold Legacy.applyBinaryOp_into.
      rewrite negb_orb in Hguard. rewrite Hguard, andb_false_r.
      apply Z.eqb_neq in Hr. apply neqb_false in He. rewrite Hr, He.
      cbn [orb]. rewrite andb_false_r.
      run. branches; run; eauto.
    + intros Hr He Hab. unfold Src.applyBinaryOp_into.
      apply Z.eqb_neq in Hr. apply neqb_false in He, Hab. rewrite Hr, He, Hab.
      cbn [orb]. run. branches; run; eauto.
Qed.

Lemma applyBinaryOp_shape_check_witness :
  (Src.applyBinaryOp_into Examples.matrix23 Examples.matrix32 Examples.transposed23 ops_Add
     Examples.src0
   = (Throw (shape_mismatch Examples.matrix23 Examples.matrix32), Examples.src0) /\
   Src.applyBinaryOp Examples.matrix23 Examples.matrix32 ops_Add Examples.src0
   = (Throw (shape_mismatch Examples.matrix23 Examples.matrix32), Examples.src0) /\
   Legacy.applyBinaryOp_into Examples.transposed23 Examples.matrix23 Examples.matrix32 ops_Add
     false true Examples.legacy0
   = (Throw (shape_mismatch Examples.matrix23 Examples.matrix23), Examples.legacy0) /\
   Legacy.applyBinaryOp Examples.matrix23 Examples.matrix32 ops_Add false true Examples.legacy0
   = (Throw (shape_mismatch Examples.matrix23 Examples.matrix32), Examples.legacy0))
  /\
  (exists res m',
     Legacy.applyBinaryOp_into Examples.transposed23 Examples.matrix23 Examples.scalar5 ops_Add
       false true Examples.legacy0 = (Ok res, m')).
Proof.
  split.
  - apply (applyBinaryOp_shape_check Examples.matrix23 Examples.matrix32 Examples.transposed23
             ops_Add false true Examples.src0 Examples.legacy0);
      [reflexivity | reflexivity | discriminate].
  - apply (applyBinaryOp_shape_check Examples.matrix23 Examples.scalar5 Examples.transposed23
             ops_Add false true Examples.src0 Examples.legacy0);
      [right; right; reflexivity | discriminate | reflexivity].
Defined.

(** C1, as stated, fails on the legacy entry point called with
    [permitInvalid]: two matrices of extents [2, 3] and [3, 2], neither a
    scalar, are operated on; storage is allocated and the kernel runs. *)
Lemma applyBinaryOp_permitInvalid_no_shape_check :
  m_isScalar Examples.matrix23 = false /\
  m_isScalar Examples.matrix32 = false /\
  m_extent Examples.matrix23 <> m_extent Examples.matrix32 /\
  outcome (Legacy.applyBinaryOp Examples.matrix23 Examples.matrix32 ops_Add true true)
    Examples.legacy0
  = Ok {| m_location := Accelerator.CPU; m_dtype := Datatype.FLOAT64;
          m_dataStart := 32; m_dataOrigin := 32; m_references := 33;
          m_extent := [2; 3]; m_stride := Stride_.fromExtent [2; 3];
          m_isScalar := false; m_isChild := false |} /\
  calls (Legacy.applyBinaryOp Examples.matrix23 Examples.matrix32 ops_Add true true)
    Examples.legacy0
  = [Legacy.rawArrayMalloc (mkRaw 32 Datatype.FLOAT64 Accelerator.CPU) 6;
     Legacy.multiarrayBinaryOpTrivial
       (mkRaw 32 Datatype.FLOAT64 Accelerator.CPU)
       (mkRaw 16 Datatype.FLOAT64 Accelerator.CPU)
       (mkRaw 18 Datatype.INT64 Accelerator.CPU)
       false false 6 ops_Add true].
Proof.
  repeat split; [discriminate | vm_compute; reflexivity ..].
Qed.

(** ** Reference counting *)

Lemma Legacy_increment_live (a : Array) (m : Machine Legacy.Event) (c : Z) :
  m_references a <> nullptr ->
  counters m !! m_references a = Some c ->
  0 <= c < 2 ^ 63 - 1 ->
  Legacy.increment a m =
    (Ok tt, {| counters := <[m_references a := c + 1]> (counters m);
               brk := brk m; trace := trace m |}).
Proof.
  intros Hr Hc Hb. unfold Legacy.increment.
  apply Z.eqb_neq in Hr. rewrite Hr.
  unfold bind, load_counter, store_counter. rewrite Hc.
  cbn [counters brk trace]. rewrite Hc.
  rewrite wrap_int64_id by lia. reflexivity.
Qed.

Lemma Legacy_decrement_live (a : Array) (m : Machine Legacy.Event) (c : Z) :
  m_references a <> nullptr ->
  counters m !! m_references a = Some c ->
  1 < c < 2 ^ 63 ->
  Legacy.decrement a m =
    (Ok tt, {| counters := <[m_references a := c - 1]> (counters m);
               brk := brk m; trace := trace m |}).
Proof.
  intros Hr Hc Hb. unfold Legacy.decrement.
  apply Z.eqb_neq in Hr. rewrite Hr.
  unfold bind, load_counter, store_counter. rewrite Hc.
  cbn [counters brk trace]. rewrite Hc. cbn [counters brk trace].
  rewrite lookup_insert_eq. rewrite wrap_int64_id by lia.
  destruct (Z.eqb_spec (c - 1) 0); [lia | reflexivity].
Qed.

Lemma Legacy_decrement_last (a : Array) (m : Machine Legacy.Event) :
  m_references a <> nullptr ->
  counters m !! m_references a = Some 1 ->
  Legacy.decrement a m =
    (Ok tt, {| counters := delete (m_references a) (counters m);
               brk := brk m;
               trace := trace m ++ [Legacy.rawArrayFree (Legacy.createRaw a)] |}).
Proof.
  intros Hr Hc. unfold Legacy.decrement.
  apply Z.eqb_neq in Hr. rewrite Hr.
  unfold bind, load_counter, store_counter, call, delete_counter. rewrite Hc.
  cbn [counters brk trace]. rewrite Hc. cbn [counters brk trace].
  rewrite lookup_insert_eq. change (wrap_int64 (1 - 1) =? 0) with true.
  cbn [counters brk trace]. rewrite lookup_insert_eq, delete_insert_eq. reflexivity.
Qed.

Lemma Legacy_increment_all (l : list Array) (r : Z) :
  forall (m : Machine Legacy.Event) (c : Z),
  r <> nullptr ->
  Forall (fun x => m_references x = r) l ->
  counters m !! r = Some c ->
  0 <= c -> c + Z.of_nat (length l) < 2 ^ 63 ->
  sequence_ (map Legacy.increment l) m =
    (Ok tt, {| counters := <[r := c + Z.of_nat (length l)]> (counters m);
               brk := brk m; trace := trace m |}).
Proof.
  induction l as [|a l IH]; intros m c Hr Hall Hc H0 Hb.
  - cbn [map sequence_ length]. unfold ret. rewrite Z.add_0_r.
    rewrite insert_id by exact Hc. destruct m; reflexivity.
  - inversion Hall as [|? ? Ha Hl]; subst. rewrite length_cons in Hb.
    cbn [map sequence_]. unfold bind.
    rewrite (Legacy_increment_live a m c) by (try assumption; lia).
    rewrite (IH _ (c + 1)); cbn [counters brk trace]; try assumption; try lia.
    + rewrite insert_insert_eq, length_cons.
      replace (c + 1 + Z.of_nat (length l)) with (c + Z.of_nat (S (length l))) by lia.
      reflexivity.
    + apply lookup_insert_eq.
Qed.

Lemma Legacy_decrement_some (l : list Array) (r : Z) :
  forall (m : Machine Legacy.Event) (c : Z),
  r <> nullptr ->
  Forall (fun x => m_references x = r) l ->
  counters m !! r = Some c ->
  Z.of_nat (length l) < c -> c < 2 ^ 63 ->
  sequence_ (map Legacy.decrement l) m =
    (Ok tt, {| counters := <[r := c - Z.of_nat (length l)]> (counters m);
               brk := brk m; trace := trace m |}).
Proof.
  induction l as [|a l IH]; intros m c Hr Hall Hc H0 Hb.
  - cbn [map sequence_ length]. unfold ret. rewrite Z.sub_0_r.
    rewrite insert_id by exact Hc. destruct m; reflexivity.
  - inversion Hall as [|? ? Ha Hl]; subst. rewrite length_cons in H0.
    cbn [map sequence_]. unfold bind.
    rewrite (Legacy_decrement_live a m c) by (try assumption; lia).
    rewrite (IH _ (c - 1)); cbn [counters brk trace]; try assumption; try lia.
    + rewrite insert_insert_eq, length_cons.
      replace (c - 1 - Z.of_nat (length l)) with (c - Z.of_nat (S (length l))) by lia.
      reflexivity.
    + apply lookup_insert_eq.
Qed.

Lemma Src_increment_live (a : Array) (m : Machine Src.Event) (c : Z) :
  m_references a <> nullptr ->
  counters m !! m_references a = Some c ->
  0 <= c < 2 ^ 64 - 1 ->
  Src.increment a m =
    (Ok tt, {| counters := <[m_references a := c + 1]> (counters m);
               brk := brk m; trace := trace m |}).
Proof.
  intros Hr Hc Hb. unfold Src.increment.
  apply Z.eqb_neq in Hr. rewrite Hr.
  unfold bind, load_counter, store_counter. rewrite Hc.
  cbn [counters brk trace]. rewrite Hc.
  rewrite wrap_uint64_id by lia. reflexivity.
Qed.

Lemma Src_decrement_live (a : Array) (m : Machine Src.Event) (c : Z) :
  m_references a <> nullptr ->
  counters m !! m_references a = Some c ->
  1 < c < 2 ^ 64 ->
  Src.decrement a m =
    (Ok tt, {| counters := <[m_references a := c - 1]> (counters m);
               brk := brk m; trace := trace m |}).
Proof.
  intros Hr Hc Hb. unfold Src.decrement.
  apply Z.eqb_neq in Hr. rewrite Hr.
  unfold bind, load_counter, store_counter. rewrite Hc.
  cbn [counters brk trace]. rewrite Hc. cbn [counters brk trace].
  rewrite lookup_insert_eq. rewrite wrap_uint64_id by lia.
  destruct (Z.eqb_spec (c - 1) 0); [lia | reflexivity].
Qed.

Lemma Src_decrement_last (a : Array) (m : Machine Src.Event) :
  m_references a <> nullptr ->
  counters m !! m_references a = Some 1 ->
  Src.decrement a m =
    (Ok tt, {| counters := delete (m_references a) (counters m);
               brk := brk m;
               trace := trace m ++ [Src.AUTOCAST_FREE {| data := m_dataOrigin a; dtype := m_dtype a;
                                      location := m_location a |}] |}).
Proof.
  intros Hr Hc. unfold Src.decrement.
  apply Z.eqb_neq in Hr. rewrite Hr.
  unfold bind, load_counter, store_counter, call, delete_counter. rewrite Hc.
  cbn [counters brk trace]. rewrite Hc. cbn [counters brk trace].
  rewrite lookup_insert_eq. change (wrap_uint64 (1 - 1) =? 0) with true.
  cbn [counters brk trace]. rewrite lookup_insert_eq, delete_insert_eq. reflexivity.
Qed.

Lemma Src_increment_all (l : list Array) (r : Z) :
  forall (m : Machine Src.Event) (c : Z),
  r <> nullptr ->
  Forall (fun x => m_references x = r) l ->
  counters m !! r = Some c ->
  0 <= c -> c + Z.of_nat (length l) < 2 ^ 64 ->
  sequence_ (map Src.increment l) m =
    (Ok tt, {| counters := <[r := c + Z.of_nat (length l)]> (counters m);
               brk := brk m; trace := trace m |}).
Proof.
  induction l as [|a l IH]; intros m c Hr Hall Hc H0 Hb.
  - cbn [map sequence_ length]. unfold ret. rewrite Z.add_0_r.
    rewrite insert_id by exact Hc. destruct m; reflexivity.
  - inversion Hall as [|? ? Ha Hl]; subst. rewrite length_cons in Hb.
    cbn [map sequence_]. unfold bind.
    rewrite (Src_increment_live a m c) by (try assumption; lia).
    rewrite (IH _ (c + 1)); cbn [counters brk trace]; try assumption; try lia.
    + rewrite insert_insert_eq, length_cons.
      replace (c + 1 + Z.of_nat (length l)) with (c + Z.of_nat (S (length l))) by lia.
      reflexivity.
    + apply lookup_insert_eq.
Qed.

Lemma Src_decrement_some (l : list Array) (r : Z) :
  forall (m : Machine Src.Event) (c : Z),
  r <> nullptr ->
  Forall (fun x => m_references x = r) l ->
  counters m !! r = Some c ->
  Z.of_nat (length l) < c -> c < 2 ^ 64 ->
  sequence_ (map Src.decrement l) m =
    (Ok tt, {| counters := <[r := c - Z.of_nat (length l)]> (counters m);
               brk := brk m; trace := trace m |}).
Proof.
  induction l as [|a l IH]; intros m c Hr Hall Hc H0 Hb.
  - cbn [map sequence_ length]. unfold ret. rewrite Z.sub_0_r.
    rewrite insert_id by exact Hc. destruct m; reflexivity.
  - inversion Hall as [|? ? Ha Hl]; subst. rewrite length_cons in H0.
    cbn [map sequence_]. unfold bind.
    rewrite (Src_decrement_live a m c) by (try assumption; lia).
    rewrite (IH _ (c - 1)); cbn [counters brk trace]; try assumption; try lia.
    + rewrite insert_insert_eq, length_cons.
      replace (c - 1 - Z.of_nat (length l)) with (c - Z.of_nat (S (length l))) by lia.
      reflexivity.
    + apply lookup_insert_eq.
Qed.

Lemma shares_references (owner : Array) (l : list Array) :
  Forall (sharesStorage owner) l ->
  Forall (fun x => m_references x = m_references owner) l.
Proof.
  intros H. eapply Forall_impl; [exact H|]. intros x (Hx & _). exact Hx.
Qed.

(** The counting.  An owner and its aliases (reference copies, assignments,
    subscripts: each took one [increment]) are dropped in any order: no drop
    before the last one makes any call to free, the counter then equals the
    number of arrays still alive, and the last drop makes exactly one call to
    free and deletes the counter.  The header of [src/] frees the storage
    base [m_dataOrigin]; the legacy header frees [createRaw()] of the array
    that is dropped last. *)
Lemma refcount_last_drop (owner : Array) (aliases order : list Array)
    (mL : Machine Legacy.Event) (mS : Machine Src.Event) :
  m_references owner <> nullptr ->
  Forall (sharesStorage owner) aliases ->
  Z.of_nat (length aliases) < 2 ^ 63 - 1 ->
  Permutation order (owner :: aliases) ->
  (counters mL !! m_references owner = Some 1 ->
   exists m1,
     sequence_ (map Legacy.increment aliases) mL = (Ok tt, m1) /\
     counters m1 !! m_references owner = Some (Z.of_nat (length order)) /\
     (forall dropped live, order = dropped ++ live -> live <> [] ->
        exists m2,
          sequence_ (map Legacy.decrement dropped) m1 = (Ok tt, m2) /\
          trace m2 = trace mL /\
          counters m2 !! m_references owner = Some (Z.of_nat (length live))) /\
     (forall dropped final, order = dropped ++ [final] ->
        exists m3,
          sequence_ (map Legacy.decrement order) m1 = (Ok tt, m3) /\
          trace m3 = trace mL ++ [Legacy.rawArrayFree (Legacy.createRaw final)] /\
          counters m3 !! m_references owner = None))
  /\
  (counters mS !! m_references owner = Some 1 ->
   exists m1,
     sequence_ (map Src.increment aliases) mS = (Ok tt, m1) /\
     counters m1 !! m_references owner = Some (Z.of_nat (length order)) /\
     (forall dropped live, order = dropped ++ live -> live <> [] ->
        exists m2,
          sequence_ (map Src.decrement dropped) m1 = (Ok tt, m2) /\
          trace m2 = trace mS /\
          counters m2 !! m_references owner = Some (Z.of_nat (length live))) /\
     (forall dropped final, order = dropped ++ [final] ->
        exists m3,
          sequence_ (map Src.decrement order) m1 = (Ok tt, m3) /\
          trace m3 = trace mS ++
            [Src.AUTOCAST_FREE {| data := m_dataOrigin owner; dtype := m_dtype owner;
                                  location := m_location owner |}] /\
          counters m3 !! m_references owner = None)).
Proof.
  intros Hr Hshare Hlen Hperm.
  assert (Hall : Forall (sharesStorage owner) order).
  { rewrite Hperm. constructor; [repeat split | exact Hshare]. }
  assert (Hlo : length order = S (length aliases)).
  { rewrite Hperm. reflexivity. }
  pose proof (shares_references _ _ Hshare) as Hrefs.
  split; intros Hc.
  - eexists. split; [apply (Legacy_increment_all aliases (m_references owner) mL 1); try assumption; lia|].
    cbn [counters brk trace]. split; [|split].
    + rewrite lookup_insert_eq. f_equal. lia.
    + intros dropped live Ho Hlive.
      rewrite Ho in Hall. apply Forall_app in Hall as [Hd _].
      apply shares_references in Hd.
      assert (Hll : (length dropped + length live = S (length aliases))%nat).
      { rewrite <- Hlo, Ho, length_app. reflexivity. }
      assert (0 < length live)%nat by (destruct live; [congruence | cbn; lia]).
      eexists. split.
      * apply (Legacy_decrement_some dropped (m_references owner) _ (1 + Z.of_nat (length aliases)));
          cbn [counters]; try assumption; try lia.
        apply lookup_insert_eq.
      * cbn [counters brk trace]. split; [reflexivity|].
        rewrite lookup_insert_eq. f_equal. lia.
    + intros dropped final Ho.
      rewrite Ho in Hall. apply Forall_app in Hall as [Hd Hf].
      apply shares_references in Hd.
      inversion Hf as [|? ? (Hfr & _) _]; subst.
      assert (Hll : length dropped = length aliases).
      { rewrite length_app in Hlo. cbn in Hlo. lia. }
      rewrite map_app. cbn [map].
      eexists. split.
      * rewrite sequence_app. unfold bind.
        rewrite (Legacy_decrement_some dropped (m_references owner) _ (1 + Z.of_nat (length aliases)));
          cbn [counters]; try assumption; try lia; [|apply lookup_insert_eq].
        cbn [sequence_]. unfold bind.
        rewrite Legacy_decrement_last; cbn [counters brk trace]; rewrite ?Hfr; try assumption.
        -- reflexivity.
        -- rewrite lookup_insert_eq. f_equal. lia.
      * cbn [counters brk trace]. split; [reflexivity|]. apply lookup_delete_eq.
  - eexists. split; [apply (Src_increment_all aliases (m_references owner) mS 1); try assumption; lia|].
    cbn [counters brk trace]. split; [|split].
    + rewrite lookup_insert_eq. f_equal. lia.
    + intros dropped live Ho Hlive.
      rewrite Ho in Hall. apply Forall_app in Hall as [Hd _].
      apply shares_references in Hd.
      assert (Hll : (length dropped + length live = S (length aliases))%nat).
      { rewrite <- Hlo, Ho, length_app. reflexivity. }
      assert (0 < length live)%nat by (destruct live; [congruence | cbn; lia]).
      eexists. split.
      * apply (Src_decrement_some dropped (m_references owner) _ (1 + Z.of_nat (length aliases)));
          cbn [counters]; try assumption; try lia.
        apply lookup_insert_eq.
      * cbn [counters brk trace]. split; [reflexivity|].
        rewrite lookup_insert_eq. f_equal. lia.
    + intros dropped final Ho.
      rewrite Ho in Hall. apply Forall_app in Hall as [Hd Hf].
      apply shares_references in Hd.
      inversion Hf as [|? ? (Hfr & Hfo & Hfd & Hfl) _]; subst.
      assert (Hll : length dropped = length aliases).
      { rewrite length_app in Hlo. cbn in Hlo. lia. }
      rewrite map_app. cbn [map].
      eexists. split.
      * rewrite sequence_app. unfold bind.
        rewrite (Src_decrement_some dropped (m_references owner) _ (1 + Z.of_nat (length aliases)));
          cbn [counters]; try assumption; try lia; [|apply lookup_insert_eq].
        cbn [sequence_]. unfold bind.
        rewrite Src_decrement_last; cbn [counters brk trace]; rewrite ?Hfr; try assumption.
        -- reflexivity.
        -- rewrite lookup_insert_eq. f_equal. lia.
      * cbn [counters brk trace]. rewrite Hfo, Hfd, Hfl.
        split; [reflexivity|]. apply lookup_delete_eq.
Qed.

Lemma refcount_last_drop_example :
  (exists m1 m3,
     sequence_ (map Legacy.increment [Examples.row1; Examples.matrix23]) Examples.legacy0
       = (Ok tt, m1) /\
     sequence_ (map Legacy.decrement [Examples.row1; Examples.matrix23; Examples.matrix23]) m1
       = (Ok tt, m3) /\
     trace m3 = trace Examples.legacy0
                ++ [Legacy.rawArrayFree (Legacy.createRaw Examples.matrix23)] /\
     counters m3 !! 17 = None)
  /\
  (exists m1 m2,
     sequence_ (map Src.increment [Examples.row1; Examples.matrix23]) Examples.src0
       = (Ok tt, m1) /\
     sequence_ (map Src.decrement [Examples.matrix23; Examples.matrix23]) m1 = (Ok tt, m2) /\
     trace m2 = trace Examples.src0 /\
     counters m2 !! 17 = Some 1).
Proof.
  destruct (refcount_last_drop Examples.matrix23 [Examples.row1; Examples.matrix23]
              [Examples.row1; Examples.matrix23; Examples.matrix23]
              Examples.legacy0 Examples.src0) as [HL _];
    [discriminate | repeat constructor | cbn; lia | apply perm_swap |].
  destruct (refcount_last_drop Examples.matrix23 [Examples.row1; Examples.matrix23]
              [Examples.matrix23; Examples.matrix23; Examples.row1]
              Examples.legacy0 Examples.src0) as [_ HS];
    [discriminate | repeat constructor | cbn; lia | |].
  { apply perm_skip. apply perm_swap. }
  split.
  - destruct HL as (m1 & Hinc & _ & _ & Hlast); [vm_compute; reflexivity|].
    destruct (Hlast [Examples.row1; Examples.matrix23] Examples.matrix23 eq_refl)
      as (m3 & Hdrop & Htrace & Hgone).
    exists m1, m3. repeat split; assumption.
  - destruct HS as (m1 & Hinc & _ & Hsome & _); [vm_compute; reflexivity|].
    destruct (Hsome [Examples.matrix23; Examples.matrix23] [Examples.row1] eq_refl)
      as (m2 & Hdrop & Htrace & Hlive); [discriminate|].
    exists m1, m2. repeat split; assumption.
Defined.

(** C2, at the input where [LEGACY/] departs from it.  The 2x3 matrix and its
    second row, a subscript that shares its storage and its counter: the
    storage base is 16 and the row starts at 19.  The row takes its
    reference, the matrix is dropped first and the row last.  The one call
    to free of the legacy header is then for the row's start, 19, and the
    storage at 16 is never freed; the header of [src/] frees the storage at
    16. *)
Theorem Legacy_last_subscript_frees_view_start :
  sharesStorage Examples.matrix23 Examples.row1 /\
  m_isChild Examples.row1 = true /\
  m_dataOrigin Examples.row1 = 16 /\
  m_dataStart Examples.row1 = 19 /\
  outcome (sequence_ [Legacy.increment Examples.row1;
                      Legacy.decrement Examples.matrix23;
                      Legacy.decrement Examples.row1]) Examples.legacy0 = Ok tt /\
  calls (sequence_ [Legacy.increment Examples.row1;
                    Legacy.decrement Examples.matrix23]) Examples.legacy0 = [] /\
  calls (sequence_ [Legacy.increment Examples.row1;
                    Legacy.decrement Examples.matrix23;
                    Legacy.decrement Examples.row1]) Examples.legacy0
    = [Legacy.rawArrayFree (mkRaw 19 Datatype.FLOAT64 Accelerator.CPU)] /\
  calls (sequence_ [Src.increment Examples.row1;
                    Src.decrement Examples.matrix23;
                    Src.decrement Examples.row1]) Examples.src0
    = [Src.AUTOCAST_FREE (mkRaw 16 Datatype.FLOAT64 Accelerator.CPU)].
Proof. repeat split; vm_compute; reflexivity. Qed.

(** ** Results of the binary entry points *)

Lemma Datatype_max_promote (x y : Datatype.t) :
  Datatype.max x y = promoteDtype x y /\
  Datatype.ordinal (Datatype.max x y) = Z.max (Datatype.ordinal x) (Datatype.ordinal y).
Proof. destruct x, y; split; reflexivity. Qed.

Lemma Accelerator_max_promote (x y : Accelerator.t) :
  x <> Accelerator.NONE -> y <> Accelerator.NONE ->
  Accelerator.max x y = promoteDevice x y.
Proof. destruct x, y; intros Hx Hy; try reflexivity; congruence. Qed.

Lemma shape_guard (a b : Array) :
  m_extent a = m_extent b \/ m_isScalar a = true \/ m_isScalar b = true ->
  negb (m_isScalar a || m_isScalar b) && Extent_.neqb (m_extent a) (m_extent b) = false.
Proof.
  intros [He | [Hs | Hs]].
  - apply neqb_false in He. rewrite He. apply andb_false_r.
  - rewrite Hs. reflexivity.
  - rewrite Hs, orb_true_r. reflexivity.
Qed.

(** C3.  A binary operation that returns a fresh array gives it the element
    type with the larger ordinal of the two operands', and the device [GPU]
    if either operand is on the [GPU], otherwise [CPU]. *)
Theorem applyBinaryOp_promotes (a b : Array) (op : FUNC) (pI pV : bool)
    (mS : Machine Src.Event) (mL : Machine Legacy.Event) :
  m_extent a = m_extent b \/ m_isScalar a = true \/ m_isScalar b = true ->
  m_location a <> Accelerator.NONE ->
  m_location b <> Accelerator.NONE ->
  (exists res m',
     Src.applyBinaryOp a b op mS = (Ok res, m') /\
     m_dtype res = promoteDtype (m_dtype a) (m_dtype b) /\
     Datatype.ordinal (m_dtype res)
       = Z.max (Datatype.ordinal (m_dtype a)) (Datatype.ordinal (m_dtype b)) /\
     m_location res = promoteDevice (m_location a) (m_location b))
  /\
  (exists res m',
     Legacy.applyBinaryOp a b op pI pV mL = (Ok res, m') /\
     m_dtype res = promoteDtype (m_dtype a) (m_dtype b) /\
     Datatype.ordinal (m_dtype res)
       = Z.max (Datatype.ordinal (m_dtype a)) (Datatype.ordinal (m_dtype b)) /\
     m_location res = promoteDevice (m_location a) (m_location b)).
Proof.
  intros Hok Hla Hlb. apply shape_guard in Hok.
  destruct (Datatype_max_promote (m_dtype a) (m_dtype b)) as [Hd Ho].
  pose proof (Accelerator_max_promote _ _ Hla Hlb) as Hl.
  split.
  - unfold Src.applyBinaryOp. rewrite Hok.
    unfold Src.Array_, Src.constructNew. run.
    branches; run; do 2 eexists; (split; [reflexivity|]); cbn; auto.
  - unfold Legacy.applyBinaryOp. rewrite <- andb_assoc, Hok, andb_false_r.
    unfold Legacy.Array_, Legacy.constructNew. run.
    branches; run; do 2 eexists; (split; [reflexivity|]); cbn; auto.
Qed.

Lemma applyBinaryOp_promotes_witness :
  exists res m',
    Legacy.applyBinaryOp Examples.matrix23 Examples.scalar5 ops_Mul false true Examples.legacy0
      = (Ok res, m') /\
    m_dtype res = Datatype.FLOAT64 /\
    Datatype.ordinal (m_dtype res) = 5 /\
    m_location res = Accelerator.CPU.
Proof.
  apply (applyBinaryOp_promotes Examples.matrix23 Examples.scalar5 ops_Mul false true
           Examples.src0 Examples.legacy0);
    [right; right; reflexivity | discriminate | discriminate].
Defined.

(** The static counterpart in [traits.hpp]: on the scalar types that stand
    for an element type, [ReturnType] is the type of the larger ordinal. *)
Lemma ReturnType_promotes (l r : internal.CType) (dl dr : Datatype.t) :
  internal.typeToDatatype l = Some dl ->
  internal.typeToDatatype r = Some dr ->
  internal.typeToDatatype (internal.ReturnType l r) = Some (promoteDtype dl dr).
Proof.
  destruct l, r; cbn; intros Hl Hr; try discriminate;
    inversion Hl; inversion Hr; reflexivity.
Qed.

(** What the binary entry points leave in the stride and the scalar flag of
    their result, whenever they return one. *)
Lemma binary_result (a b dst : Array) (op : FUNC) (pI pV : bool)
    (mS : Machine Src.Event) (mL : Machine Legacy.Event) :
  (forall res m', Legacy.applyBinaryOp a b op pI pV mL = (Ok res, m') ->
     m_stride res = (if binaryTrivial a b
                     then (if m_isScalar a then m_stride b else m_stride a)
                     else Stride_.fromExtent (m_extent res)) /\
     m_isScalar res = m_isScalar a && m_isScalar b)
  /\
  (forall res m', Legacy.applyBinaryOp_into dst a b op pI pV mL = (Ok res, m') ->
     m_stride res = (if binaryTrivial a b
                     then (if m_isScalar a then m_stride b else m_stride a)
                     else m_stride dst) /\
     m_isScalar res = (m_isScalar a && m_isScalar b) || m_isScalar dst)
  /\
  (forall res m', Src.applyBinaryOp a b op mS = (Ok res, m') ->
     m_stride res = (if binaryTrivial a b then m_stride a
                     else Stride_.fromExtent (m_extent res)) /\
     m_isScalar res = m_isScalar a && m_isScalar b)
  /\
  (forall res m', Src.applyBinaryOp_into a b dst op mS = (Ok res, m') ->
     m_stride res = (if binaryTrivial a b then m_stride a else m_stride dst) /\
     m_isScalar res = (m_isScalar a && m_isScalar b) || m_isScalar dst).
Proof.
  unfold binaryTrivial. repeat split; revert H;
    unfold Legacy.applyBinaryOp, Legacy.applyBinaryOp_into, Src.applyBinaryOp,
      Src.applyBinaryOp_into, Legacy.Array_, Legacy.constructNew, Src.Array_,
      Src.constructNew;
    run; branches; run; intros H; inversion H; subst; cbn;
    rewrite ?orb_false_r; try reflexivity; try congruence;
    destruct (m_isScalar a), (m_isScalar b), (m_isScalar dst); cbn in *; congruence.
Qed.

(** C4, at the input where [src/] departs from it.  With the scalar [Array(5)]
    on the left of a 2x3 matrix, the fresh-result entry point of [src/] takes
    the trivial path and leaves the scalar's stride (and extent) in the
    result, not the stride of the matrix; the legacy entry point leaves the
    stride of the matrix. *)
Theorem Src_applyBinaryOp_scalar_lhs_stride :
  m_isScalar Examples.scalar5 = true /\
  m_isScalar Examples.matrix23 = false /\
  omap Src.path (calls (Src.applyBinaryOp Examples.scalar5 Examples.matrix23 ops_Add)
                   Examples.src0) = [TrivialPath] /\
  (exists res,
     outcome (Src.applyBinaryOp Examples.scalar5 Examples.matrix23 ops_Add) Examples.src0
       = Ok res /\
     m_stride res = m_stride Examples.scalar5 /\
     strides (m_stride res) = [1] /\
     strides (m_stride Examples.matrix23) = [3; 1] /\
     m_extent res = [1]) /\
  (exists res,
     outcome (Legacy.applyBinaryOp Examples.scalar5 Examples.matrix23 ops_Add false true)
       Examples.legacy0 = Ok res /\
     m_stride res = m_stride Examples.matrix23).
Proof.
  repeat split; try (vm_compute; reflexivity);
    eexists; repeat split; vm_compute; reflexivity.
Qed.

(** C6, at the input where the in-place entry points depart from it.  The
    destination is the scalar [Array(5)] and both operands are vectors of
    length one, not scalars: after the operation the destination is still
    flagged scalar.  The unary in-place entry point, on the same destination,
    copies the flag of its operand. *)
Theorem applyBinaryOp_into_keeps_scalar_flag :
  m_isScalar Examples.vector1 = false /\
  m_isScalar Examples.scalar5 = true /\
  (exists res,
     outcome (Src.applyBinaryOp_into Examples.vector1 Examples.vector1 Examples.scalar5 ops_Add)
       Examples.src0 = Ok res /\
     m_isScalar res = true) /\
  (exists res,
     outcome (Legacy.applyBinaryOp_into Examples.scalar5 Examples.vector1 Examples.vector1
                ops_Add false true) Examples.legacy0 = Ok res /\
     m_isScalar res = true) /\
  (exists res,
     outcome (Legacy.applyUnaryOp_into Examples.scalar5 Examples.vector1
                (user_kernel "negate") false 0) Examples.legacy0 = Ok res /\
     m_isScalar res = false).
Proof.
  repeat split; try (vm_compute; reflexivity);
    eexists; repeat split; vm_compute; reflexivity.
Qed.

(** ** The choice of traversal *)

(** C5, as amended.  Whenever an entry point runs a kernel: a unary entry
    point takes the trivial path exactly when the destination and the
    operand are both trivial and contiguous (the legacy ones only with
    [permitInvalid] off; the one of [src/] is covered for a destination that
    is trivial and contiguous); a binary entry point whose destination is not
    a subscript of another array takes the trivial path exactly when both
    operands are trivial and contiguous or have equal strides, also when the
    destination itself is not trivial and contiguous.  In every other case
    the strided path is taken. *)
Theorem dispatcher_path (a b dst : Array) (op : FUNC) (pI pV : bool) (off : Z)
    (mS : Machine Src.Event) (mL : Machine Legacy.Event) :
  (trivialContiguous dst = true ->
   forall res m', Src.applyUnaryOp a dst op mS = (Ok res, m') ->
     omap Src.path (calls (Src.applyUnaryOp a dst op) mS)
       = [pathOf (trivialContiguous dst && trivialContiguous a)])
  /\
  (forall res m', Legacy.applyUnaryOp_into dst a op pI off mL = (Ok res, m') ->
     omap Legacy.path (calls (Legacy.applyUnaryOp_into dst a op pI off) mL)
       = [pathOf (negb pI && (trivialContiguous dst && trivialContiguous a))])
  /\
  (forall res m', Legacy.applyUnaryOp a op pI off mL = (Ok res, m') ->
     trivialContiguous res = true /\
     omap Legacy.path (calls (Legacy.applyUnaryOp a op pI off) mL)
       = [pathOf (negb pI && trivialContiguous a)])
  /\
  (forall res m', Legacy.applyUnaryOp_ref a op mL = (Ok res, m') ->
     trivialContiguous res = true /\
     omap Legacy.path (calls (Legacy.applyUnaryOp_ref a op) mL)
       = [pathOf (trivialContiguous a)])
  /\
  (m_isChild dst = false ->
   forall res m', Src.applyBinaryOp_into a b dst op mS = (Ok res, m') ->
     omap Src.path (calls (Src.applyBinaryOp_into a b dst op) mS)
       = [pathOf (binaryTrivial a b)])
  /\
  (forall res m', Src.applyBinaryOp a b op mS = (Ok res, m') ->
     m_isChild res = false /\
     omap Src.path (calls (Src.applyBinaryOp a b op) mS)
       = [pathOf (binaryTrivial a b)])
  /\
  (m_isChild dst = false ->
   forall res m', Legacy.applyBinaryOp_into dst a b op pI pV mL = (Ok res, m') ->
     omap Legacy.path (calls (Legacy.applyBinaryOp_into dst a b op pI pV) mL)
       = [pathOf (binaryTrivial a b)])
  /\
  (forall res m', Legacy.applyBinaryOp a b op pI pV mL = (Ok res, m') ->
     m_isChild res = false /\
     omap Legacy.path (calls (Legacy.applyBinaryOp a b op pI pV) mL)
       = [pathOf (binaryTrivial a b)]).
Proof.
  repeat apply conj.
  - intros Hd. rewrite Hd. cbn [andb]. dispatch.
  - dispatch.
  - intros res m' H. split; [|revert res m' H; dispatch].
    revert H. unfold Legacy.applyUnaryOp, Legacy.Array_, Legacy.constructNew.
    run. branches; run; intros H; inversion H; reflexivity.
  - intros res m' H. split; [|revert res m' H; dispatch].
    revert H. unfold Legacy.applyUnaryOp_ref, Legacy.Array_, Legacy.constructNew.
    run. branches; run; intros H; inversion H; reflexivity.
  - intros _. dispatch.
  - intros res m' H. split; [|revert res m' H; dispatch].
    revert H. unfold Src.applyBinaryOp, Src.Array_, Src.constructNew.
    run. branches; run; intros H; inversion H; reflexivity.
  - intros _. dispatch.
  - intros res m' H. split; [|revert res m' H; dispatch].
    revert H. unfold Legacy.applyBinaryOp, Legacy.Array_, Legacy.constructNew.
    run. branches; run; intros H; inversion H; reflexivity.
Qed.

Lemma dispatcher_path_witness :
  omap Legacy.path
    (calls (Legacy.applyBinaryOp_into Examples.transposed23 Examples.matrix23 Examples.scalar5
              ops_Add false true) Examples.legacy0)
    = [pathOf (binaryTrivial Examples.matrix23 Examples.scalar5)]
  /\
  omap Src.path
    (calls (Src.applyUnaryOp Examples.transposed23 Examples.matrix23 (user_kernel "sqrt"))
       Examples.src0)
    = [pathOf (trivialContiguous Examples.matrix23 && trivialContiguous Examples.transposed23)].
Proof.
  destruct (dispatcher_path Examples.transposed23 Examples.transposed23 Examples.matrix23
              (user_kernel "sqrt") false true 0 Examples.src0 Examples.legacy0)
    as (Hunary & _).
  destruct (dispatcher_path Examples.matrix23 Examples.scalar5 Examples.transposed23
              ops_Add false true 0 Examples.src0 Examples.legacy0)
    as (_ & _ & _ & _ & _ & _ & Hbinary & _).
  split.
  - eapply Hbinary; [reflexivity|]. vm_compute. reflexivity.
  - eapply Hunary; [reflexivity|]. vm_compute. reflexivity.
Defined.

(** C5, as stated, fails on the legacy in-place entry point: the destination
    is a transposed array that owns its storage, neither trivial nor of the
    stride of an operand, the operands (a row-major matrix and a scalar) are
    trivial and contiguous with different strides, and the trivial path is
    taken; the destination is then given the stride of the matrix. *)
Lemma trivial_path_into_strided_destination :
  trivialContiguous Examples.transposed23 = false /\
  m_isChild Examples.transposed23 = false /\
  trivialContiguous Examples.matrix23 = true /\
  trivialContiguous Examples.scalar5 = true /\
  Stride_.eqb (m_stride Examples.matrix23) (m_stride Examples.scalar5) = false /\
  outcome (Legacy.applyBinaryOp_into Examples.transposed23 Examples.matrix23 Examples.scalar5
             ops_Add false true) Examples.legacy0
    = Ok (set_stride Examples.transposed23 (m_stride Examples.matrix23)) /\
  omap Legacy.path
    (calls (Legacy.applyBinaryOp_into Examples.transposed23 Examples.matrix23 Examples.scalar5
              ops_Add false true) Examples.legacy0)
    = [TrivialPath].
Proof. repeat split; vm_compute; reflexivity. Qed.

(** ** The operand checks of the map kernels *)

Lemma arrayExtents_scalars (ops : list mapping.Operand) :
  forallb mapping.IsScalar ops = true <-> arrayExtents ops = [].
Proof.
  induction ops as [|o ops IH]; [easy|].
  destruct o; cbn.
  - exact IH.
  - split; discriminate.
Qed.

(** The result of [extractAndCheckExtent], from the extents of the arrays
    among the operands. *)
Lemma extractAndCheckExtent_spec (rest : list mapping.Operand) :
  forall first : mapping.Operand,
  match arrayExtents (first :: rest) with
  | [] => exists ty v, mapping.extractAndCheckExtent first rest = Ok (mapping.aScalar ty v)
  | e :: es =>
      mapping.extractAndCheckExtent first rest
        = if forallb (fun e' => bool_decide (e = e')) es
          then Ok (mapping.anExtent e) else Throw extent_mismatch
  end.
Proof.
  induction rest as [|next rest IH]; intros first.
  - destruct first; cbn; eauto.
  - specialize (IH next).
    destruct first as [ty v | ty e s].
    + exact IH.
    + change (arrayExtents (mapping.arrayOperand ty e s :: next :: rest))
        with (e :: arrayExtents (next :: rest)).
      cbn [mapping.extractAndCheckExtent].
      destruct (forallb mapping.IsScalar (next :: rest)) eqn:Hsc.
      * apply arrayExtents_scalars in Hsc. rewrite Hsc. reflexivity.
      * destruct (arrayExtents (next :: rest)) as [|e' es] eqn:Hexts.
        { apply arrayExtents_scalars in Hexts. congruence. }
        rewrite IH. cbn [forallb]. unfold LR_ASSERT.
        destruct (decide (e = e')) as [-> | Hne].
        -- rewrite bool_decide_eq_true_2 by reflexivity. cbn [andb].
           destruct (forallb _ es); [|reflexivity].
           rewrite bool_decide_eq_true_2 by reflexivity. reflexivity.
        -- rewrite bool_decide_eq_false_2 by exact Hne. cbn [andb].
           destruct (forallb _ es); [|reflexivity].
           rewrite bool_decide_eq_false_2 by exact Hne. reflexivity.
Qed.

Lemma shareExtent_forallb (e : Extent) (es : list Extent) :
  forallb (fun e' => bool_decide (e = e')) es = true <->
  (forall x y, x ∈ e :: es -> y ∈ e :: es -> x = y).
Proof.
  rewrite forallb_forall. split.
  - intros H x y Hx Hy.
    assert (Hall : forall z, z ∈ e :: es -> z = e).
    { intros z Hz. apply elem_of_cons in Hz as [-> | Hz]; [reflexivity|].
      apply list_elem_of_In in Hz. apply H in Hz.
      apply bool_decide_eq_true in Hz. congruence. }
    rewrite (Hall x Hx), (Hall y Hy). reflexivity.
  - intros H x Hx. apply bool_decide_eq_true. apply H.
    + left.
    + right. apply list_elem_of_In. exact Hx.
Qed.

Lemma mapKernelGetPointers_reject (PTR d : Datatype.t) (e : Extent) (pack : list Array) :
  forall first : Array,
  Exists (fun x => m_dtype x <> d \/ m_dtype x <> PTR \/ m_extent x <> e \/
                   isContiguous (m_stride x) = false) (sources first pack) ->
  Legacy.mapKernelGetPointers PTR e d first pack = Throw Legacy.runtime_error_mapKernel.
Proof.
  induction pack as [|next rest IH]; intros first Hex.
  - inversion Hex.
  - unfold sources in Hex.
    change (removelast (first :: next :: rest))
      with (first :: removelast (next :: rest)) in Hex.
    cbn [Legacy.mapKernelGetPointers].
    destruct (negb (bool_decide (PTR = m_dtype first)) || _ || _ || _) eqn:Hbad;
      [reflexivity|].
    apply orb_false_elim in Hbad as [Hbad H4]. apply orb_false_elim in Hbad as [Hbad H3].
    apply orb_false_elim in Hbad as [H1 H2].
    apply negb_false_iff, bool_decide_eq_true in H1, H4. apply negb_false_iff in H2.
    apply neqb_false in H3.
    inversion Hex as [? ? Hfirst | ? ? Hrest]; subst.
    + destruct Hfirst as [H | [H | [H | H]]]; congruence.
    + rewrite (IH next Hrest). reflexivity.
Qed.

Lemma mapKernelGetPointers_accept (PTR d : Datatype.t) (e : Extent) (pack : list Array) :
  forall first : Array,
  Forall (fun x => m_dtype x = d /\ m_dtype x = PTR /\ m_extent x = e /\
                   isContiguous (m_stride x) = true) (sources first pack) ->
  Legacy.mapKernelGetPointers PTR e d first pack = Ok (map m_dataStart (first :: pack)).
Proof.
  induction pack as [|next rest IH]; intros first Hall.
  - reflexivity.
  - unfold sources in Hall.
    change (removelast (first :: next :: rest))
      with (first :: removelast (next :: rest)) in Hall.
    inversion Hall as [|x xs (H1 & H2 & H3 & H4) Hrest Hx]; clear Hall.
    cbn [Legacy.mapKernelGetPointers].
    rewrite H4. rewrite !bool_decide_eq_true_2 by congruence.
    apply neqb_false in H3. rewrite H3.
    cbn [negb orb]. rewrite (IH next Hrest). reflexivity.
Qed.

(** C7, as amended.  The operand check of a [CWiseMap] fails exactly when two
    non-scalar operands differ in extent, and passes otherwise; it consults
    neither the element types nor the layout of the operands.  The legacy
    check of [mapKernel] fails when a source operand differs from the
    destination in extent or element type, or is not contiguous; it passes
    when every source operand has the extent and element type of the
    destination and is trivial and contiguous. *)
Theorem map_operand_check (first : mapping.Operand) (rest : list mapping.Operand)
    (PTR d : Datatype.t) (e : Extent) (firstArray : Array) (arrayPack : list Array) :
  (shareExtent (first :: rest) ->
     exists x, mapping.extractAndCheckExtent first rest = Ok x)
  /\
  (~ shareExtent (first :: rest) ->
     mapping.extractAndCheckExtent first rest = Throw extent_mismatch)
  /\
  (Exists (fun x => m_dtype x <> d \/ m_dtype x <> PTR \/ m_extent x <> e \/
                    isContiguous (m_stride x) = false) (sources firstArray arrayPack) ->
     Legacy.mapKernelGetPointers PTR e d firstArray arrayPack
       = Throw Legacy.runtime_error_mapKernel)
  /\
  (Forall (fun x => m_dtype x = d /\ m_dtype x = PTR /\ m_extent x = e /\
                    trivialContiguous x = true) (sources firstArray arrayPack) ->
     Legacy.mapKernelGetPointers PTR e d firstArray arrayPack
       = Ok (map m_dataStart (firstArray :: arrayPack))).
Proof.
  pose proof (extractAndCheckExtent_spec rest first) as Hspec.
  unfold shareExtent.
  repeat apply conj.
  - intros Hshare. destruct (arrayExtents (first :: rest)) as [|x xs].
    + destruct Hspec as (ty & v & ->). eauto.
    + apply shareExtent_forallb in Hshare. rewrite Hshare in Hspec. eauto.
  - intros Hshare. destruct (arrayExtents (first :: rest)) as [|x xs].
    + exfalso. apply Hshare. intros ? ? Hin. inversion Hin.
    + destruct (forallb _ xs) eqn:Hall; [|exact Hspec].
      exfalso. apply Hshare. apply shareExtent_forallb. exact Hall.
  - apply mapKernelGetPointers_reject.
  - intros Hall. apply mapKernelGetPointers_accept.
    eapply Forall_impl; [exact Hall|].
    intros x (H1 & H2 & H3 & H4). repeat split; try assumption.
    unfold trivialContiguous, Stride_.trivialContiguous in H4.
    apply andb_true_iff in H4 as [_ H4]. exact H4.
Qed.

Lemma map_operand_check_witness :
  (exists x, mapping.extractAndCheckExtent MapExamples.ints23
               [mapping.scalarOperand internal.double_t (floating 1 (-1));
                MapExamples.floats23_transposed] = Ok x)
  /\
  mapping.extractAndCheckExtent MapExamples.ints23 [MapExamples.floats32]
    = Throw extent_mismatch
  /\
  Legacy.mapKernelGetPointers Datatype.FLOAT64 [2; 3] Datatype.FLOAT64
    Examples.matrix32 [Examples.matrix23] = Throw Legacy.runtime_error_mapKernel
  /\
  Legacy.mapKernelGetPointers Datatype.FLOAT64 [2; 3] Datatype.FLOAT64
    Examples.matrix23 [Examples.matrix23; Examples.matrix23] = Ok [16; 16; 16].
Proof.
  repeat apply conj.
  - apply (map_operand_check MapExamples.ints23 _ Datatype.FLOAT64 Datatype.FLOAT64 [2; 3]
             Examples.matrix23 []).
    intros e e' He He'. vm_compute in He, He'.
    repeat (apply elem_of_cons in He as [-> | He]); try (inversion He; fail);
    repeat (apply elem_of_cons in He' as [-> | He']); try (inversion He'; fail);
    reflexivity.
  - apply (map_operand_check MapExamples.ints23 [MapExamples.floats32]
             Datatype.FLOAT64 Datatype.FLOAT64 [2; 3] Examples.matrix23 []).
    intros Hshare. specialize (Hshare [2; 3] [3; 2]).
    assert (Hne : [2; 3] = [3; 2] :> Extent) by (apply Hshare; vm_compute; repeat constructor).
    discriminate Hne.
  - apply (map_operand_check MapExamples.ints23 [] Datatype.FLOAT64 Datatype.FLOAT64 [2; 3]
             Examples.matrix32 [Examples.matrix23]).
    left. left. discriminate.
  - apply (map_operand_check MapExamples.ints23 [] Datatype.FLOAT64 Datatype.FLOAT64 [2; 3]
             Examples.matrix23 [Examples.matrix23; Examples.matrix23]).
    repeat constructor.
Defined.

(** C7, as stated, fails on [CWiseMap]: an array of [int32_t] and a transposed
    array of [float], of equal extents, pass the operand check although they
    differ in element type and the second one is not trivial. *)
Lemma map_accepts_mixed_operands :
  mapping.extractAndCheckExtent MapExamples.ints23 [MapExamples.floats23_transposed]
    = Ok (mapping.anExtent [2; 3]) /\
  MapExamples.ints23 = mapping.arrayOperand internal.int32 [2; 3] (Stride_.fromExtent [2; 3]) /\
  MapExamples.floats23_transposed
    = mapping.arrayOperand internal.float_t [2; 3] (mkStride [1; 2] false true).
Proof. repeat split. Qed.

(** ** The scalar constructor *)



(** ** The seed of [fillRandom] *)

Lemma fillRandom_seed_remembers (seed now : Z) (st : Legacy.FillRandomStatics) :
  Legacy.statSeedSet (Legacy.fillRandom_seed seed now st) = true /\
  Legacy.prevSeed (Legacy.fillRandom_seed seed now st) = seed.
Proof.
  unfold Legacy.fillRandom_seed.
  destruct (Z.eqb_spec (Legacy.prevSeed st) seed) as [Hp | Hp];
    destruct (Legacy.statSeedSet st) eqn:Hs;
    destruct (Z.eqb_spec seed UINT64_MAX); cbn; auto.
Qed.

Lemma fillRandom_seed_of_same {T : Type} `{EqDecision T} (t : T) (seed now : Z)
    (sts : Legacy.Instantiations T) :
  Legacy.fillRandom_seed_of t seed now sts t = Legacy.fillRandom_seed seed now (sts t).
Proof.
  unfold Legacy.fillRandom_seed_of. destruct (decide (t = t)); [reflexivity | contradiction].
Qed.

Lemma fillRandom_seed_of_other {T : Type} `{EqDecision T} (t t' : T) (seed now : Z)
    (sts : Legacy.Instantiations T) :
  t' <> t -> Legacy.fillRandom_seed_of t' seed now sts t = sts t.
Proof.
  intros Hne. unfold Legacy.fillRandom_seed_of.
  destruct (decide (t = t')); [congruence | reflexivity].
Qed.

Lemma afterCalls_app {T : Type} `{EqDecision T} (h1 h2 : list (T * Z * Z))
    (sts : Legacy.Instantiations T) :
  Legacy.afterCalls (h1 ++ h2) sts = Legacy.afterCalls h2 (Legacy.afterCalls h1 sts).
Proof. unfold Legacy.afterCalls. apply fold_left_app. Qed.

Lemma afterCalls_snoc {T : Type} `{EqDecision T} (history : list (T * Z * Z)) (t : T)
    (seed now : Z) (sts : Legacy.Instantiations T) :
  Legacy.afterCalls (history ++ [(t, seed, now)]) sts t
    = Legacy.fillRandom_seed seed now (Legacy.afterCalls history sts t).
Proof. rewrite afterCalls_app. cbn. apply fillRandom_seed_of_same. Qed.

(** The calls of the other instantiations do not touch the statics of [t]. *)
Lemma afterCalls_others {T : Type} `{EqDecision T} (t : T) (later : list (T * Z * Z)) :
  Forall (fun c => fst (fst c) <> t) later ->
  forall sts : Legacy.Instantiations T, Legacy.afterCalls later sts t = sts t.
Proof.
  induction 1 as [|[[t' s] n] later Hne _ IH]; intros sts; [reflexivity|].
  change (Legacy.afterCalls ((t', s, n) :: later) sts)
    with (Legacy.afterCalls later (Legacy.fillRandom_seed_of t' s n sts)).
  rewrite IH. apply fillRandom_seed_of_other. exact Hne.
Qed.

(** C9, as amended.  [fillRandom] is a template, and every instantiation
    [fillRandom<T>] keeps a seed state of its own.  After any history of
    calls, a call of [fillRandom<t>] with an explicit seed uses that seed.
    A call with the default seed derives its seed from the clock when it is
    the first call of [fillRandom<t>] or when the preceding call of
    [fillRandom<t>] carried an explicit seed; it reuses the seed of the
    preceding call of [fillRandom<t>] when that call was made with the
    default seed too.  Calls of other instantiations in between change
    nothing of this.  The seed so chosen is the one handed to the kernel. *)
Theorem fillRandom_seed_sticky {T : Type} `{EqDecision T} (history : list (T * Z * Z))
    (t : T) (seed now : Z) (self : Array) (min max : Scalar) (m : Machine Legacy.Event) :
  (seed <> UINT64_MAX ->
     Legacy.statSeed
       (Legacy.afterCalls (history ++ [(t, seed, now)]) Legacy.programStart t) = seed)
  /\
  (seed = UINT64_MAX -> Forall (fun c => fst (fst c) <> t) history ->
     Legacy.statSeed
       (Legacy.afterCalls (history ++ [(t, seed, now)]) Legacy.programStart t) = now)
  /\
  (seed = UINT64_MAX ->
     forall earlier s n later,
     history = earlier ++ (t, s, n) :: later ->
     Forall (fun c => fst (fst c) <> t) later -> s <> UINT64_MAX ->
     Legacy.statSeed
       (Legacy.afterCalls (history ++ [(t, seed, now)]) Legacy.programStart t) = now)
  /\
  (seed = UINT64_MAX ->
     forall earlier n later,
     history = earlier ++ (t, UINT64_MAX, n) :: later ->
     Forall (fun c => fst (fst c) <> t) later ->
     Legacy.statSeed
       (Legacy.afterCalls (history ++ [(t, seed, now)]) Legacy.programStart t)
     = Legacy.statSeed
         (Legacy.afterCalls (earlier ++ [(t, UINT64_MAX, n)]) Legacy.programStart t))
  /\
  (forall t' s n, t' <> t ->
     Legacy.afterCalls (history ++ [(t', s, n)]) Legacy.programStart t
     = Legacy.afterCalls history Legacy.programStart t)
  /\
  (m_references self <> nullptr ->
     exists self' m',
       Legacy.fillRandom self min max seed now
         (Legacy.afterCalls history Legacy.programStart t) m
       = (Ok (self',
              Legacy.afterCalls (history ++ [(t, seed, now)]) Legacy.programStart t), m') /\
       omap Legacy.operationOf
         (calls (Legacy.fillRandom self min max seed now
                   (Legacy.afterCalls history Legacy.programStart t)) m)
       = [ops_FillRandom min max
            (Legacy.statSeed
               (Legacy.afterCalls (history ++ [(t, seed, now)]) Legacy.programStart t))]).
Proof.
  rewrite afterCalls_snoc.
  repeat apply conj.
  - intros Hseed. unfold Legacy.fillRandom_seed.
    apply Z.eqb_neq in Hseed. rewrite Hseed. cbn [negb].
    rewrite !orb_true_r. reflexivity.
  - intros -> Hfirst. rewrite (afterCalls_others t history Hfirst). reflexivity.
  - intros -> earlier s n later -> Hlater Hs.
    change (earlier ++ (t, s, n) :: later) with (earlier ++ [(t, s, n)] ++ later).
    rewrite app_assoc, afterCalls_app, (afterCalls_others t later Hlater), afterCalls_snoc.
    destruct (fillRandom_seed_remembers s n
                (Legacy.afterCalls earlier Legacy.programStart t)) as [_ Hprev].
    unfold Legacy.fillRandom_seed at 1. rewrite Hprev.
    apply Z.eqb_neq in Hs. rewrite Hs. reflexivity.
  - intros -> earlier n later -> Hlater.
    change (earlier ++ (t, UINT64_MAX, n) :: later)
      with (earlier ++ [(t, UINT64_MAX, n)] ++ later).
    rewrite app_assoc, afterCalls_app, (afterCalls_others t later Hlater), afterCalls_snoc.
    destruct (fillRandom_seed_remembers UINT64_MAX n
                (Legacy.afterCalls earlier Legacy.programStart t)) as [Hset Hprev].
    unfold Legacy.fillRandom_seed at 1. rewrite Hprev, Hset. reflexivity.
  - intros t' s n Hne. rewrite afterCalls_app. cbn.
    apply fillRandom_seed_of_other. exact Hne.
  - intros Hr. apply Z.eqb_neq in Hr.
    unfold calls, Legacy.fillRandom, Legacy.applyUnaryOp_into.
    replace (Extent_.neqb (m_extent self) (m_extent self)) with false
      by (symmetry; apply neqb_false; reflexivity).
    rewrite Hr. cbn [negb orb andb]. run.
    branches; run; do 2 eexists; (split; [reflexivity|]);
      rewrite drop_app_length; reflexivity.
Qed.

Lemma fillRandom_seed_sticky_witness :
  Legacy.statSeed
    (Legacy.afterCalls ([(internal.double_t, UINT64_MAX, 100);
                         (internal.double_t, UINT64_MAX, 200)]
                          ++ [(internal.double_t, 42, 300)]) Legacy.programStart
       internal.double_t)
    = 42
  /\
  Legacy.statSeed
    (Legacy.afterCalls ([(internal.double_t, UINT64_MAX, 100);
                         (internal.float_t, 42, 200)]
                          ++ [(internal.double_t, UINT64_MAX, 300)]) Legacy.programStart
       internal.double_t)
    = Legacy.statSeed
        (Legacy.afterCalls ([] ++ [(internal.double_t, UINT64_MAX, 100)])
           Legacy.programStart internal.double_t)
  /\
  Legacy.statSeed
    (Legacy.afterCalls ([(internal.double_t, UINT64_MAX, 100);
                         (internal.double_t, 42, 200)]
                          ++ [(internal.double_t, UINT64_MAX, 300)]) Legacy.programStart
       internal.double_t)
    = 300.
Proof.
  repeat apply conj.
  - apply (fillRandom_seed_sticky
             [(internal.double_t, UINT64_MAX, 100); (internal.double_t, UINT64_MAX, 200)]
             internal.double_t 42 300
             Examples.matrix23 (integral 0) (integral 1) Examples.legacy0).
    discriminate.
  - apply (fillRandom_seed_sticky
             [(internal.double_t, UINT64_MAX, 100); (internal.float_t, 42, 200)]
             internal.double_t UINT64_MAX 300
             Examples.matrix23 (integral 0) (integral 1) Examples.legacy0)
      with (earlier := []) (n := 100) (later := [(internal.float_t, 42, 200)]).
    + reflexivity.
    + reflexivity.
    + repeat constructor. discriminate.
  - apply (fillRandom_seed_sticky
             [(internal.double_t, UINT64_MAX, 100); (internal.double_t, 42, 200)]
             internal.double_t UINT64_MAX 300
             Examples.matrix23 (integral 0) (integral 1) Examples.legacy0)
      with (earlier := [(internal.double_t, UINT64_MAX, 100)]) (s := 42) (n := 200)
           (later := []).
    + reflexivity.
    + reflexivity.
    + constructor.
    + discriminate.
Defined.

(** C9, as stated, fails after an explicit seed: of three calls of one
    instantiation made with the default seed, the seed 42 and the default
    seed again, at clock readings 100, 200 and 300, the third does not reuse
    the seed 42 left by the second but reads the clock again, although it is
    not the first call made with the default seed. *)
Lemma fillRandom_reseeds_after_explicit_seed :
  Legacy.seedsUsed [(internal.double_t, UINT64_MAX, 100);
                    (internal.double_t, 42, 200);
                    (internal.double_t, UINT64_MAX, 300)] Legacy.programStart
    = [100; 42; 300].
Proof. vm_compute. reflexivity. Qed.

(** The seeds listed by [seedsUsed] are those of the statics after each call. *)
Lemma seedsUsed_afterCalls {T : Type} `{EqDecision T} (history : list (T * Z * Z))
    (t : T) (seed now : Z) :
  forall sts : Legacy.Instantiations T,
  List.last (Legacy.seedsUsed (history ++ [(t, seed, now)]) sts) 0
    = Legacy.statSeed (Legacy.afterCalls (history ++ [(t, seed, now)]) sts t).
Proof.
  induction history as [|[[t0 s0] n0] history IH]; intros sts.
  - cbn. reflexivity.
  - cbn [app Legacy.seedsUsed].
    change (Legacy.afterCalls ((t0, s0, n0) :: history ++ [(t, seed, now)]) sts)
      with (Legacy.afterCalls (history ++ [(t, seed, now)])
              (Legacy.fillRandom_seed_of t0 s0 n0 sts)).
    rewrite <- (IH (Legacy.fillRandom_seed_of t0 s0 n0 sts)).
    destruct (Legacy.seedsUsed (history ++ [(t, seed, now)])
                (Legacy.fillRandom_seed_of t0 s0 n0 sts)) eqn:E.
    + destruct history as [|[[? ?] ?] ?]; discriminate E.
    + reflexivity.
Qed.

(** ** Bit references *)

Lemma uint64_high_bits (x : Z) :
  0 <= x < 2 ^ 64 <-> 0 <= x /\ forall j, 64 <= j -> Z.testbit x j = false.
Proof.
  split.
  - intros Hx. split; [lia|]. intros j Hj.
    rewrite <- (Z.mod_small x (2 ^ 64)) by lia.
    apply Z.mod_pow2_bits_high. lia.
  - intros [H0 Hhigh]. split; [exact H0|].
    assert (Hmod : x mod 2 ^ 64 = x).
    { apply Z.bits_inj'. intros j Hj.
      destruct (Z.lt_ge_cases j 64) as [Hlt | Hge].
      - apply Z.mod_pow2_bits_low. exact Hlt.
      - rewrite Z.mod_pow2_bits_high by lia. symmetry. apply Hhigh. exact Hge. }
    rewrite <- Hmod. apply Z.mod_pos_bound. lia.
Qed.

Lemma shl1_defined (bit : Z) :
  0 <= bit < 64 -> memory.shl1 bit = Some (Z.shiftl 1 bit) /\ Z.shiftl 1 bit = 2 ^ bit.
Proof.
  intros Hb. unfold memory.shl1.
  destruct (Z.leb_spec 0 bit); [|lia]. destruct (Z.ltb_spec bit 64); [|lia].
  cbn [andb]. rewrite Z.shiftl_1_l.
  rewrite wrap_uint64_id; [split; reflexivity|].
  split; [apply Z.pow_nonneg; lia|]. apply Z.pow_lt_mono_r; lia.
Qed.

Lemma shl1_undefined (bit : Z) : 64 <= bit -> memory.shl1 bit = None.
Proof.
  intros Hb. unfold memory.shl1.
  destruct (Z.ltb_spec bit 64); [lia|]. rewrite andb_false_r. reflexivity.
Qed.

Lemma land_pow2_testbit (block bit : Z) :
  0 <= bit -> negb (Z.land block (2 ^ bit) =? 0) = Z.testbit block bit.
Proof.
  intros Hb. destruct (Z.testbit block bit) eqn:Hbit.
  - apply negb_true_iff, Z.eqb_neq. intros Hz.
    assert (Ht : Z.testbit (Z.land block (2 ^ bit)) bit = true).
    { rewrite Z.land_spec, Hbit, Z.pow2_bits_true by lia. reflexivity. }
    rewrite Hz, Z.bits_0 in Ht. discriminate Ht.
  - apply negb_false_iff, Z.eqb_eq. apply Z.bits_inj'. intros j Hj.
    rewrite Z.land_spec, Z.bits_0, Z.pow2_bits_eqb by lia.
    destruct (Z.eqb_spec bit j) as [-> | Hne].
    + rewrite Hbit. reflexivity.
    + apply andb_false_r.
Qed.

Lemma set_bit_spec (block bit : Z) (value : bool) :
  0 <= bit < 64 -> 0 <= block < 2 ^ 64 ->
  let block' := if value then Z.lor block (2 ^ bit)
                else Z.land block (memory.not64 (2 ^ bit)) in
  0 <= block' < 2 ^ 64 /\
  forall j, 0 <= j -> Z.testbit block' j = if j =? bit then value else Z.testbit block j.
Proof.
  intros Hb Hblock block'.
  apply uint64_high_bits in Hblock as [H0 Hhigh].
  assert (Hbits : forall j, 0 <= j ->
            Z.testbit block' j = if j =? bit then value else Z.testbit block j).
  { intros j Hj. subst block'. destruct value.
    - rewrite Z.lor_spec, Z.pow2_bits_eqb by lia. rewrite (Z.eqb_sym bit j).
      destruct (j =? bit); [apply orb_true_r | apply orb_false_r].
    - rewrite Z.land_spec. unfold memory.not64, wrap_uint64.
      destruct (Z.lt_ge_cases j 64) as [Hlt | Hge].
      + rewrite Z.mod_pow2_bits_low, Z.lnot_spec, Z.pow2_bits_eqb by lia.
        rewrite (Z.eqb_sym bit j).
        destruct (j =? bit); [apply andb_false_r | apply andb_true_r].
      + rewrite Z.mod_pow2_bits_high, (Hhigh j Hge) by lia.
        destruct (Z.eqb_spec j bit); [lia | reflexivity]. }
  split; [|exact Hbits].
  apply uint64_high_bits. split.
  - subst block'. destruct value.
    + apply Z.lor_nonneg. split; [exact H0 | apply Z.pow_nonneg; lia].
    + apply Z.land_nonneg. left. exact H0.
  - intros j Hj. rewrite Hbits by lia.
    destruct (Z.eqb_spec j bit); [lia | apply Hhigh; exact Hj].
Qed.

(** C10.  The constructor accepts every bit index below 512 and fails its
    assertion from 512 on, with a message that names the range [0, 64).
    For an index below 64, [get] and [set] read and write the bit of the
    block selected by the mask [1 << bit], which is the bit of that index;
    for the accepted indices from 64 on the shift is undefined. *)
Theorem ValueReference_bool_bits (val bit : Z) (d : memory.device)
    (mem : memory.Blocks) (block : Z) (value : bool) :
  0 <= bit < 2 ^ 16 ->
  (bit < 512 -> memory.ValueReference val bit = Ok (memory.mkRef val bit))
  /\
  (512 <= bit ->
     memory.ValueReference val bit = Throw (assertion_failed (memory.out_of_range bit)) /\
     last (memory.out_of_range bit) = Some (text "range [0, 64)"))
  /\
  (bit < 64 -> mem !! val = Some block -> 0 <= block < 2 ^ 64 ->
     memory.shl1 bit = Some (Z.shiftl 1 bit) /\
     memory.get d (memory.mkRef val bit) mem
       = Ok (negb (Z.land block (Z.shiftl 1 bit) =? 0)) /\
     memory.get d (memory.mkRef val bit) mem = Ok (Z.testbit block bit) /\
     exists block',
       memory.set d (memory.mkRef val bit) value mem = Ok (<[val := block']> mem) /\
       block' = (if value then Z.lor block (Z.shiftl 1 bit)
                 else Z.land block (memory.not64 (Z.shiftl 1 bit))) /\
       0 <= block' < 2 ^ 64 /\
       forall j, 0 <= j ->
         Z.testbit block' j = if j =? bit then value else Z.testbit block j)
  /\
  (64 <= bit < 512 ->
     memory.get d (memory.mkRef val bit) mem = Undefined /\
     memory.set d (memory.mkRef val bit) value mem = Undefined).
Proof.
  intros Hbit. split; [|split; [|split]].
  - intros Hlt. unfold memory.ValueReference, LR_ASSERT.
    destruct (Z.leb_spec 0 bit); [|lia]. destruct (Z.ltb_spec bit 512); [|lia].
    reflexivity.
  - intros Hge. split; [|reflexivity]. unfold memory.ValueReference, LR_ASSERT.
    destruct (Z.ltb_spec bit 512); [lia|]. rewrite andb_false_r. reflexivity.
  - intros Hlt Hmem Hblock.
    destruct (shl1_defined bit) as [Hshl Hpow]; [lia|].
    destruct (set_bit_spec block bit value) as [Hrange Hbits]; [lia | exact Hblock |].
    split; [exact Hshl|]. split; [|split].
    + unfold memory.get. cbn [memory.m_value memory.m_bit]. rewrite Hmem, Hshl.
      destruct d; reflexivity.
    + unfold memory.get. cbn [memory.m_value memory.m_bit]. rewrite Hmem, Hshl, Hpow.
      rewrite land_pow2_testbit by lia. destruct d; reflexivity.
    + eexists. split; [|split; [reflexivity|]].
      * unfold memory.set. cbn [memory.m_value memory.m_bit]. rewrite Hmem, Hshl.
        destruct d, value; reflexivity.
      * rewrite Hpow. split; assumption.
  - intros Hrange. split.
    + unfold memory.get. cbn [memory.m_value memory.m_bit].
      rewrite shl1_undefined by lia. destruct (mem !! val); reflexivity.
    + unfold memory.set. cbn [memory.m_value memory.m_bit].
      rewrite shl1_undefined by lia. destruct (mem !! val); reflexivity.
Qed.

Lemma ValueReference_bool_bits_witness :
  memory.ValueReference 8 100 = Ok (memory.mkRef 8 100)
  /\
  memory.ValueReference 8 512 = Throw (assertion_failed (memory.out_of_range 512))
  /\
  memory.get memory.CPU (memory.mkRef 8 3) {[ 8 := 10 ]} = Ok (Z.testbit 10 3)
  /\
  memory.get memory.GPU (memory.mkRef 8 100) {[ 8 := 10 ]} = Undefined.
Proof.
  repeat apply conj.
  - apply (ValueReference_bool_bits 8 100 memory.CPU {[ 8 := 10 ]} 10 true); lia.
  - apply (ValueReference_bool_bits 8 512 memory.CPU {[ 8 := 10 ]} 10 true); lia.
  - apply (ValueReference_bool_bits 8 3 memory.CPU {[ 8 := 10 ]} 10 true);
      [lia | lia | reflexivity | lia].
  - apply (ValueReference_bool_bits 8 100 memory.GPU {[ 8 := 10 ]} 10 true); lia.
Defined.

(** ** Products, bounds and parities ([core_math.cpp]) *)

(** The mathematical product of a list. *)
Lemma product_from_sound (vals : list Z) :
  forall res p : Z,
  core_math.product_from res vals = Returns p -> p = res * fold_right Z.mul 1 vals.
Proof.
  induction vals as [|val rest IH]; intros res p H; cbn in H |- *.
  - inversion H. lia.
  - destruct (core_math.in_int64 (res * val)); [|discriminate H].
    rewrite (IH _ _ H). lia.
Qed.

Lemma dimensions_product_positive (vals : list Z) :
  Forall (fun v => 1 <= v) vals -> 1 <= fold_right Z.mul 1 vals.
Proof.
  induction 1 as [|v rest Hv _ IH]; cbn; [lia | nia].
Qed.

Lemma product_from_dimensions (vals : list Z) :
  forall res : Z,
  1 <= res < 2 ^ 63 ->
  Forall (fun v => 1 <= v) vals ->
  core_math.product_from res vals
    = if res * fold_right Z.mul 1 vals <? 2 ^ 63
      then Returns (res * fold_right Z.mul 1 vals) else UndefinedBehaviour.
Proof.
  induction vals as [|val rest IH]; intros res Hres Hall.
  - cbn. rewrite Z.mul_1_r. destruct (Z.ltb_spec res (2 ^ 63)); [reflexivity | lia].
  - inversion Hall as [|? ? Hval Hrest]; subst.
    pose proof (dimensions_product_positive rest Hrest) as Hpos.
    cbn [core_math.product_from fold_right]. unfold core_math.in_int64.
    destruct (Z.leb_spec (- 2 ^ 63) (res * val)); [|nia].
    destruct (Z.ltb_spec (res * val) (2 ^ 63)); cbn [andb].
    + rewrite IH by (try assumption; nia).
      rewrite Z.mul_assoc. reflexivity.
    + destruct (Z.ltb_spec (res * (val * fold_right Z.mul 1 rest)) (2 ^ 63));
        [nia | reflexivity].
Qed.

(** X1.  Whatever [product] returns is the mathematical product of the
    values.  On a vector of dimensions (every entry at least one) it returns
    that product exactly when the product fits [int64_t]; otherwise a
    multiplication overflows, which is undefined. *)
Theorem product_of_dimensions (vals : list Z) :
  (forall p, core_math.product vals = Returns p -> p = fold_right Z.mul 1 vals)
  /\
  (Forall (fun v => 1 <= v) vals ->
     core_math.product vals
       = if fold_right Z.mul 1 vals <? 2 ^ 63
         then Returns (fold_right Z.mul 1 vals) else UndefinedBehaviour).
Proof.
  split.
  - intros p H. apply product_from_sound in H. lia.
  - intros Hall. unfold core_math.product.
    rewrite product_from_dimensions by (try assumption; lia).
    rewrite Z.mul_1_l. reflexivity.
Qed.

Lemma product_of_dimensions_witness :
  core_math.product [2; 3; 4] = Returns 24 /\
  core_math.product [2 ^ 32; 2 ^ 31; 1] = UndefinedBehaviour.
Proof.
  split.
  - apply (product_of_dimensions [2; 3; 4]). repeat constructor; lia.
  - apply (product_of_dimensions [2 ^ 32; 2 ^ 31; 1]). repeat constructor; lia.
Defined.

Lemma product_ptr_from_take (vals : list Z) (n : nat) :
  forall (res : Z) (i : nat),
  (i + n <= length vals)%nat ->
  core_math.product_ptr_from res vals i n
    = core_math.product_from res (take n (drop i vals)).
Proof.
  induction n as [|n IH]; intros res i Hlen.
  - reflexivity.
  - cbn [core_math.product_ptr_from].
    destruct (vals !! i) as [val|] eqn:Hval.
    + rewrite (drop_S _ _ _ Hval). cbn [take core_math.product_from].
      destruct (core_math.in_int64 (res * val)); [|reflexivity].
      apply IH. lia.
    + apply lookup_ge_None in Hval. lia.
Qed.

(** X2.  The pointer overload of [product] multiplies the first [num]
    entries of the array: it agrees with the vector overload on that prefix,
    and for [num <= 0] the loop does not run and the result is 1. *)
Theorem product_ptr_prefix (vals : list Z) (num : Z) :
  (num <= 0 -> core_math.product_ptr vals num = Returns 1)
  /\
  (0 <= num <= Z.of_nat (length vals) ->
     core_math.product_ptr vals num = core_math.product (take (Z.to_nat num) vals)).
Proof.
  split.
  - intros Hnum. unfold core_math.product_ptr.
    replace (Z.to_nat num) with 0%nat by lia. reflexivity.
  - intros Hnum. unfold core_math.product_ptr, core_math.product.
    rewrite product_ptr_from_take by lia. reflexivity.
Qed.

Lemma product_ptr_prefix_witness :
  core_math.product_ptr [2; 3; 4] (-1) = Returns 1 /\
  core_math.product_ptr [2; 3; 4] 2 = core_math.product (take (Z.to_nat 2) [2; 3; 4]).
Proof.
  split.
  - apply (proj1 (product_ptr_prefix [2; 3; 4] (-1))). lia.
  - apply (proj2 (product_ptr_prefix [2; 3; 4] 2)). cbn [length]. lia.
Defined.

Lemma anyBelow_ptr_from_take (vals : list Z) (bound : Z) (n : nat) :
  forall i : nat,
  (i + n <= length vals)%nat ->
  core_math.anyBelow_ptr_from vals bound i n
    = Returns (core_math.anyBelow (take n (drop i vals)) bound).
Proof.
  induction n as [|n IH]; intros i Hlen.
  - reflexivity.
  - cbn [core_math.anyBelow_ptr_from].
    destruct (vals !! i) as [val|] eqn:Hval.
    + rewrite (drop_S _ _ _ Hval). cbn [take core_math.anyBelow].
      destruct (val <? bound); [reflexivity|]. apply IH. lia.
    + apply lookup_ge_None in Hval. lia.
Qed.

(** X3.  [anyBelow] answers whether some value lies below the bound; on the
    empty vector the answer is no.  The pointer overload gives the answer
    for the first [dims] entries of the array. *)
Theorem anyBelow_exists (vals : list Z) (bound dims : Z) :
  (core_math.anyBelow vals bound = true <-> exists v, v ∈ vals /\ v < bound)
  /\
  (0 <= dims <= Z.of_nat (length vals) ->
     core_math.anyBelow_ptr vals dims bound
       = Returns (core_math.anyBelow (take (Z.to_nat dims) vals) bound)).
Proof.
  split.
  - induction vals as [|val rest IH]; cbn.
    + split; [discriminate|]. intros (v & Hin & _). inversion Hin.
    + destruct (Z.ltb_spec val bound) as [Hlt | Hge].
      * split; [|reflexivity]. intros _. exists val. split; [left | exact Hlt].
      * rewrite IH. split.
        -- intros (v & Hin & Hv). exists v. split; [right; exact Hin | exact Hv].
        -- intros (v & Hin & Hv). apply elem_of_cons in Hin as [-> | Hin]; [lia|].
           exists v. split; assumption.
  - intros Hdims. unfold core_math.anyBelow_ptr.
    rewrite anyBelow_ptr_from_take by lia. reflexivity.
Qed.

Lemma anyBelow_exists_witness :
  core_math.anyBelow_ptr [3; 0; 5] 1 1
    = Returns (core_math.anyBelow (take (Z.to_nat 1) [3; 0; 5]) 1).
Proof.
  apply (anyBelow_exists [3; 0; 5] 1 1). cbn [length]. lia.
Defined.

Lemma fibonacci_loop_overflows (k : nat) :
  forall (a b : Z) (more : nat),
  core_math.fibonacci_loop a b k = UndefinedBehaviour ->
  core_math.fibonacci_loop a b (k + more) = UndefinedBehaviour.
Proof.
  induction k as [|k IH]; intros a b more H; cbn in H.
  - discriminate H.
  - cbn [Nat.add core_math.fibonacci_loop].
    destruct (core_math.in_int (a + b)); [|reflexivity].
    apply IH. exact H.
Qed.

(** X4.  [nthFibonacci] rejects every argument from 100 on, 100 included,
    with [std::overflow_error].  Up to 75 it returns the value of the closed
    form.  For every argument from 76 to 99 the integer loop overflows
    [int], at the 47th Fibonacci number: no such call returns a value. *)
Theorem nthFibonacci_ranges (n : Z) :
  0 <= n < 2 ^ 8 ->
  (100 <= n ->
     core_math.nthFibonacci n
       = Throws (overflow_error "Numbers above 100 are not allowed as argument."))
  /\
  (75 < n < 100 -> core_math.nthFibonacci n = UndefinedBehaviour)
  /\
  (n <= 75 -> core_math.nthFibonacci n = Returns (core_math.closedForm n)).
Proof.
  intros Hn. unfold core_math.nthFibonacci. split; [|split].
  - intros H. destruct (Z.leb_spec 100 n); [reflexivity | lia].
  - intros H. destruct (Z.leb_spec 100 n); [lia|].
    destruct (Z.leb_spec n 75); [lia|].
    replace (Z.to_nat (n - 1)) with (46 + (Z.to_nat (n - 1) - 46))%nat by lia.
    rewrite fibonacci_loop_overflows; [reflexivity|]. vm_compute. reflexivity.
  - intros H. destruct (Z.leb_spec 100 n); [lia|].
    destruct (Z.leb_spec n 75); [reflexivity | lia].
Qed.

Lemma nthFibonacci_ranges_witness :
  core_math.nthFibonacci 100
    = Throws (overflow_error "Numbers above 100 are not allowed as argument.")
  /\ core_math.nthFibonacci 80 = UndefinedBehaviour.
Proof.
  split.
  - apply (nthFibonacci_ranges 100); lia.
  - apply (nthFibonacci_ranges 80); lia.
Defined.

(** X5.  [betterFcknBeEven] returns for every even number, negative ones
    included, and for every odd number prints its message and ends the
    process with status 69. *)
Theorem betterFcknBeEven_parity (n : Z) :
  core_math.betterFcknBeEven n
    = if Z.even n then Returns tt
      else Exits 69 "[ ERROR ] Number was not even
".
Proof.
  unfold core_math.betterFcknBeEven.
  change 1 with (Z.ones 1) at 1. rewrite Z.land_ones by lia.
  change (2 ^ 1) with 2. rewrite Zeven_mod.
  destruct (n mod 2 =? 0); reflexivity.
Qed.

(** ** Significant figures ([roundSigFig]) *)

Lemma scaleUp_zero (z : PrimFloat.float) :
  z = PrimFloat.zero \/ z = PrimFloat.neg_zero ->
  forall (fuel : nat) (n : Z),
  - 2 ^ 63 <= n < 2 ^ 63 ->
  (Z.of_nat fuel <= n + 2 ^ 63 -> core_math.scaleUp fuel z n = None) /\
  (n + 2 ^ 63 < Z.of_nat fuel -> core_math.scaleUp fuel z n = Some UndefinedBehaviour).
Proof.
  intros Hz.
  assert (Hlt : PrimFloat.ltb z PrimFloat.one = true) by (destruct Hz as [-> | ->]; reflexivity).
  assert (Hmul : PrimFloat.mul z core_math.ten = z) by (destruct Hz as [-> | ->]; reflexivity).
  induction fuel as [|fuel IH]; intros n Hn.
  - split; [reflexivity | cbn; lia].
  - cbn [core_math.scaleUp]. rewrite Hlt, Hmul. unfold core_math.in_int64.
    destruct (Z.leb_spec (- 2 ^ 63) (n - 1)) as [Hge | Hlow].
    + destruct (Z.ltb_spec (n - 1) (2 ^ 63)) as [_ | ?]; [|lia]. cbn [andb].
      destruct (IH (n - 1) ltac:(lia)) as [Hnone Hub].
      split; intros Hf; [apply Hnone | apply Hub]; lia.
    + cbn [andb]. split; [lia | reflexivity].
Qed.

Lemma scaleDown_infinity :
  forall (fuel : nat) (n : Z),
  - 2 ^ 63 <= n < 2 ^ 63 ->
  (Z.of_nat fuel < 2 ^ 63 - n -> core_math.scaleDown fuel PrimFloat.infinity n = None) /\
  (2 ^ 63 - n <= Z.of_nat fuel ->
     core_math.scaleDown fuel PrimFloat.infinity n = Some UndefinedBehaviour).
Proof.
  induction fuel as [|fuel IH]; intros n Hn.
  - split; [reflexivity | cbn; lia].
  - cbn [core_math.scaleDown].
    change (PrimFloat.ltb core_math.ten PrimFloat.infinity) with true.
    change (PrimFloat.div PrimFloat.infinity core_math.ten) with PrimFloat.infinity.
    cbv iota. unfold core_math.in_int64.
    destruct (Z.ltb_spec (n + 1) (2 ^ 63)) as [Hlt | Hhigh].
    + destruct (Z.leb_spec (- 2 ^ 63) (n + 1)) as [_ | ?]; [|lia]. cbn [andb].
      destruct (IH (n + 1) ltac:(lia)) as [Hnone Hub].
      split; intros Hf; [apply Hnone | apply Hub]; lia.
    + rewrite andb_false_r. split; [lia | reflexivity].
Qed.

(** X6.  [roundSigFig] does not return for a number that is zero or
    infinite.  A zero never leaves the loop that scales it up to 1, an
    infinity never leaves the loop that scales it down to 10; the loop runs
    until its counter [n] overflows after [2^63] steps, which is undefined.
    A number of figures that is not positive is rejected before that. *)
Theorem roundSigFig_never_returns (num : PrimFloat.float) (figs : Z) (fuel : nat) :
  num = PrimFloat.zero \/ num = PrimFloat.neg_zero \/
  num = PrimFloat.infinity \/ num = PrimFloat.neg_infinity ->
  (figs <= 0 ->
     core_math.roundSigFig_scale fuel num figs
       = Some (Throws (std_invalid_argument
                         [text "Cannot round to "; number figs;
                          text " significant figures. Must be greater than 0"])))
  /\
  (0 < figs -> Z.of_nat fuel < 2 ^ 63 ->
     core_math.roundSigFig_scale fuel num figs = None)
  /\
  (0 < figs -> 2 ^ 63 < Z.of_nat fuel ->
     core_math.roundSigFig_scale fuel num figs = Some UndefinedBehaviour).
Proof.
  intros Hnum. unfold core_math.roundSigFig_scale. split; [|split].
  - intros Hf. destruct (Z.leb_spec figs 0); [|lia]. reflexivity.
  - intros Hf Hfuel. destruct (Z.leb_spec figs 0); [lia|].
    destruct Hnum as [-> | [-> | [-> | ->]]].
    + change (if PrimFloat.ltb PrimFloat.zero PrimFloat.zero then PrimFloat.zero
              else PrimFloat.opp PrimFloat.zero) with PrimFloat.neg_zero.
      destruct fuel as [|fuel]; [reflexivity|].
      change (core_math.scaleDown (S fuel) PrimFloat.neg_zero 0)
        with (Some (Returns (PrimFloat.neg_zero, 0))).
      apply (scaleUp_zero PrimFloat.neg_zero); [auto | lia | lia].
    + change (if PrimFloat.ltb PrimFloat.zero PrimFloat.neg_zero then PrimFloat.neg_zero
              else PrimFloat.opp PrimFloat.neg_zero) with PrimFloat.zero.
      destruct fuel as [|fuel]; [reflexivity|].
      change (core_math.scaleDown (S fuel) PrimFloat.zero 0)
        with (Some (Returns (PrimFloat.zero, 0))).
      apply (scaleUp_zero PrimFloat.zero); [auto | lia | lia].
    + change (if PrimFloat.ltb PrimFloat.zero PrimFloat.infinity then PrimFloat.infinity
              else PrimFloat.opp PrimFloat.infinity) with PrimFloat.infinity.
      rewrite (proj1 (scaleDown_infinity fuel 0 ltac:(lia))) by lia. reflexivity.
    + change (if PrimFloat.ltb PrimFloat.zero PrimFloat.neg_infinity then PrimFloat.neg_infinity
              else PrimFloat.opp PrimFloat.neg_infinity) with PrimFloat.infinity.
      rewrite (proj1 (scaleDown_infinity fuel 0 ltac:(lia))) by lia. reflexivity.
  - intros Hf Hfuel. destruct (Z.leb_spec figs 0); [lia|].
    destruct Hnum as [-> | [-> | [-> | ->]]].
    + change (if PrimFloat.ltb PrimFloat.zero PrimFloat.zero then PrimFloat.zero
              else PrimFloat.opp PrimFloat.zero) with PrimFloat.neg_zero.
      destruct fuel as [|fuel]; [cbn in Hfuel; lia|].
      change (core_math.scaleDown (S fuel) PrimFloat.neg_zero 0)
        with (Some (Returns (PrimFloat.neg_zero, 0))).
      apply (scaleUp_zero PrimFloat.neg_zero); [auto | lia | lia].
    + change (if PrimFloat.ltb PrimFloat.zero PrimFloat.neg_zero then PrimFloat.neg_zero
              else PrimFloat.opp PrimFloat.neg_zero) with PrimFloat.zero.
      destruct fuel as [|fuel]; [cbn in Hfuel; lia|].
      change (core_math.scaleDown (S fuel) PrimFloat.zero 0)
        with (Some (Returns (PrimFloat.zero, 0))).
      apply (scaleUp_zero PrimFloat.zero); [auto | lia | lia].
    + change (if PrimFloat.ltb PrimFloat.zero PrimFloat.infinity then PrimFloat.infinity
              else PrimFloat.opp PrimFloat.infinity) with PrimFloat.infinity.
      rewrite (proj2 (scaleDown_infinity fuel 0 ltac:(lia))) by lia. reflexivity.
    + change (if PrimFloat.ltb PrimFloat.zero PrimFloat.neg_infinity then PrimFloat.neg_infinity
              else PrimFloat.opp PrimFloat.neg_infinity) with PrimFloat.infinity.
      rewrite (proj2 (scaleDown_infinity fuel 0 ltac:(lia))) by lia. reflexivity.
Qed.

Lemma roundSigFig_never_returns_witness :
  core_math.roundSigFig_scale 1000 PrimFloat.zero 3 = None.
Proof.
  apply (proj1 (proj2 (roundSigFig_never_returns PrimFloat.zero 3 1000
                         (or_introl eq_refl)))).
  - lia.
  - lia.
Defined.

(** ** The decimal point of a multiprecision float ([multiprecToString.cpp]) *)








(** The sign is no digit. *)
Lemma number_minus (base : Z) (s : list Ascii.ascii) :
  multiprec.number base (multiprec.minus :: s) = None.
Proof. reflexivity. Qed.





(** ** The dimensions of nested vectors ([utils::extractSize]) *)

Lemma regular_size (dims : list Z) (vec : utils.NestedVector) :
  utils.regular dims vec -> exists rest, dims = utils.size vec :: rest.
Proof.
  destruct dims as [|n rest]; [intros []|].
  destruct vec as [elems | subs]; cbn.
  - intros [_ ->]. eauto.
  - intros [-> _]. eauto.
Qed.

Lemma extractSize_sizes (first : utils.NestedVector) (others others' : list utils.NestedVector) :
  map utils.size others = map utils.size others' ->
  utils.extractSize (utils.vectors (first :: others))
    = utils.extractSize (utils.vectors (first :: others')).
Proof.
  intros Hsizes. cbn [utils.extractSize].
  assert (Hlen : length others = length others').
  { rewrite <- (length_map utils.size others), Hsizes. apply length_map. }
  assert (Hall : forallb (fun subVec => utils.size subVec =? utils.size first) others
                 = forallb (fun subVec => utils.size subVec =? utils.size first) others').
  { clear Hlen. revert others' Hsizes.
    induction others as [|o os IH]; intros [|o' os'] H; try discriminate H; [reflexivity|].
    cbn in H |- *. inversion H as [[Ho Hos]]. rewrite Ho, (IH os' Hos). reflexivity. }
  cbn [forallb length]. rewrite Hall, Hlen. reflexivity.
Qed.

(** X9.  [extractSize] of a regular nested vector returns its dimensions,
    outermost first. *)
Theorem extractSize_regular (dims : list Z) :
  forall vec : utils.NestedVector,
  utils.regular dims vec -> utils.extractSize vec = Returns dims.
Proof.
  induction dims as [|n rest IH]; intros vec Hreg; [destruct Hreg|].
  destruct vec as [elems | subs].
  - destruct Hreg as [-> ->]. reflexivity.
  - destruct Hreg as (-> & Hne & Hall).
    destruct subs as [|first others]; [congruence|].
    cbn [utils.extractSize].
    assert (Hsame : forallb (fun subVec => utils.size subVec =? utils.size first)
                      (first :: others) = true).
    { apply forallb_forall. intros sub Hin. apply Z.eqb_eq.
      rewrite Forall_forall in Hall.
      destruct (regular_size rest first) as [r1 H1].
      { apply Hall. left. }
      destruct (regular_size rest sub) as [r2 H2].
      { apply Hall. apply list_elem_of_In. exact Hin. }
      congruence. }
    rewrite Hsame. rewrite (IH first); [reflexivity|].
    rewrite Forall_forall in Hall. apply Hall. left.
Qed.

Lemma extractSize_regular_witness :
  utils.extractSize
    (utils.vectors [utils.scalars [integral 1; integral 2];
                    utils.scalars [integral 3; integral 4];
                    utils.scalars [integral 5; integral 6]])
    = Returns [3; 2].
Proof.
  apply (extractSize_regular [3; 2]).
  cbn. repeat split; try discriminate. repeat constructor.
Defined.

(** X10.  [extractSize] compares the sub-vectors with the first one by their
    length only, and descends into the first one only.  A sub-vector whose
    length differs from the first one's makes it throw [std::length_error];
    the sub-vectors after the first one matter by their lengths alone, so a
    vector that is ragged further down outside of the first sub-vector is
    not rejected. *)
Theorem extractSize_first_only (first : utils.NestedVector)
    (others others' : list utils.NestedVector) :
  ((exists sub, sub ∈ others /\ utils.size sub <> utils.size first) ->
     utils.extractSize (utils.vectors (first :: others)) = Throws utils.not_same_length)
  /\
  (map utils.size others = map utils.size others' ->
     utils.extractSize (utils.vectors (first :: others))
       = utils.extractSize (utils.vectors (first :: others'))).
Proof.
  split; [|apply extractSize_sizes].
  intros (sub & Hin & Hne). cbn [utils.extractSize].
  destruct (forallb _ (first :: others)) eqn:Hall; [|reflexivity].
  rewrite forallb_forall in Hall.
  specialize (Hall sub). rewrite Z.eqb_eq in Hall.
  exfalso. apply Hne, Hall. right. apply list_elem_of_In. exact Hin.
Qed.

Lemma extractSize_first_only_witness :
  utils.extractSize
    (utils.vectors [utils.scalars [integral 1; integral 2];
                    utils.scalars [integral 3]])
    = Throws utils.not_same_length
  /\
  utils.extractSize
    (utils.vectors
       [utils.vectors [utils.scalars [integral 1; integral 2];
                       utils.scalars [integral 3; integral 4]];
        utils.vectors [utils.scalars [integral 5];
                       utils.scalars [integral 6; integral 7; integral 8]]])
    = utils.extractSize
        (utils.vectors
           [utils.vectors [utils.scalars [integral 1; integral 2];
                           utils.scalars [integral 3; integral 4]];
            utils.vectors [utils.scalars [integral 5; integral 6];
                           utils.scalars [integral 7; integral 8]]]).
Proof.
  split.
  - apply (proj1 (extractSize_first_only
                    (utils.scalars [integral 1; integral 2])
                    [utils.scalars [integral 3]] [])).
    exists (utils.scalars [integral 3]). split; [left | discriminate].
  - apply (proj2 (extractSize_first_only
                    (utils.vectors [utils.scalars [integral 1; integral 2];
                                    utils.scalars [integral 3; integral 4]])
                    [utils.vectors [utils.scalars [integral 5];
                                    utils.scalars [integral 6; integral 7; integral 8]]]
                    [utils.vectors [utils.scalars [integral 5; integral 6];
                                    utils.scalars [integral 7; integral 8]]])).
    reflexivity.
Defined.

(** ** Assignment of a scalar ([Array::operator=(T)]) *)

Lemma set_isScalar_same (a : Array) : set_isScalar a (m_isScalar a) = a.
Proof. destruct a; reflexivity. Qed.

Lemma set_isScalar_id (a : Array) (v : bool) : m_isScalar a = v -> set_isScalar a v = a.
Proof. intros <-. apply set_isScalar_same. Qed.

(** What is observed of a computation, from its result and final machine. *)
Lemma observe {E A : Type} (c : M E A) (m : Machine E) (r : Result A) (m' : Machine E)
    (evs : list E) :
  c m = (r, m') -> trace m' = trace m ++ evs ->
  outcome c m = r /\ calls c m = evs /\ counters (snd (c m)) = counters m'.
Proof.
  intros H Ht. unfold outcome, calls. rewrite H. cbn [fst snd].
  rewrite Ht, drop_app_length. auto.
Qed.

(** The rest of [operator=(T)] for an array that is not a child, once the
    reference to the old storage is dropped. *)
Lemma assign_integral_rebind (self : Array) (val : Z) (m m1 : Machine Legacy.Event) :
  m_isChild self = false ->
  (if negb (m_references self =? nullptr) then Legacy.decrement self else ret tt) m
    = (Ok tt, m1) ->
  LegacyArray.assign_integral self val m =
    (Ok (LegacyArray.rebound (brk m1)),
     {| counters := <[brk m1 + 1 := 1]> (counters m1);
        brk := brk m1 + 1 + 1 + 1;
        trace := trace m1 ++ LegacyArray.copied val (brk m1) |}).
Proof.
  intros Hchild Hdrop. unfold LegacyArray.assign_integral.
  rewrite Hchild. cbn [andb negb].
  unfold bind at 1. unfold bind at 1. rewrite Hdrop.
  unfold Legacy.constructNew. run. rewrite Hchild, <- !app_assoc. reflexivity.
Qed.

(** X11.  Assigning an integer to a child array (a view into another
    array): a child that is not a scalar is rejected with
    [std::invalid_argument] and nothing is touched; a scalar child keeps its
    storage, and the value, as an [int64_t], is copied into it: no storage
    is allocated or freed and no reference counter changes. *)
Theorem assign_integral_child (self : Array) (val : Z) (m : Machine Legacy.Event) :
  m_isChild self = true ->
  (m_isScalar self = false ->
     LegacyArray.assign_integral self val m = (Throw LegacyArray.scalar_to_array, m))
  /\
  (m_isScalar self = true ->
     outcome (LegacyArray.assign_integral self val) m = Ok self /\
     calls (LegacyArray.assign_integral self val) m
       = [Legacy.store (mkRaw (brk m) Datatype.INT64 Accelerator.CPU)
            (int64_t (wrap_int64 val));
          Legacy.rawArrayMemcpy (Legacy.createRaw self)
            (mkRaw (brk m) Datatype.INT64 Accelerator.CPU) 1] /\
     counters (snd (LegacyArray.assign_integral self val m)) = counters m).
Proof.
  intros Hchild. split.
  - intros Hsc. unfold LegacyArray.assign_integral. rewrite Hchild, Hsc. reflexivity.
  - intros Hsc.
    refine (observe (LegacyArray.assign_integral self val) m (Ok self)
      {| counters := counters m; brk := brk m + 1;
         trace := (trace m
                     ++ [Legacy.store (mkRaw (brk m) Datatype.INT64 Accelerator.CPU)
                           (int64_t (wrap_int64 val))])
                    ++ [Legacy.rawArrayMemcpy (Legacy.createRaw self)
                          (mkRaw (brk m) Datatype.INT64 Accelerator.CPU) 1] |}
      [Legacy.store (mkRaw (brk m) Datatype.INT64 Accelerator.CPU)
         (int64_t (wrap_int64 val));
       Legacy.rawArrayMemcpy (Legacy.createRaw self)
         (mkRaw (brk m) Datatype.INT64 Accelerator.CPU) 1] _ _).
    + unfold LegacyArray.assign_integral. rewrite Hchild, Hsc. cbn [andb negb]. run. rewrite (set_isScalar_id self true Hsc). reflexivity.
    + cbn [trace]. rewrite <- app_assoc. reflexivity.
Qed.

Lemma assign_integral_child_witness :
  LegacyArray.assign_integral Examples.row1 7 Examples.legacy0
    = (Throw LegacyArray.scalar_to_array, Examples.legacy0).
Proof.
  apply (proj1 (assign_integral_child Examples.row1 7 Examples.legacy0 eq_refl)).
  reflexivity.
Defined.

(** X12.  Assigning an integer to an array that is not a child rebinds it:
    the reference to the old storage is dropped first (the storage is freed
    if this was the last owner, and stays otherwise; an uninitialised array
    has none), then a fresh one-element [INT64] storage on the host is
    allocated with a counter of its own holding 1, and the value is copied
    into it.  The array is a scalar of extent [1] from then on. *)
Theorem assign_integral_rebinds (self : Array) (val : Z) (m : Machine Legacy.Event) :
  m_isChild self = false ->
  (m_references self = nullptr ->
     outcome (LegacyArray.assign_integral self val) m = Ok (LegacyArray.rebound (brk m)) /\
     calls (LegacyArray.assign_integral self val) m = LegacyArray.copied val (brk m) /\
     counters (snd (LegacyArray.assign_integral self val m))
       = <[brk m + 1 := 1]> (counters m))
  /\
  (forall c, m_references self <> nullptr ->
     counters m !! m_references self = Some c -> 1 < c < 2 ^ 63 ->
     outcome (LegacyArray.assign_integral self val) m = Ok (LegacyArray.rebound (brk m)) /\
     calls (LegacyArray.assign_integral self val) m = LegacyArray.copied val (brk m) /\
     counters (snd (LegacyArray.assign_integral self val m))
       = <[brk m + 1 := 1]> (<[m_references self := c - 1]> (counters m)))
  /\
  (m_references self <> nullptr ->
     counters m !! m_references self = Some 1 ->
     outcome (LegacyArray.assign_integral self val) m = Ok (LegacyArray.rebound (brk m)) /\
     calls (LegacyArray.assign_integral self val) m
       = Legacy.rawArrayFree (Legacy.createRaw self) :: LegacyArray.copied val (brk m) /\
     counters (snd (LegacyArray.assign_integral self val m))
       = <[brk m + 1 := 1]> (delete (m_references self) (counters m))).
Proof.
  intros Hchild. split; [|split].
  - intros Hnull.
    refine (observe (LegacyArray.assign_integral self val) m (Ok (LegacyArray.rebound (brk m)))
      {| counters := <[brk m + 1 := 1]> (counters m); brk := brk m + 1 + 1 + 1;
         trace := trace m ++ LegacyArray.copied val (brk m) |}
      (LegacyArray.copied val (brk m)) _ _).
    + apply (assign_integral_rebind self val m m Hchild).
      rewrite Hnull. reflexivity.
    + reflexivity.
  - intros c Hr Hc Hb.
    refine (observe (LegacyArray.assign_integral self val) m (Ok (LegacyArray.rebound (brk m)))
      {| counters := <[brk m + 1 := 1]> (<[m_references self := c - 1]> (counters m));
         brk := brk m + 1 + 1 + 1;
         trace := trace m ++ LegacyArray.copied val (brk m) |}
      (LegacyArray.copied val (brk m)) _ _).
    + rewrite (assign_integral_rebind self val m
                 {| counters := <[m_references self := c - 1]> (counters m);
                    brk := brk m; trace := trace m |} Hchild); [reflexivity|].
      apply Z.eqb_neq in Hr as Hr'. rewrite Hr'. cbn [negb].
      apply (Legacy_decrement_live self m c Hr Hc Hb).
    + reflexivity.
  - intros Hr Hc.
    refine (observe (LegacyArray.assign_integral self val) m (Ok (LegacyArray.rebound (brk m)))
      {| counters := <[brk m + 1 := 1]> (delete (m_references self) (counters m));
         brk := brk m + 1 + 1 + 1;
         trace := (trace m ++ [Legacy.rawArrayFree (Legacy.createRaw self)])
                    ++ LegacyArray.copied val (brk m) |}
      (Legacy.rawArrayFree (Legacy.createRaw self) :: LegacyArray.copied val (brk m)) _ _).
    + rewrite (assign_integral_rebind self val m
                 {| counters := delete (m_references self) (counters m);
                    brk := brk m;
                    trace := trace m ++ [Legacy.rawArrayFree (Legacy.createRaw self)] |}
                 Hchild); [reflexivity|].
      apply Z.eqb_neq in Hr as Hr'. rewrite Hr'. cbn [negb].
      apply (Legacy_decrement_last self m Hr Hc).
    + cbn [trace]. rewrite <- app_assoc. reflexivity.
Qed.

Lemma assign_integral_rebinds_witness :
  outcome (LegacyArray.assign_integral Examples.matrix23 7) Examples.legacy0
    = Ok (LegacyArray.rebound 32) /\
  calls (LegacyArray.assign_integral Examples.matrix23 7) Examples.legacy0
    = Legacy.rawArrayFree (Legacy.createRaw Examples.matrix23)
        :: LegacyArray.copied 7 32 /\
  counters (snd (LegacyArray.assign_integral Examples.matrix23 7 Examples.legacy0))
    = <[33 := 1]> (delete 17 Examples.some_counters).
Proof.
  apply (proj2 (proj2 (assign_integral_rebinds Examples.matrix23 7 Examples.legacy0
                         eq_refl))).
  - discriminate.
  - reflexivity.
Defined.

(** ** Offsets into the storage ([_offsetData], [_resetOffset]) *)

(** X13.  [_resetOffset] undoes the pointer move of [_offsetData], but not
    its change of the layout flags: [_offsetData] clears both flags,
    [_resetOffset] sets both, whatever they were before.  The round trip
    gives the array back exactly when it was trivial and contiguous. *)
Theorem offset_round_trip (self : Array) (elems : Z) :
  trivialContiguous (LegacyArray._offsetData self elems) = false /\
  LegacyArray._resetOffset (LegacyArray._offsetData self elems) elems
    = set_stride self (LegacyArray.setFlags (m_stride self) true true) /\
  (LegacyArray._resetOffset (LegacyArray._offsetData self elems) elems = self
     <-> isTrivial (m_stride self) = true /\ isContiguous (m_stride self) = true).
Proof.
  assert (Hrt : LegacyArray._resetOffset (LegacyArray._offsetData self elems) elems
                = set_stride self (LegacyArray.setFlags (m_stride self) true true)).
  { unfold LegacyArray._resetOffset, LegacyArray._offsetData, LegacyArray.set_start,
      set_stride, LegacyArray.setFlags. cbn.
    replace (m_dataStart self + elems - elems) with (m_dataStart self) by lia.
    reflexivity. }
  split; [reflexivity|]. split; [exact Hrt|].
  rewrite Hrt. destruct self as [l d s o r e [st t c] sc ch].
  unfold set_stride, LegacyArray.setFlags. cbn. split.
  - intros H. inversion H. auto.
  - intros [-> ->]. reflexivity.
Qed.

(** ** Conversion of a scalar array to a value ([operator T()]) *)

(** The run of the conversion, by case. *)
Lemma cast_to_run (resType : Datatype.t) (self : Array) (m : Machine Legacy.Event) :
  LegacyArray.cast_to resType self m =
    if negb (m_isScalar self) then (Throw (LegacyArray.not_a_scalar self), m)
    else
      match m_location self with
      | Accelerator.CPU =>
          (match m_dtype self with
           | Datatype.NONE | Datatype.VALIDNONE => Throw LegacyArray.uninitialized_scalar
           | _ => Ok (mkRaw (m_dataStart self) (m_dtype self) Accelerator.CPU)
           end, m)
      | Accelerator.GPU =>
          (match resType with
           | Datatype.NONE | Datatype.VALIDNONE => Throw LegacyArray.uninitialized_scalar
           | _ => Ok (LegacyArray.temporary resType (brk m))
           end,
           {| counters := counters m; brk := brk m + 1;
              trace := trace m ++
                [Legacy.rawArrayMalloc (LegacyArray.temporary resType (brk m)) 1;
                 Legacy.rawArrayMemcpy (LegacyArray.temporary resType (brk m))
                   (Legacy.createRaw self) 1;
                 Legacy.rawArrayFree (LegacyArray.temporary resType (brk m))] |})
      | Accelerator.NONE => (Throw LegacyArray.invalid_accelerator, m)
      end.
Proof.
  unfold LegacyArray.cast_to, LegacyArray.temporary.
  destruct (m_isScalar self); [|reflexivity]. cbn [negb].
  destruct (m_location self).
  - reflexivity.
  - destruct (m_dtype self); reflexivity.
  - change (bool_decide (Accelerator.GPU = Accelerator.CPU)) with false.
    change (bool_decide (Accelerator.GPU = Accelerator.GPU)) with true. cbv iota.
    destruct resType; run; rewrite <- ?app_assoc; reflexivity.
Qed.

(** X14.  The conversion of an array that is not a scalar throws
    [std::invalid_argument].  Storage is touched on the device path only: a
    one-element temporary is allocated on the host, the element is copied
    to it, and the temporary is freed on every path, also when the
    conversion throws.  On the device path "uninitialized" is decided by the
    requested type, on the host path by the element type of the array.  No
    reference counter changes. *)
Theorem cast_to_temporary (resType : Datatype.t) (self : Array) (m : Machine Legacy.Event) :
  calls (LegacyArray.cast_to resType self) m
    = (if m_isScalar self && bool_decide (m_location self = Accelerator.GPU) then
         [Legacy.rawArrayMalloc (LegacyArray.temporary resType (brk m)) 1;
          Legacy.rawArrayMemcpy (LegacyArray.temporary resType (brk m))
            (Legacy.createRaw self) 1;
          Legacy.rawArrayFree (LegacyArray.temporary resType (brk m))]
       else [])
  /\
  counters (snd (LegacyArray.cast_to resType self m)) = counters m
  /\
  (m_isScalar self = false ->
     outcome (LegacyArray.cast_to resType self) m = Throw (LegacyArray.not_a_scalar self))
  /\
  (m_isScalar self = true -> m_location self = Accelerator.GPU ->
     (outcome (LegacyArray.cast_to resType self) m = Throw LegacyArray.uninitialized_scalar
        <-> resType = Datatype.NONE \/ resType = Datatype.VALIDNONE) /\
     (resType <> Datatype.NONE -> resType <> Datatype.VALIDNONE ->
        outcome (LegacyArray.cast_to resType self) m
          = Ok (LegacyArray.temporary resType (brk m))))
  /\
  (m_isScalar self = true -> m_location self = Accelerator.CPU ->
     (outcome (LegacyArray.cast_to resType self) m = Throw LegacyArray.uninitialized_scalar
        <-> m_dtype self = Datatype.NONE \/ m_dtype self = Datatype.VALIDNONE) /\
     (m_dtype self <> Datatype.NONE -> m_dtype self <> Datatype.VALIDNONE ->
        outcome (LegacyArray.cast_to resType self) m
          = Ok (mkRaw (m_dataStart self) (m_dtype self) Accelerator.CPU)))
  /\
  (m_isScalar self = true -> m_location self = Accelerator.NONE ->
     outcome (LegacyArray.cast_to resType self) m = Throw LegacyArray.invalid_accelerator).
Proof.
  unfold calls, outcome. rewrite cast_to_run.
  destruct (m_isScalar self); cbn [negb andb].
  2: { cbn [fst snd]. rewrite drop_all.
       repeat split; try reflexivity; intros; discriminate. }
  destruct (m_location self) eqn:Hloc.
  - cbn [fst snd]. rewrite drop_all.
    repeat split; try reflexivity; intros; discriminate.
  - cbn [fst snd]. rewrite drop_all.
    destruct (m_dtype self);
      repeat split; try reflexivity; intros; try discriminate; try tauto;
      try congruence; intuition discriminate.
  - cbn [fst snd trace]. rewrite drop_app_length.
    destruct resType;
      repeat split; try reflexivity; intros; try discriminate; try tauto;
      try congruence; intuition discriminate.
Qed.

Lemma cast_to_temporary_witness :
  outcome (LegacyArray.cast_to Datatype.FLOAT64 Examples.matrix23) Examples.legacy0
    = Throw (LegacyArray.not_a_scalar Examples.matrix23)
  /\
  outcome (LegacyArray.cast_to Datatype.FLOAT64 Examples.scalar5) Examples.legacy0
    = Ok (mkRaw 20 Datatype.INT64 Accelerator.CPU).
Proof.
  split.
  - apply (proj1 (proj2 (proj2 (cast_to_temporary Datatype.FLOAT64 Examples.matrix23
                                   Examples.legacy0)))).
    reflexivity.
  - apply (proj2 (proj1 (proj2 (proj2 (proj2 (proj2
             (cast_to_temporary Datatype.FLOAT64 Examples.scalar5 Examples.legacy0)))))
             eq_refl eq_refl)); discriminate.
Defined.

(** ** Unary operations ([applyUnaryOp], [map], [mapped], [filledRandom]) *)

Lemma neqb_refl (e : Extent) : Extent_.neqb e e = false.
Proof. apply neqb_false. reflexivity. Qed.

(** The run of the legacy in-place unary entry point once its check passes. *)
Lemma applyUnaryOp_into_run (dst src : Array) (op : FUNC) (m : Machine Legacy.Event) :
  m_references dst <> nullptr ->
  m_extent dst = m_extent src ->
  Legacy.applyUnaryOp_into dst src op false 0 m =
    (Ok (set_isScalar dst (m_isScalar src)),
     {| counters := counters m; brk := brk m;
        trace := trace m ++ [LegacyArray.unaryKernel dst src op] |}).
Proof.
  intros Hr He. unfold Legacy.applyUnaryOp_into, LegacyArray.unaryKernel,
    trivialContiguous, Stride_.trivialContiguous.
  apply Z.eqb_neq in Hr. rewrite Hr, He, neqb_refl. cbn [negb orb andb].
  rewrite <- !andb_assoc.
  destruct (isTrivial (m_stride dst) && (isContiguous (m_stride dst) &&
            (isTrivial (m_stride src) && isContiguous (m_stride src)))); reflexivity.
Qed.

(** X15.  The unary entry points that store into a given array check the
    destination only: an uninitialised destination, or one whose extent
    differs from the operand's, is rejected with [std::invalid_argument]
    before any call; otherwise exactly one kernel runs, no storage is
    allocated or freed, and the destination takes the scalar flag of the
    operand.  With [permitInvalid] the legacy entry point checks nothing. *)
Theorem applyUnaryOp_shape_check (a dst : Array) (op : FUNC) (off : Z)
    (mS : Machine Src.Event) (mL : Machine Legacy.Event) :
  (m_references dst = nullptr \/ m_extent dst <> m_extent a ->
     Src.applyUnaryOp a dst op mS
       = (Throw (invalid_argument [text "Cannot operate on array with ";
                                   extent_str (m_extent a);
                                   text " and store the result in ";
                                   extent_str (m_extent dst)]), mS) /\
     Legacy.applyUnaryOp_into dst a op false off mL
       = (Throw (invalid_argument [text "Cannot operate on array with ";
                                   extent_str (m_extent a);
                                   text " and store the result in ";
                                   extent_str (m_extent dst)]), mL))
  /\
  (m_references dst <> nullptr -> m_extent dst = m_extent a ->
     (exists kernel,
        Src.path kernel <> None /\
        Src.applyUnaryOp a dst op mS
          = (Ok (set_isScalar dst (m_isScalar a)),
             {| counters := counters mS; brk := brk mS;
                trace := trace mS ++ [kernel] |})) /\
     (exists kernel,
        Legacy.path kernel <> None /\
        Legacy.applyUnaryOp_into dst a op false off mL
          = (Ok (set_isScalar dst (m_isScalar a)),
             {| counters := counters mL; brk := brk mL;
                trace := trace mL ++ [kernel] |})))
  /\
  (exists kernel,
     Legacy.path kernel <> None /\
     Legacy.applyUnaryOp_into dst a op true off mL
       = (Ok (set_isScalar dst (m_isScalar a)),
          {| counters := counters mL; brk := brk mL;
             trace := trace mL ++ [kernel] |})).
Proof.
  split; [|split].
  - intros Hbad.
    assert (Hguard : (m_references dst =? nullptr)
                     || Extent_.neqb (m_extent dst) (m_extent a) = true).
    { destruct Hbad as [Hnull | Hne].
      - rewrite Hnull. reflexivity.
      - apply neqb_true in Hne. rewrite Hne. apply orb_true_r. }
    unfold Src.applyUnaryOp, Legacy.applyUnaryOp_into. rewrite Hguard.
    split; reflexivity.
  - intros Hr He. apply Z.eqb_neq in Hr.
    unfold Src.applyUnaryOp, Legacy.applyUnaryOp_into.
    rewrite Hr, He, neqb_refl. cbn [negb orb andb]. split.
    + destruct (isTrivial (m_stride a) && isContiguous (m_stride a));
        eexists; (split; [|reflexivity]); discriminate.
    + destruct (isTrivial (m_stride dst) && isContiguous (m_stride dst)
                && isTrivial (m_stride a) && isContiguous (m_stride a));
        eexists; (split; [|reflexivity]); discriminate.
  - unfold Legacy.applyUnaryOp_into. cbn [negb andb].
    eexists; (split; [|reflexivity]); discriminate.
Qed.

Lemma applyUnaryOp_shape_check_witness :
  Src.applyUnaryOp Examples.matrix23 Examples.matrix32 ops_Add Examples.src0
    = (Throw (invalid_argument [text "Cannot operate on array with ";
                                extent_str [2; 3];
                                text " and store the result in ";
                                extent_str [3; 2]]), Examples.src0) /\
  Legacy.applyUnaryOp_into Examples.matrix32 Examples.matrix23 ops_Add false 0
      Examples.legacy0
    = (Throw (invalid_argument [text "Cannot operate on array with ";
                                extent_str [2; 3];
                                text " and store the result in ";
                                extent_str [3; 2]]), Examples.legacy0).
Proof.
  apply (proj1 (applyUnaryOp_shape_check Examples.matrix23 Examples.matrix32 ops_Add 0
                  Examples.src0 Examples.legacy0)).
  right. discriminate.
Defined.

(** X16.  [map] runs its kernel in place: on an initialised array it never
    fails, source and destination of the one kernel call are the array's own
    storage, the trivial traversal is taken exactly when the array is
    trivial and contiguous, and the array comes back as it was.  An
    uninitialised array is rejected before any call. *)
Theorem map_in_place (self : Array) (kernel : FUNC) (m : Machine Legacy.Event) :
  (m_references self = nullptr ->
     exists what, LegacyArray.map self kernel m = (Throw (invalid_argument what), m))
  /\
  (m_references self <> nullptr ->
     outcome (LegacyArray.map self kernel) m = Ok self /\
     calls (LegacyArray.map self kernel) m = [LegacyArray.unaryKernel self self kernel] /\
     omap Legacy.path (calls (LegacyArray.map self kernel) m)
       = [pathOf (trivialContiguous self)] /\
     counters (snd (LegacyArray.map self kernel m)) = counters m).
Proof.
  unfold LegacyArray.map. split.
  - intros Hnull. unfold Legacy.applyUnaryOp_into. rewrite Hnull.
    cbn [negb andb orb Z.eqb nullptr]. eexists. reflexivity.
  - intros Hr.
    pose proof (applyUnaryOp_into_run self self kernel m Hr eq_refl) as Hrun.
    rewrite set_isScalar_same in Hrun.
    destruct (observe _ m _ _ [LegacyArray.unaryKernel self self kernel] Hrun eq_refl)
      as (Ho & Hc & Hk).
    rewrite Hc. repeat split; try assumption.
    unfold LegacyArray.unaryKernel, pathOf.
    destruct (trivialContiguous self); reflexivity.
Qed.

Lemma map_in_place_witness :
  outcome (LegacyArray.map Examples.transposed23 (user_kernel "square")) Examples.legacy0
    = Ok Examples.transposed23 /\
  calls (LegacyArray.map Examples.transposed23 (user_kernel "square")) Examples.legacy0
    = [LegacyArray.unaryKernel Examples.transposed23 Examples.transposed23
         (user_kernel "square")] /\
  omap Legacy.path
    (calls (LegacyArray.map Examples.transposed23 (user_kernel "square")) Examples.legacy0)
    = [pathOf (trivialContiguous Examples.transposed23)] /\
  counters (snd (LegacyArray.map Examples.transposed23 (user_kernel "square")
                   Examples.legacy0))
    = counters Examples.legacy0.
Proof.
  apply (proj2 (map_in_place Examples.transposed23 (user_kernel "square")
                  Examples.legacy0)).
  discriminate.
Defined.

(** The run of a unary operation into a fresh array like [self]. *)
Lemma into_fresh_run (self : Array) (op : FUNC) (m : Machine Legacy.Event) :
  brk m + 1 <> nullptr ->
  (let* res := Legacy.Array_ (m_extent self) (m_dtype self) (m_location self) in
   Legacy.applyUnaryOp_into res self op false 0) m =
    (Ok (LegacyArray.like self (brk m) (m_isScalar self)),
     {| counters := <[brk m + 1 := 1]> (counters m); brk := brk m + 1 + 1;
        trace := trace m ++
          [Legacy.rawArrayMalloc (mkRaw (brk m) (m_dtype self) (m_location self))
             (Extent_.size (m_extent self));
           LegacyArray.unaryKernel (LegacyArray.like self (brk m) false) self op] |}).
Proof.
  intros Hr. unfold Legacy.Array_, Legacy.constructNew. run.
  change {| m_location := m_location self; m_dtype := m_dtype self;
            m_dataStart := brk m; m_dataOrigin := brk m; m_references := brk m + 1;
            m_extent := m_extent self; m_stride := Stride_.fromExtent (m_extent self);
            m_isScalar := m_isScalar Array_default; m_isChild := m_isChild Array_default |}
    with (LegacyArray.like self (brk m) false).
  rewrite applyUnaryOp_into_run by (try exact Hr; reflexivity).
  cbn [trace counters brk]. rewrite <- app_assoc. reflexivity.
Qed.

(** X17.  [mapped] on an initialised array, with one of the six element
    types and on a device, leaves its array alone: a fresh array of the same
    extent, element type and device is made, with a counter of its own
    holding 1, and the kernel runs once from the array's storage into the
    fresh one; the trivial traversal is taken exactly when the array is
    trivial and contiguous.  (The constructor of the result is the one of
    [multiarray.cpp]; it is taken to succeed.) *)
Theorem mapped_fresh (self : Array) (kernel : FUNC) (m : Machine Legacy.Event) :
  m_references self <> nullptr ->
  m_dtype self <> Datatype.NONE -> m_dtype self <> Datatype.VALIDNONE ->
  m_location self <> Accelerator.NONE ->
  brk m + 1 <> nullptr ->
  outcome (LegacyArray.mapped self kernel) m
    = Ok (LegacyArray.like self (brk m) (m_isScalar self)) /\
  calls (LegacyArray.mapped self kernel) m
    = [Legacy.rawArrayMalloc (mkRaw (brk m) (m_dtype self) (m_location self))
         (Extent_.size (m_extent self));
       LegacyArray.unaryKernel (LegacyArray.like self (brk m) false) self kernel] /\
  omap Legacy.path (calls (LegacyArray.mapped self kernel) m)
    = [pathOf (trivialContiguous self)] /\
  counters (snd (LegacyArray.mapped self kernel m)) = <[brk m + 1 := 1]> (counters m).
Proof.
  intros _ _ _ _ Hr. pose proof (into_fresh_run self kernel m Hr) as Hrun.
  destruct (observe (LegacyArray.mapped self kernel) m _ _ _ Hrun eq_refl)
    as (Ho & Hc & Hk).
  rewrite Hc. repeat split; try assumption.
  unfold LegacyArray.unaryKernel, pathOf, trivialContiguous at 1.
  cbn [LegacyArray.like m_stride Stride_.fromExtent Stride_.trivialContiguous
       isTrivial isContiguous andb].
  destruct (trivialContiguous self); reflexivity.
Qed.

Lemma mapped_fresh_witness :
  outcome (LegacyArray.mapped Examples.transposed23 ops_Add) Examples.legacy0
    = Ok (LegacyArray.like Examples.transposed23 32 false) /\
  calls (LegacyArray.mapped Examples.transposed23 ops_Add) Examples.legacy0
    = [Legacy.rawArrayMalloc (mkRaw 32 Datatype.FLOAT64 Accelerator.CPU) 6;
       LegacyArray.unaryKernel (LegacyArray.like Examples.transposed23 32 false)
         Examples.transposed23 ops_Add] /\
  omap Legacy.path
    (calls (LegacyArray.mapped Examples.transposed23 ops_Add) Examples.legacy0)
    = [pathOf (trivialContiguous Examples.transposed23)] /\
  counters (snd (LegacyArray.mapped Examples.transposed23 ops_Add Examples.legacy0))
    = <[33 := 1]> Examples.some_counters.
Proof.
  apply (mapped_fresh Examples.transposed23 ops_Add Examples.legacy0); discriminate.
Defined.

(** X18.  [filledRandom] fills a fresh array, not its own: it allocates an
    array of the same extent, element type and device and runs the
    [FillRandom] kernel once, in place on the fresh storage and always along
    the trivial traversal, whatever the layout of the array it is called on.
    Its [int64_t] seed reaches [fillRandom] as an [uint64_t], so that the
    default -1 is the default of [fillRandom] and asks for a seed from the
    clock. *)
Theorem filledRandom_fresh (self : Array) (min max : Scalar) (seed now : Z)
    (st : Legacy.FillRandomStatics) (m : Machine Legacy.Event) :
  brk m + 1 <> nullptr ->
  - 2 ^ 63 <= seed < 2 ^ 63 ->
  (exists res,
     outcome (LegacyArray.filledRandom self min max seed now st) m
       = Ok (res, Legacy.fillRandom_seed (wrap_uint64 seed) now st) /\
     m_extent res = m_extent self /\ m_dtype res = m_dtype self /\
     m_location res = m_location self /\
     m_dataStart res = brk m /\ m_references res = brk m + 1) /\
  calls (LegacyArray.filledRandom self min max seed now st) m
    = [Legacy.rawArrayMalloc (mkRaw (brk m) (m_dtype self) (m_location self))
         (Extent_.size (m_extent self));
       Legacy.multiarrayUnaryOpTrivial
         (mkRaw (brk m) (m_dtype self) (m_location self))
         (mkRaw (brk m) (m_dtype self) (m_location self))
         (Extent_.size (m_extent self))
         (ops_FillRandom min max
            (Legacy.statSeed (Legacy.fillRandom_seed (wrap_uint64 seed) now st)))] /\
  (wrap_uint64 seed = UINT64_MAX <-> seed = -1) /\
  (seed = -1 ->
     Legacy.statSeed (Legacy.fillRandom_seed (wrap_uint64 seed) now st) = now \/
     Legacy.prevSeed st = UINT64_MAX /\ Legacy.statSeedSet st = true /\
     Legacy.statSeed (Legacy.fillRandom_seed (wrap_uint64 seed) now st)
       = Legacy.statSeed st).
Proof.
  intros Hr Hseed.
  set (st' := Legacy.fillRandom_seed (wrap_uint64 seed) now st).
  set (raw := mkRaw (brk m) (m_dtype self) (m_location self)).
  assert (Hrun : LegacyArray.filledRandom self min max seed now st m =
            (Ok (LegacyArray.like self (brk m) false, st'),
             {| counters := <[brk m + 1 := 1]> (counters m); brk := brk m + 1 + 1;
                trace := trace m ++
                  [Legacy.rawArrayMalloc raw (Extent_.size (m_extent self));
                   Legacy.multiarrayUnaryOpTrivial raw raw (Extent_.size (m_extent self))
                     (ops_FillRandom min max (Legacy.statSeed st'))] |})).
  { unfold LegacyArray.filledRandom, Legacy.fillRandom, Legacy.Array_,
      Legacy.constructNew. run.
    change {| m_location := m_location self; m_dtype := m_dtype self;
              m_dataStart := brk m; m_dataOrigin := brk m; m_references := brk m + 1;
              m_extent := m_extent self; m_stride := Stride_.fromExtent (m_extent self);
              m_isScalar := m_isScalar Array_default;
              m_isChild := m_isChild Array_default |}
      with (LegacyArray.like self (brk m) false).
    rewrite applyUnaryOp_into_run by (try exact Hr; reflexivity).
    cbn [trace counters brk]. rewrite <- app_assoc. reflexivity. }
  destruct (observe _ m _ _ _ Hrun eq_refl) as (Ho & Hc & _).
  split; [|split; [|split]].
  - exists (LegacyArray.like self (brk m) false). repeat split. exact Ho.
  - exact Hc.
  - unfold wrap_uint64, UINT64_MAX. split.
    + intros H.
      destruct (Z_lt_le_dec seed 0) as [Hneg | Hpos].
      * rewrite <- (Z.mod_add seed 1 (2 ^ 64)) in H by lia.
        rewrite Z.mod_small in H by lia. lia.
      * rewrite Z.mod_small in H by lia. lia.
    + intros ->. reflexivity.
  - intros ->. subst st'. unfold Legacy.fillRandom_seed.
    change (wrap_uint64 (-1)) with UINT64_MAX. rewrite Z.eqb_refl. cbn [negb orb].
    rewrite orb_false_r.
    destruct (Z.eqb_spec (Legacy.prevSeed st) UINT64_MAX) as [Hp | Hp];
      destruct (Legacy.statSeedSet st); cbn; auto.
Qed.

Lemma filledRandom_fresh_witness :
  calls (LegacyArray.filledRandom Examples.transposed23 (integral 0) (integral 1) (-1) 100
           Legacy.fillRandom_statics) Examples.legacy0
    = [Legacy.rawArrayMalloc (mkRaw 32 Datatype.FLOAT64 Accelerator.CPU) 6;
       Legacy.multiarrayUnaryOpTrivial (mkRaw 32 Datatype.FLOAT64 Accelerator.CPU)
         (mkRaw 32 Datatype.FLOAT64 Accelerator.CPU) 6
         (ops_FillRandom (integral 0) (integral 1) 100)].
Proof.
  apply (filledRandom_fresh Examples.transposed23 (integral 0) (integral 1)
           (-1) 100 Legacy.fillRandom_statics Examples.legacy0).
  - discriminate.
  - lia.
Defined.

(** ** The launch configuration of [mapKernel] *)

(** X19.  For a destination of [end] elements, with [end] positive and below
    [2^53], the device launch of [mapKernel] uses between 1 and 512 threads
    per block, and the least number of blocks whose threads cover all [end]
    elements. *)
Theorem launchConfiguration_covers (end_ : Z) :
  0 < end_ < 2 ^ 53 ->
  exists threadsPerBlock blocksPerGrid,
    LegacyArray.launchConfiguration end_ = Some (threadsPerBlock, blocksPerGrid) /\
    1 <= threadsPerBlock <= 512 /\
    1 <= blocksPerGrid /\
    (blocksPerGrid - 1) * threadsPerBlock < end_ <= blocksPerGrid * threadsPerBlock.
Proof.
  intros Hend. unfold LegacyArray.launchConfiguration.
  destruct (Z.ltb_spec end_ 512) as [Hsmall | Hlarge].
  - exists end_, 1. repeat split; lia.
  - destruct (Z.ltb_spec end_ (2 ^ 53)) as [_ | Hbig]; [|lia].
    exists 512, (- (- end_ / 512)). split; [reflexivity|].
    pose proof (Z.div_mod (- end_) 512 ltac:(lia)) as Hdm.
    pose proof (Z.mod_pos_bound (- end_) 512 ltac:(lia)) as Hmod.
    repeat split; lia.
Qed.

Lemma launchConfiguration_covers_witness :
  exists threadsPerBlock blocksPerGrid,
    LegacyArray.launchConfiguration 1000 = Some (threadsPerBlock, blocksPerGrid) /\
    1 <= threadsPerBlock <= 512 /\
    1 <= blocksPerGrid /\
    (blocksPerGrid - 1) * threadsPerBlock < 1000 <= blocksPerGrid * threadsPerBlock.
Proof.
  apply (launchConfiguration_covers 1000). lia.
Defined.

(** ** The storage of a fresh binary result *)

(** X20.  A binary operation that returns a fresh array allocates exactly
    one storage, with a counter of its own holding 1, and runs exactly one
    kernel; no operand's counter changes.  The legacy entry point gives the
    result the extent of the second operand when the first one is a scalar
    and the extent of the first one otherwise; the entry point of [src/]
    gives it the extent of the first operand in every case. *)
Theorem applyBinaryOp_fresh_storage (a b : Array) (op : FUNC) (pI pV : bool)
    (mS : Machine Src.Event) (mL : Machine Legacy.Event) :
  m_extent a = m_extent b \/ m_isScalar a = true \/ m_isScalar b = true ->
  (exists res m' kernel,
     Legacy.applyBinaryOp a b op pI pV mL = (Ok res, m') /\
     m_extent res = (if m_isScalar a then m_extent b else m_extent a) /\
     m_dataStart res = brk mL /\ m_dataOrigin res = brk mL /\
     m_references res = brk mL + 1 /\
     counters m' = <[brk mL + 1 := 1]> (counters mL) /\
     calls (Legacy.applyBinaryOp a b op pI pV) mL
       = [Legacy.rawArrayMalloc (Legacy.createRaw res) (Extent_.size (m_extent res));
          kernel] /\
     Legacy.path kernel <> None)
  /\
  (exists res m' kernel,
     Src.applyBinaryOp a b op mS = (Ok res, m') /\
     m_extent res = m_extent a /\
     m_dataStart res = brk mS /\ m_dataOrigin res = brk mS /\
     m_references res = brk mS + 1 /\
     counters m' = <[brk mS + 1 := 1]> (counters mS) /\
     calls (Src.applyBinaryOp a b op) mS
       = [Src.AUTOCAST_ALLOC (Src.makeVoidPtr res) (Extent_.size (m_extent res));
          kernel] /\
     Src.path kernel <> None).
Proof.
  intros Hok. apply shape_guard in Hok. split.
  - unfold calls, Legacy.applyBinaryOp. rewrite <- andb_assoc, Hok, andb_false_r.
    unfold Legacy.Array_, Legacy.constructNew. run.
    branches; run; do 3 eexists; (split; [reflexivity|]);
      cbn [m_extent m_dataStart m_dataOrigin m_references set_stride set_isScalar
           counters trace snd];
      rewrite <- ?app_assoc, drop_app_length;
      repeat split; discriminate.
  - unfold calls, Src.applyBinaryOp. rewrite Hok.
    unfold Src.Array_, Src.constructNew. run.
    branches; run; do 3 eexists; (split; [reflexivity|]);
      cbn [m_extent m_dataStart m_dataOrigin m_references set_stride set_isScalar
           counters trace snd];
      rewrite <- ?app_assoc, drop_app_length;
      repeat split; discriminate.
Qed.

Lemma applyBinaryOp_fresh_storage_witness :
  exists res m' kernel,
    Src.applyBinaryOp Examples.scalar5 Examples.matrix23 ops_Add Examples.src0
      = (Ok res, m') /\
    m_extent res = m_extent Examples.scalar5 /\
    m_dataStart res = brk Examples.src0 /\ m_dataOrigin res = brk Examples.src0 /\
    m_references res = brk Examples.src0 + 1 /\
    counters m' = <[brk Examples.src0 + 1 := 1]> (counters Examples.src0) /\
    calls (Src.applyBinaryOp Examples.scalar5 Examples.matrix23 ops_Add) Examples.src0
      = [Src.AUTOCAST_ALLOC (Src.makeVoidPtr res) (Extent_.size (m_extent res)); kernel] /\
    Src.path kernel <> None.
Proof.
  apply (applyBinaryOp_fresh_storage Examples.scalar5 Examples.matrix23 ops_Add
           false false Examples.src0 Examples.legacy0).
  right. left. reflexivity.
Defined.

(** ** The extent of a [CWiseMap] *)

Lemma extractAndCheckExtent_scalars (rest : list mapping.Operand) :
  forall (first : mapping.Operand) (ty : internal.CType) (v : Scalar),
  forallb mapping.IsScalar (first :: rest) = true ->
  last (first :: rest) = Some (mapping.scalarOperand ty v) ->
  mapping.extractAndCheckExtent first rest = Ok (mapping.aScalar ty v).
Proof.
  induction rest as [|next rest IH]; intros first ty v Hsc Hlast.
  - cbn in Hlast. inversion Hlast. reflexivity.
  - destruct first as [ty0 v0 | ty0 e0 s0]; [|discriminate Hsc].
    cbn [mapping.extractAndCheckExtent]. apply IH.
    + exact Hsc.
    + exact Hlast.
Qed.

(** X21.  What a [CWiseMap] takes for its extent.  When the arrays among
    its operands share one extent, [extractAndCheckExtent] returns that
    extent, wherever the scalars stand among the operands.  When every
    operand is a scalar, it returns no extent but the last operand itself. *)
Theorem extractAndCheckExtent_value (first : mapping.Operand) (rest : list mapping.Operand) :
  (forall e, e ∈ arrayExtents (first :: rest) -> shareExtent (first :: rest) ->
     mapping.extractAndCheckExtent first rest = Ok (mapping.anExtent e))
  /\
  (forall ty v, forallb mapping.IsScalar (first :: rest) = true ->
     last (first :: rest) = Some (mapping.scalarOperand ty v) ->
     mapping.extractAndCheckExtent first rest = Ok (mapping.aScalar ty v)).
Proof.
  split; [|intros ty v; apply extractAndCheckExtent_scalars].
  intros e Hin Hshare.
  pose proof (extractAndCheckExtent_spec rest first) as Hspec.
  unfold shareExtent in Hshare.
  destruct (arrayExtents (first :: rest)) as [|x xs]; [inversion Hin|].
  assert (Hall : forallb (fun e' => bool_decide (x = e')) xs = true)
    by (apply shareExtent_forallb; exact Hshare).
  rewrite Hall in Hspec. rewrite Hspec. do 2 f_equal.
  apply Hshare; [left | exact Hin].
Qed.

Lemma extractAndCheckExtent_value_witness :
  mapping.extractAndCheckExtent (mapping.scalarOperand internal.int32 (integral 1))
    [mapping.scalarOperand internal.double_t (floating 1 (-1))]
    = Ok (mapping.aScalar internal.double_t (floating 1 (-1))).
Proof.
  apply (proj2 (extractAndCheckExtent_value
                  (mapping.scalarOperand internal.int32 (integral 1))
                  [mapping.scalarOperand internal.double_t (floating 1 (-1))])).
  - reflexivity.
  - reflexivity.
Defined.

(** ** Compound assignment through a bit reference *)

Lemma get_testbit (d : memory.device) (val bit : Z) (mem : memory.Blocks) (block : Z) :
  0 <= bit < 64 -> mem !! val = Some block ->
  memory.get d (memory.mkRef val bit) mem = Ok (Z.testbit block bit).
Proof.
  intros Hbit Hmem. destruct (shl1_defined bit Hbit) as [Hshl Hpow].
  unfold memory.get. cbn [memory.m_value memory.m_bit]. rewrite Hmem, Hshl, Hpow.
  rewrite land_pow2_testbit by lia. destruct d; reflexivity.
Qed.

Lemma set_block (d : memory.device) (val bit : Z) (mem : memory.Blocks) (block : Z)
    (value : bool) :
  0 <= bit < 64 -> mem !! val = Some block ->
  memory.set d (memory.mkRef val bit) value mem
    = Ok (<[val := if value then Z.lor block (2 ^ bit)
                   else Z.land block (memory.not64 (2 ^ bit))]> mem).
Proof.
  intros Hbit Hmem. destruct (shl1_defined bit Hbit) as [Hshl Hpow].
  unfold memory.set. cbn [memory.m_value memory.m_bit]. rewrite Hmem, Hshl, Hpow.
  destruct d, value; reflexivity.
Qed.

(** X22.  Writing a bit and reading it back.  After [set(value)] through a
    reference to bit [bit] of a block, [get] through the same reference
    returns [value]; every other bit of the block and every other block read
    as before; and writing the same value again changes nothing. *)
Theorem ValueReference_set_get (d : memory.device) (val bit : Z) (mem : memory.Blocks)
    (block : Z) (value : bool) :
  0 <= bit < 64 -> mem !! val = Some block -> 0 <= block < 2 ^ 64 ->
  exists mem',
    memory.set d (memory.mkRef val bit) value mem = Ok mem' /\
    memory.get d (memory.mkRef val bit) mem' = Ok value /\
    (forall bit', 0 <= bit' < 64 -> bit' <> bit ->
       memory.get d (memory.mkRef val bit') mem' = memory.get d (memory.mkRef val bit') mem) /\
    (forall val' bit', val' <> val ->
       memory.get d (memory.mkRef val' bit') mem' = memory.get d (memory.mkRef val' bit') mem) /\
    memory.set d (memory.mkRef val bit) value mem' = Ok mem'.
Proof.
  intros Hbit Hmem Hblock.
  destruct (set_bit_spec block bit value Hbit Hblock) as [Hrange Hbits].
  set (block' := if value then Z.lor block (2 ^ bit)
                 else Z.land block (memory.not64 (2 ^ bit))) in *.
  exists (<[val := block']> mem).
  assert (Hmem' : <[val := block']> mem !! val = Some block') by apply lookup_insert_eq.
  split; [apply set_block; assumption|]. split; [|split; [|split]].
  - rewrite (get_testbit d val bit _ block' Hbit Hmem').
    rewrite Hbits by lia. rewrite Z.eqb_refl. reflexivity.
  - intros bit' Hbit' Hne.
    rewrite (get_testbit d val bit' _ block' Hbit' Hmem').
    rewrite (get_testbit d val bit' _ block Hbit' Hmem).
    rewrite Hbits by lia. destruct (Z.eqb_spec bit' bit); [contradiction | reflexivity].
  - intros val' bit' Hne. unfold memory.get. cbn [memory.m_value memory.m_bit].
    rewrite (lookup_insert_ne (M := gmap Z) mem val val' block') by congruence.
    reflexivity.
  - rewrite (set_block d val bit _ block' value Hbit Hmem').
    rewrite (insert_insert_eq (M := gmap Z) mem val). do 2 f_equal.
    apply Z.bits_inj'. intros j Hj.
    destruct (set_bit_spec block' bit value Hbit Hrange) as [_ Hbits'].
    rewrite Hbits' by exact Hj. rewrite Hbits by exact Hj.
    destruct (j =? bit); reflexivity.
Qed.

Lemma ValueReference_set_get_witness :
  exists mem',
    memory.set memory.CPU (memory.mkRef 8 3) false {[ 8 := 10 ]} = Ok mem' /\
    memory.get memory.CPU (memory.mkRef 8 3) mem' = Ok false /\
    (forall bit', 0 <= bit' < 64 -> bit' <> 3 ->
       memory.get memory.CPU (memory.mkRef 8 bit') mem'
         = memory.get memory.CPU (memory.mkRef 8 bit') {[ 8 := 10 ]}) /\
    (forall val' bit', val' <> 8 ->
       memory.get memory.CPU (memory.mkRef val' bit') mem'
         = memory.get memory.CPU (memory.mkRef val' bit') {[ 8 := 10 ]}) /\
    memory.set memory.CPU (memory.mkRef 8 3) false mem' = Ok mem'.
Proof.
  apply (ValueReference_set_get memory.CPU 8 3 {[ 8 := 10 ]} 10 false).
  - lia.
  - reflexivity.
  - lia.
Defined.

(** X23.  The compound assignments of a bit reference compute on [int] and
    convert back to [bool]: [+=] and [|=] both store the disjunction of the
    bit and the operand, [-=] and [^=] both store their exclusive or, [*=]
    and [&=] both store their conjunction; [/=] leaves the bit when the
    operand is true and is undefined (a division by zero) when it is false;
    and the non-const [operator==] overwrites the bit with the result of the
    comparison. *)
Theorem ValueReference_compound_assignment (d : memory.device) (val bit : Z)
    (mem : memory.Blocks) (block other : Z) :
  0 <= bit < 64 -> mem !! val = Some block ->
  ValueReferenceOps.assign ValueReferenceOps.op_add d (memory.mkRef val bit) other mem
    = memory.set d (memory.mkRef val bit)
        (Z.testbit block bit || ValueReferenceOps.to_bool other) mem /\
  ValueReferenceOps.assign ValueReferenceOps.op_or d (memory.mkRef val bit) other mem
    = memory.set d (memory.mkRef val bit)
        (Z.testbit block bit || ValueReferenceOps.to_bool other) mem /\
  ValueReferenceOps.assign ValueReferenceOps.op_sub d (memory.mkRef val bit) other mem
    = memory.set d (memory.mkRef val bit)
        (xorb (Z.testbit block bit) (ValueReferenceOps.to_bool other)) mem /\
  ValueReferenceOps.assign ValueReferenceOps.op_xor d (memory.mkRef val bit) other mem
    = memory.set d (memory.mkRef val bit)
        (xorb (Z.testbit block bit) (ValueReferenceOps.to_bool other)) mem /\
  ValueReferenceOps.assign ValueReferenceOps.op_mul d (memory.mkRef val bit) other mem
    = memory.set d (memory.mkRef val bit)
        (Z.testbit block bit && ValueReferenceOps.to_bool other) mem /\
  ValueReferenceOps.assign ValueReferenceOps.op_and d (memory.mkRef val bit) other mem
    = memory.set d (memory.mkRef val bit)
        (Z.testbit block bit && ValueReferenceOps.to_bool other) mem /\
  ValueReferenceOps.assign ValueReferenceOps.op_eq d (memory.mkRef val bit) other mem
    = memory.set d (memory.mkRef val bit)
        (Bool.eqb (Z.testbit block bit) (ValueReferenceOps.to_bool other)) mem /\
  ValueReferenceOps.assign ValueReferenceOps.op_div d (memory.mkRef val bit) other mem
    = (if ValueReferenceOps.to_bool other
       then memory.set d (memory.mkRef val bit) (Z.testbit block bit) mem
       else Undefined).
Proof.
  intros Hbit Hmem.
  unfold ValueReferenceOps.assign.
  rewrite (get_testbit d val bit mem block Hbit Hmem).
  destruct (Z.testbit block bit), (ValueReferenceOps.to_bool other);
    repeat split; reflexivity.
Qed.

Lemma ValueReference_compound_assignment_witness :
  ValueReferenceOps.assign ValueReferenceOps.op_sub memory.CPU (memory.mkRef 8 3) 5
      {[ 8 := 10 ]}
    = memory.set memory.CPU (memory.mkRef 8 3)
        (xorb (Z.testbit 10 3) (ValueReferenceOps.to_bool 5)) {[ 8 := 10 ]}.
Proof.
  apply (ValueReference_compound_assignment memory.CPU 8 3 {[ 8 := 10 ]} 10 5).
  - lia.
  - reflexivity.
Defined.

(** ** The element type of a [CWiseMap] *)

Lemma common_type_comm (a b : internal.CType) :
  internal.common_type a b = internal.common_type b a.
Proof. destruct a, b; reflexivity. Qed.

Lemma is_same_v_eq (l r : memory.device) :
  CWiseMapTraits.is_same_v l r = true <-> l = r.
Proof. destruct l, r; split; intros H; try reflexivity; discriminate H. Qed.

(** X24.  [traits<CWiseMap<Map, DerivedTypes...>>::Scalar] exists for at
    most two operands: from three operands on, [allSameDevice] hands more
    than two devices to [std::is_same_v], and the specialisation does not
    compile; nor does it for two operands on different devices, whose
    [static_assert] fails.  For two operands on one device it is the common
    type of their scalar types, the same in either order, and [double] as
    soon as one of them is [double]. *)
Theorem CWiseMap_Scalar_order (l r : CWiseMapTraits.DerivedType) :
  (snd l = snd r ->
     CWiseMapTraits.Scalar [l; r] = Some (internal.common_type (fst l) (fst r)) /\
     CWiseMapTraits.Scalar [r; l] = CWiseMapTraits.Scalar [l; r] /\
     (fst l = internal.double_t \/ fst r = internal.double_t ->
        CWiseMapTraits.Scalar [l; r] = Some internal.double_t))
  /\
  (snd l <> snd r -> CWiseMapTraits.Scalar [l; r] = None)
  /\
  (forall third rest, CWiseMapTraits.Scalar (l :: r :: third :: rest) = None).
Proof.
  unfold CWiseMapTraits.Scalar, CWiseMapTraits.allSameDevice,
    CWiseMapTraits.common_type_t.
  split; [|split].
  - intros Hdev. cbn [map fold_left].
    rewrite (proj2 (is_same_v_eq (snd l) (snd r)) Hdev).
    rewrite (proj2 (is_same_v_eq (snd r) (snd l)) (eq_sym Hdev)).
    split; [reflexivity|]. split.
    + rewrite common_type_comm. reflexivity.
    + intros [Hd | Hd]; rewrite Hd; f_equal.
      * destruct (fst r); reflexivity.
      * destruct (fst l); reflexivity.
  - intros Hdev. destruct (CWiseMapTraits.is_same_v (snd l) (snd r)) eqn:E; [|reflexivity].
    apply is_same_v_eq in E. contradiction.
  - reflexivity.
Qed.

Lemma CWiseMap_Scalar_order_witness :
  CWiseMapTraits.Scalar [(internal.int32, memory.CPU); (internal.double_t, memory.CPU)]
    = Some (internal.common_type internal.int32 internal.double_t) /\
  CWiseMapTraits.Scalar [(internal.double_t, memory.CPU); (internal.int32, memory.CPU)]
    = CWiseMapTraits.Scalar [(internal.int32, memory.CPU); (internal.double_t, memory.CPU)] /\
  (internal.int32 = internal.double_t \/ internal.double_t = internal.double_t ->
     CWiseMapTraits.Scalar [(internal.int32, memory.CPU); (internal.double_t, memory.CPU)]
       = Some internal.double_t).
Proof.
  apply (proj1 (CWiseMap_Scalar_order (internal.int32, memory.CPU)
                  (internal.double_t, memory.CPU))).
  reflexivity.
Defined.
